(** * Vamana graph index: a shallow embedding of [vamana.cpp]

    The development follows [src/vamana.cpp], [include/vamana.h] and
    [src/distance_functions.cpp].

    Modelling conventions.
    - [float] values are exact rationals ([Q]); rounding, infinities and NaN
      are outside the model (the runs evaluated below use small integers,
      on which float arithmetic is exact).  [std::numeric_limits<float>::max()]
      and [lowest()] are the rationals [2^128 - 2^104] and its opposite.  The
      float comparison [==] is [Qeq_bool].  [1.0f / 0] is [0] in [Q]; it can
      only arise in [centroid()] of a tracker with count [0].
    - [uint32_t] ids are [N]; [size_t] quantities ([R], [L], [k], [dims])
      are [nat]; the [uint64_t] counters of the medoid tracker are [Z] with
      their wrap-around modulo [2^64] written out.
    - [std::unordered_map] is [gmap], [std::unordered_set] is [gset].  Where
      the source takes [node_map.begin()] the model takes the first binding
      of [map_to_list].
    - [std::priority_queue] is a list kept ordered by its comparator, the top
      at the head.  The order the real heap gives to entries of equal
      distance is unspecified; the model puts the newest one first.
    - A call that leaves defined behaviour in the source ([top()] of an empty
      queue, [at()] of an absent key, a vector resized while it is iterated,
      [VisitedSet::mark] of the id [2^32 - 1]) evaluates to [None].
    - Vectors are expected to hold [dims] components; a missing component is
      read as [0]. *)

From Stdlib Require Import QArith Lqa Sorted.
From stdpp Require Import gmap list sorting.

(** ** Floats *)

Definition FLT_MAX : Q := (2 ^ 128 - 2 ^ 104)%Z # 1.
Definition FLT_LOWEST : Q := - FLT_MAX.

Definition flt (a b : Q) : bool := negb (Qle_bool b a).
Definition fle (a b : Q) : bool := Qle_bool a b.
Definition feq (a b : Q) : bool := Qeq_bool a b.

(** ** distance_functions.cpp *)

Inductive distance_metric_t := L2 | INNER_PRODUCT.

Definition vec_at (a : list Q) (i : nat) : Q := nth i a 0%Q.

Definition sq_diff (a b : list Q) (i : nat) : Q :=
  let diff := (vec_at a i - vec_at b i)%Q in (diff * diff)%Q.

Definition l2_distance_plain (a b : list Q) (dim : nat) : Q :=
  foldl (fun dist i => (dist + sq_diff a b i)%Q) 0%Q (seq 0 dim).

(** One lane of the 8-wide accumulator [sum] after the blocks [0 .. limit). *)
Definition l2_lane (a b : list Q) (limit lane : nat) : Q :=
  foldl (fun acc blk => (acc + sq_diff a b (8 * blk + lane))%Q) 0%Q
        (seq 0 (limit / 8)).

Definition l2_distance (a b : list Q) (dim : nat) : Q :=
  let limit := dim - dim mod 8 in
  let dist :=
    if 0 <? limit then
      let temp := l2_lane a b limit in
      (temp 0%nat + temp 1%nat + temp 2%nat + temp 3%nat +
       temp 4%nat + temp 5%nat + temp 6%nat + temp 7%nat)%Q
    else 0%Q in
  foldl (fun dist i => (dist + sq_diff a b i)%Q) dist (seq limit (dim - limit)).

Definition ip_distance (a b : list Q) (dim : nat) : Q :=
  let dist := foldl (fun dist i => (dist + vec_at a i * vec_at b i)%Q) 0%Q (seq 0 dim) in
  (1 - dist)%Q.

Definition compute (metric : distance_metric_t) (a b : list Q) (dims : nat) : Q :=
  match metric with
  | L2 => l2_distance a b dims
  | INNER_PRODUCT => ip_distance a b dims
  end.

(** ** vamana.h *)

Record vamana_candidate_t := mk_candidate { cand_id : N; distance : Q }.

Definition min_cmp (a b : vamana_candidate_t) : bool := flt (distance b) (distance a).
Definition max_cmp (a b : vamana_candidate_t) : bool := flt (distance a) (distance b).

Record vamana_node_t := mk_node { neighbors : list N; vector : list Q }.

Definition set_neighbors (nbrs : list N) (node : vamana_node_t) : vamana_node_t :=
  {| neighbors := nbrs; vector := vector node |}.

(** [std::priority_queue<vamana_candidate_t, _, comp>]: [top] is an entry
    that no other entry is above under [comp]. *)
Section priority_queue.
Variable comp : vamana_candidate_t -> vamana_candidate_t -> bool.

Fixpoint pq_push (x : vamana_candidate_t) (q : list vamana_candidate_t) :
    list vamana_candidate_t :=
  match q with
  | [] => [x]
  | y :: q' => if comp x y then y :: pq_push x q' else x :: q
  end.

Definition pq_top (q : list vamana_candidate_t) : option vamana_candidate_t := head q.
Definition pq_pop (q : list vamana_candidate_t) : list vamana_candidate_t := tail q.
End priority_queue.

(** [StreamingMedoid].  [_n] and [_countdown] are [uint64_t]. *)
Record StreamingMedoid := mk_medoid {
  _sum : list Q;
  _n : Z;
  _interval : Z;
  _countdown : Z
}.

Definition wrap64 (z : Z) : Z := (z mod 2 ^ 64)%Z.

Definition StreamingMedoid_new (dims : nat) (recompute_every : Z) : StreamingMedoid :=
  let interval := if (recompute_every =? 0)%Z then 10000%Z else recompute_every in
  {| _sum := replicate dims 0%Q; _n := 0; _interval := interval; _countdown := interval |}.

Definition medoid_add (x : list Q) (m : StreamingMedoid) : StreamingMedoid :=
  {| _sum := imap (fun i s => (s + vec_at x i)%Q) (_sum m);
   _n := wrap64 (_n m + 1);
   _interval := _interval m;
   _countdown := wrap64 (_countdown m - 1) |}.

Definition medoid_sub (x : list Q) (m : StreamingMedoid) : StreamingMedoid :=
  {| _sum := imap (fun i s => (s - vec_at x i)%Q) (_sum m);
   _n := wrap64 (_n m - 1);
   _interval := _interval m;
   _countdown := wrap64 (_countdown m - 1) |}.

Definition should_recompute (m : StreamingMedoid) : bool := (_countdown m =? 0)%Z.

(** [centroid()] returns the centroid and resets the countdown. *)
Definition centroid (m : StreamingMedoid) : list Q * StreamingMedoid :=
  let scale := (1 / (_n m # 1))%Q in
  (map (fun s => (s * scale)%Q) (_sum m),
  {| _sum := _sum m; _n := _n m; _interval := _interval m; _countdown := _interval m |}).

(** [dedup_vector]: keeps the first occurrence of every value. *)
Fixpoint dedup_from (seen : gset N) (v : list N) : list N :=
  match v with
  | [] => []
  | x :: v' =>
    if bool_decide (x ∈ seen) then dedup_from seen v'
    else x :: dedup_from ({[x]} ∪ seen) v'
  end.

Definition dedup_vector (v : list N) : list N := dedup_from ∅ v.

(** [VisitedSet::mark]: true iff the id is newly visited.  A set acquired
  from the pool has no id marked under its current epoch. *)
Definition mark (i : N) (visited : gset N) : bool * gset N :=
  (bool_decide (i ∉ visited), {[i]} ∪ visited).

Definition UINT32_MAX : N := 4294967295.

(** [visited->mark(id)] on the set that [g_visited_pool.acquire] hands to
  [greedy_search].  [ensure_capacity] computes the new size [id + 1] in
  [uint32_t]: for the id [2^32 - 1] it is 0, the flags are emptied and
  [_flags[id]] is read out of bounds.  Ids are [uint32_t] values, so none
  is above [2^32 - 1].  ([VisitedSet_mark] below has the flags; a set of
  the pool holds [2^32] of them only when it was made for a node map with
  all [2^32] ids, which the model leaves out.) *)
Definition visited_mark (i : N) (visited : gset N) : option (bool * gset N) :=
  if (i <? UINT32_MAX)%N then Some (mark i visited) else None.

(** The mutable members of [class Vamana]; [R], [metric] and [dims] are
  fixed at construction. *)
Record Vamana := mk_vamana {
  node_map : gmap N vamana_node_t;
  start_node : N;
  medoid_tracker : StreamingMedoid;
  delete_list : gset N
}.

Definition begin_key (m : gmap N vamana_node_t) : option N := fst <$> head (map_to_list m).

(** ** vamana.cpp *)

Section vamana.
Variable R : nat.
Variable metric : distance_metric_t.
Variable dims : nat.

Definition Vamana_new : Vamana :=
  {| node_map := ∅; start_node := 0%N;
     medoid_tracker := StreamingMedoid_new dims 0; delete_list := ∅ |}.

(** *** greedy_search *)

Record search_state := mk_search {
  candidates : list vamana_candidate_t;
  results : list vamana_candidate_t;
  visited : gset N;
  max_distance : Q
}.

(** Body of [for (size_t i = 0; i < ids.size(); ++i)], prefetches left out. *)
Definition visit_neighbor (nm : gmap N vamana_node_t) (query : list Q)
    (acc : gset N * list vamana_candidate_t) (nid : N) :
    option (gset N * list vamana_candidate_t) :=
  '(newly, visited') ← visited_mark nid acc.1;
  if negb newly then Some acc
  else match nm !! nid with
       | None => Some (visited', acc.2)
       | Some n =>
           let d := compute metric (vector n) query dims in
           Some (visited', pq_push min_cmp (mk_candidate nid d) acc.2)
       end.

(** The [for] loop over [ids]. *)
Fixpoint visit_neighbors (nm : gmap N vamana_node_t) (query : list Q)
    (acc : gset N * list vamana_candidate_t) (ids : list N) :
    option (gset N * list vamana_candidate_t) :=
  match ids with
  | [] => Some acc
  | nid :: ids' =>
      acc' ← visit_neighbor nm query acc nid;
      visit_neighbors nm query acc' ids'
  end.

(** The acceptance block (lines 99-114) for the popped candidate [nn]. *)
Definition accept_candidate (dl : gset N) (L : nat) (filter : option (N -> bool))
    (nn : vamana_candidate_t) (results : list vamana_candidate_t) (max_distance : Q) :
    option (list vamana_candidate_t * Q) :=
  closer ← (if length results <? L then Some true
            else (t ← pq_top results; Some (flt (distance nn) (distance t))));
  if closer && bool_decide (cand_id nn ∉ dl) then
    let results1 :=
      match filter with
      | Some f => if f (cand_id nn) then pq_push max_cmp nn results else results
      | None => pq_push max_cmp nn results
      end in
    let results2 := if L <? length results1 then pq_pop results1 else results1 in
    if length results2 =? L then
      t ← pq_top results2; Some (results2, distance t)
    else Some (results2, max_distance)
  else Some (results, max_distance).

(** One turn of [while (!candidates.empty())] after [candidates.pop()]. *)
Definition search_body (V : Vamana) (query : list Q) (L : nat) (filter : option (N -> bool))
    (nn : vamana_candidate_t) (rest : list vamana_candidate_t) (s : search_state) :
    option search_state :=
  '(results', max_distance') ←
      accept_candidate (delete_list V) L filter nn (results s) (max_distance s);
  match node_map V !! cand_id nn with
  | None =>
      Some {| candidates := rest; results := results';
              visited := visited s; max_distance := max_distance' |}
  | Some node =>
      '(visited', candidates') ←
          visit_neighbors (node_map V) query (visited s, rest) (neighbors node);
      Some {| candidates := candidates'; results := results';
              visited := visited'; max_distance := max_distance' |}
  end.

(** The [while] loop; [fuel] bounds the number of turns.  Every turn pops a
    candidate and every push marks a fresh key of the node map, so
    [size node_map] turns are enough ([search_loop_total]). *)
Fixpoint search_loop (V : Vamana) (query : list Q) (L : nat) (filter : option (N -> bool))
    (fuel : nat) (s : search_state) : option search_state :=
  match candidates s with
  | [] => Some s
  | nn :: rest =>
      if flt (max_distance s) (distance nn) then Some s
      else match fuel with
           | 0 => None
           | S fuel' =>
               s' ← search_body V query L filter nn rest s;
               search_loop V query L filter fuel' s'
           end
  end.

(** [greedy_search(start, query, k, L, search_result, filter)]: the result
    is the content of [search_result.nearest_nodes] on return, [nearest_nodes]
    being its content on entry (empty at every call site).  [filter] is
    [None] for [nullptr].  The thread-local queues are reset at every call
    and are locals here; the visited set comes from the pool with no id
    marked and goes back to it. *)
Definition greedy_search (start : N) (query : list Q) (k L : nat)
    (nearest_nodes : list vamana_candidate_t) (filter : option (N -> bool))
    (V : Vamana) : option (list vamana_candidate_t) :=
  match node_map V !! start with
  | None => Some nearest_nodes
  | Some start_node_it =>
      let d := compute metric (vector start_node_it) query dims in
      '(_, visited0) ← visited_mark start ∅;
      let s0 := {| candidates := pq_push min_cmp (mk_candidate start d) [];
                   results := [];
                   visited := visited0;
                   max_distance := FLT_MAX |} in
      s ← search_loop V query L filter (size (node_map V)) s0;
      let drained := nearest_nodes ++ results s in
      let reversed := reverse drained in
      Some (take (min k (length reversed)) reversed)
  end.

(** *** robust_prune *)

(** [for (size_t j = i + 1; j < candidates.size(); j++)]: [n] turns are
    left and [j] is the current index. *)
Fixpoint prune_inner (nm : gmap N vamana_node_t) (p : N) (alpha : Q)
    (neighbor_vec : list Q) (n j : nat) (cands : list vamana_candidate_t) :
    list vamana_candidate_t :=
  match n with
  | 0 => cands
  | S n' =>
      let cands' :=
        match cands !! j with
        | None => cands
        | Some cj =>
            if feq (distance cj) FLT_LOWEST then cands
            else if (cand_id cj =? p)%N then cands
            else match nm !! cand_id cj with
                 | None => cands
                 | Some candidate_it =>
                     let dist_between_candidates :=
                       compute metric neighbor_vec (vector candidate_it) dims in
                     if fle (alpha * dist_between_candidates) (distance cj)
                     then <[j := mk_candidate (cand_id cj) FLT_LOWEST]> cands
                     else cands
                 end
        end in
      prune_inner nm p alpha neighbor_vec n' (S j) cands'
  end.

(** [for (size_t i = 0; i < candidates.size(); i++)] for one value of
    [alpha]: [n] turns are left and [i] is the current index.  The boolean
    tells whether the function returned from inside the loop. *)
Fixpoint prune_pass (nm : gmap N vamana_node_t) (p : N) (alpha : Q) (n i : nat)
    (cands : list vamana_candidate_t) (pneighbors : list N) :
    bool * list vamana_candidate_t * list N :=
  match n with
  | 0 => (false, cands, pneighbors)
  | S n' =>
      if R <=? length pneighbors then (true, cands, pneighbors)
      else match cands !! i with
           | None => (false, cands, pneighbors)
           | Some ci =>
               if feq (distance ci) FLT_LOWEST then
                 prune_pass nm p alpha n' (S i) cands pneighbors
               else if (cand_id ci =? p)%N then
                 prune_pass nm p alpha n' (S i) cands pneighbors
               else
                 let pneighbors' := pneighbors ++ [cand_id ci] in
                 let cands' := <[i := mk_candidate (cand_id ci) FLT_LOWEST]> cands in
                 match nm !! cand_id ci with
                 | None => prune_pass nm p alpha n' (S i) cands' pneighbors'
                 | Some neighbor_it =>
                     let cands'' :=
                       prune_inner nm p alpha (vector neighbor_it)
                                   (length cands' - S i) (S i) cands' in
                     prune_pass nm p alpha n' (S i) cands'' pneighbors'
                 end
           end
  end.

(** The two passes ([loop_i = 0] with [alpha = 1.0f], [loop_i = 1] with
    [max_alpha]); yields the new [neighbors] of [p]. *)
Definition prune_select (nm : gmap N vamana_node_t) (p : N)
    (candidates : list vamana_candidate_t) (max_alpha : Q) : list N :=
  let '(returned, cands1, pn1) := prune_pass nm p 1%Q (length candidates) 0 candidates [] in
  if returned then pn1
  else (prune_pass nm p max_alpha (length cands1) 0 cands1 pn1).2.

(** [robust_prune(p, candidates, max_alpha)].  The vector [candidates] is
    passed by reference and marked in place, but no caller reads it again. *)
Definition robust_prune (p : N) (candidates : list vamana_candidate_t) (max_alpha : Q)
    (nm : gmap N vamana_node_t) : gmap N vamana_node_t :=
  match nm !! p with
  | None => nm
  | Some node => <[p := set_neighbors (prune_select nm p candidates max_alpha) node]> nm
  end.

(** *** update_neighbors *)

(** [std::sort(first, last, comp)]: afterwards no element is [comp]-below an
    earlier one. *)
Fixpoint sort_insert {A} (comp : A -> A -> bool) (x : A) (l : list A) : list A :=
  match l with
  | [] => [x]
  | y :: l' => if comp y x then y :: sort_insert comp x l' else x :: l
  end.

Definition std_sort {A} (comp : A -> A -> bool) (l : list A) : list A :=
  foldr (sort_insert comp) [] l.

(** The vector [ncandidates] handed to [robust_prune] at line 269. *)
Definition back_edge_candidates (id : N) (vec : list Q) (neighbor_node : vamana_node_t)
    (dl : gset N) (nm : gmap N vamana_node_t) : list vamana_candidate_t :=
  let ncandidates :=
    omap (fun n_neighbor =>
            if bool_decide (n_neighbor ∈ dl) then None
            else n_it ← nm !! n_neighbor;
                 Some (mk_candidate n_neighbor
                         (compute metric (vector n_it) (vector neighbor_node) dims)))
         (neighbors neighbor_node) in
  let dist_to_node := compute metric (vector neighbor_node) vec dims in
  std_sort max_cmp (ncandidates ++ [mk_candidate id dist_to_node]).

(** Body of [for (uint32_t neighbor_id: neighbors)].  The loop iterates the
    neighbor vector of [id] itself: pruning [id] there would clear the vector
    under the iteration. *)
Definition update_neighbor (id : N) (vec : list Q) (alpha : Q) (dl : gset N)
    (nm : gmap N vamana_node_t) (neighbor_id : N) : option (gmap N vamana_node_t) :=
  if bool_decide (neighbor_id ∈ dl) then Some nm
  else match nm !! neighbor_id with
       | None => Some nm
       | Some neighbor_node =>
           if R <=? length (neighbors neighbor_node) then
             if (neighbor_id =? id)%N then None
             else Some (robust_prune neighbor_id
                          (back_edge_candidates id vec neighbor_node dl nm) alpha nm)
           else if bool_decide (id ∈ neighbors neighbor_node) then Some nm
           else Some (<[neighbor_id :=
                          set_neighbors (neighbors neighbor_node ++ [id]) neighbor_node]> nm)
       end.

Definition update_neighbors (id : N) (vec : list Q) (alpha : Q) (dl : gset N)
    (nm : gmap N vamana_node_t) : option (gmap N vamana_node_t) :=
  node ← nm !! id;
  foldl (fun acc neighbor_id => nm' ← acc; update_neighbor id vec alpha dl nm' neighbor_id)
        (Some nm) (neighbors node).

(** *** try_medoid_compute, insert, update *)

Definition set_node_map (nm : gmap N vamana_node_t) (V : Vamana) : Vamana :=
  {| node_map := nm; start_node := start_node V;
     medoid_tracker := medoid_tracker V; delete_list := delete_list V |}.

Definition set_start_node (s : N) (V : Vamana) : Vamana :=
  {| node_map := node_map V; start_node := s;
     medoid_tracker := medoid_tracker V; delete_list := delete_list V |}.

Definition set_medoid_tracker (m : StreamingMedoid) (V : Vamana) : Vamana :=
  {| node_map := node_map V; start_node := start_node V;
     medoid_tracker := m; delete_list := delete_list V |}.

Definition try_medoid_compute (point : list Q) (force : bool) (V : Vamana) : option Vamana :=
  let V1 := set_medoid_tracker (medoid_add point (medoid_tracker V)) V in
  if force || should_recompute (medoid_tracker V1) then
    let '(c, tracker) := centroid (medoid_tracker V1) in
    let V2 := set_medoid_tracker tracker V1 in
    res ← greedy_search (start_node V2) c 1 64 [] None V2;
    match res with
    | r :: _ => Some (set_start_node (cand_id r) V2)
    | [] => Some V2
    end
  else Some V1.

Definition try_emplace (id : N) (vec : list Q) (nm : gmap N vamana_node_t) :
    gmap N vamana_node_t :=
  match nm !! id with
  | Some _ => nm
  | None => <[id := mk_node [] vec]> nm
  end.

Definition insert (id : N) (vec : list Q) (L : nat) (alpha : Q) (V : Vamana) : option Vamana :=
  let V1 := set_node_map (try_emplace id vec (node_map V)) V in
  V2 ← try_medoid_compute vec false V1;
  search_result ← greedy_search (start_node V2) vec L L [] None V2;
  let V3 := set_node_map (robust_prune id search_result alpha (node_map V2)) V2 in
  nm ← update_neighbors id vec alpha (delete_list V3) (node_map V3);
  Some (set_node_map nm V3).

Definition update (id : N) (new_vec : list Q) (L : nat) (alpha : Q) (V : Vamana) :
    option Vamana :=
  match node_map V !! id with
  | None => Some V
  | Some it =>
      if bool_decide (id ∈ delete_list V) then Some V
      else
        let V1 := set_node_map (<[id := mk_node (neighbors it) new_vec]> (node_map V)) V in
        search_result ← greedy_search (start_node V1) new_vec L L [] None V1;
        let V2 := set_node_map (robust_prune id search_result alpha (node_map V1)) V1 in
        nm ← update_neighbors id new_vec alpha (delete_list V2) (node_map V2);
        Some (set_node_map nm V2)
  end.

(** *** batch_delete *)

Definition batch_delete (V : Vamana) : Vamana :=
  if bool_decide (delete_list V = ∅) then V
  else
    {| node_map :=
         (fun node =>
            set_neighbors (filter (fun x => x ∉ delete_list V) (neighbors node)) node)
         <$> node_map V;
       start_node := start_node V;
       medoid_tracker := medoid_tracker V;
       delete_list := ∅ |}.
(** *** remove *)

Definition L_del : nat := 128.
Definition K_del : nat := 50.
Definition C : nat := 3.

Definition has_key (i : N) (nm : gmap N vamana_node_t) : bool :=
  bool_decide (is_Some (nm !! i)).

(** The lambda [select_top_c(anchor, out)]; yields [out].  [id] is the node
    being removed and [sr] the result of the local search. *)
Definition select_top_c (id : N) (sr : list vamana_candidate_t) (anchor : N)
    (nm : gmap N vamana_node_t) : option (list N) :=
  a ← nm !! anchor;
  let buf :=
    omap (fun cand =>
            if (cand_id cand =? id)%N then None
            else n ← nm !! cand_id cand;
                 Some (compute metric (vector a) (vector n) dims, cand_id cand))
         sr in
  let take_n := min C (length buf) in
  Some ((take take_n (std_sort (fun a b : Q * N => flt a.1 b.1) buf)).*2).

(** The lambda [patch_edges(owner, add)]. *)
Definition patch_edges (owner : N) (add : list N) (nm : gmap N vamana_node_t) :
    option (gmap N vamana_node_t) :=
  node ← nm !! owner;
  let nbrs := dedup_vector (neighbors node ++ add) in
  let nm1 := <[owner := set_neighbors nbrs node]> nm in
  if R <? length nbrs then
    let cand :=
      omap (fun v =>
              n ← nm1 !! v;
              Some (mk_candidate v (compute metric (vector n) (vector node) dims)))
           nbrs in
    Some (robust_prune owner (std_sort max_cmp cand) 1.2%Q nm1)
  else Some nm1.

(** Step 3: the nodes of [sr] that list [id] as a neighbor. *)
Definition approx_in_neighbors (id : N) (sr : list vamana_candidate_t)
    (nm : gmap N vamana_node_t) : list N :=
  omap (fun nn =>
          nit ← nm !! cand_id nn;
          if bool_decide (id ∈ neighbors nit) then Some (cand_id nn) else None)
       sr.

(** Step 4: [for (uint32_t z: approx_in)]. *)
Definition patch_in_neighbors (id : N) (sr : list vamana_candidate_t) (approx_in : list N)
    (nm : gmap N vamana_node_t) : option (gmap N vamana_node_t) :=
  foldl (fun acc z =>
           nm' ← acc;
           if negb (has_key z nm') then Some nm'
           else scratch ← select_top_c id sr z nm'; patch_edges z scratch nm')
        (Some nm) approx_in.

(** Step 5: [for (uint32_t w: it->second.neighbors)].  An empty [scratch]
    leaves the inner loop without a turn. *)
Definition patch_out_neighbors (id : N) (sr : list vamana_candidate_t) (out : list N)
    (nm : gmap N vamana_node_t) : option (gmap N vamana_node_t) :=
  foldl (fun acc w =>
           nm' ← acc;
           if negb (has_key w nm') then Some nm'
           else
             scratch ← select_top_c id sr w nm';
             foldl (fun acc' y =>
                      nm'' ← acc';
                      if (y =? w)%N || negb (has_key y nm'') then Some nm''
                      else patch_edges y [w] nm'')
                   (Some nm') scratch)
        (Some nm) out.

Definition remove (id : N) (V : Vamana) : option Vamana :=
  match node_map V !! id with
  | None => Some V
  | Some it =>
      sr ← greedy_search (start_node V) (vector it) K_del L_del [] None V;
      let approx_in := approx_in_neighbors id sr (node_map V) in
      if bool_decide (approx_in = []) && bool_decide (neighbors it = []) then
        let nm' := delete id (node_map V) in
        let start' :=
          if (start_node V =? id)%N then
            match begin_key nm' with
            | Some b => b
            | None => start_node V
            end
          else start_node V in
        Some {| node_map := nm'; start_node := start';
                medoid_tracker := medoid_sub (vector it) (medoid_tracker V);
                delete_list := {[id]} ∪ delete_list V |}
      else
        nm1 ← patch_in_neighbors id sr approx_in (node_map V);
        it1 ← nm1 !! id;
        nm2 ← patch_out_neighbors id sr (neighbors it1) nm1;
        it2 ← nm2 !! id;
        let tracker := medoid_sub (vector it2) (medoid_tracker V) in
        let dl := {[id]} ∪ delete_list V in
        let nm3 := delete id nm2 in
        if (start_node V =? id)%N && negb (bool_decide (nm3 = ∅)) then
          let '(c, tracker') := centroid tracker in
          b ← begin_key nm3;
          let V' := {| node_map := nm3; start_node := start_node V;
                       medoid_tracker := tracker'; delete_list := dl |} in
          medoid_res ← greedy_search b c 1 64 [] None V';
          match medoid_res with
          | r :: _ => Some (set_start_node (cand_id r) V')
          | [] => Some (set_start_node b V')
          end
        else
          Some {| node_map := nm3; start_node := start_node V;
                  medoid_tracker := tracker; delete_list := dl |}
  end.

(** *** Accessors *)

Definition get_start_node (V : Vamana) : N := start_node V.

Definition get_size (V : Vamana) : nat := size (node_map V).

Definition get_node (node_id : N) (V : Vamana) : vamana_node_t :=
  let empty_node := mk_node [] [] in
  if bool_decide (node_id ∈ delete_list V) then empty_node
  else default empty_node (node_map V !! node_id).

(** Inner loop of [validate_graph] over one neighbor list. *)
Fixpoint validate_neighbors (unique_neighbors : gset N) (nbrs : list N) : bool :=
  match nbrs with
  | [] => true
  | neighbor :: rest =>
      if bool_decide (neighbor ∈ unique_neighbors) || (R <? size unique_neighbors)
      then false
      else validate_neighbors ({[neighbor]} ∪ unique_neighbors) rest
  end.

Definition validate_graph (V : Vamana) : bool :=
  forallb (fun kv => validate_neighbors ∅ (neighbors kv.2)) (map_to_list (node_map V)).

End vamana.

(** ** Operations as data *)

Inductive operation :=
  | op_insert (id : N) (vec : list Q) (L : nat) (alpha : Q)
  | op_update (id : N) (new_vec : list Q) (L : nat) (alpha : Q)
  | op_remove (id : N)
  | op_batch_delete.

Definition apply_op (R : nat) (metric : distance_metric_t) (dims : nat)
    (o : operation) (V : Vamana) : option Vamana :=
  match o with
  | op_insert id vec L alpha => insert R metric dims id vec L alpha V
  | op_update id new_vec L alpha => update R metric dims id new_vec L alpha V
  | op_remove id => remove R metric dims id V
  | op_batch_delete => Some (batch_delete V)
  end.

Definition run (R : nat) (metric : distance_metric_t) (dims : nat)
    (ops : list operation) (V : Vamana) : option Vamana :=
  foldl (fun acc o => V' ← acc; apply_op R metric dims o V') (Some V) ops.

(** A beam width of [0] makes [greedy_search] read the top of an empty
    queue, and the id [2^32 - 1] cannot be marked as visited. *)
Definition op_defined (o : operation) : Prop :=
  match o with
  | op_insert id _ L _ => 0 < L /\ (id < UINT32_MAX)%N
  | op_update _ _ L _ => 0 < L
  | _ => True
  end.

(** ** Properties stated by the specification *)

Definition ascending (l : list vamana_candidate_t) : Prop :=
  StronglySorted (fun a b => (distance a <= distance b)%Q) l.

Definition descending (l : list vamana_candidate_t) : Prop :=
  StronglySorted (fun a b => (distance b <= distance a)%Q) l.

Definition degree_ok (R : nat) (nm : gmap N vamana_node_t) : Prop :=
  map_Forall (fun _ node => length (neighbors node) <= R) nm.

Definition no_self_loop (nm : gmap N vamana_node_t) : Prop :=
  map_Forall (fun u node => u ∉ neighbors node) nm.

Definition start_node_live (V : Vamana) : Prop :=
  node_map V ≠ ∅ -> is_Some (node_map V !! start_node V).

Definition filter_accepts (filter : option (N -> bool)) (i : N) : Prop :=
  forall f, filter = Some f -> f i = true.

(** Invariants of the two queues of [greedy_search]. *)

Definition cand_ok (metric : distance_metric_t) (dims : nat) (nm : gmap N vamana_node_t)
    (query : list Q) (c : vamana_candidate_t) : Prop :=
  exists node, nm !! cand_id c = Some node /\
               distance c = compute metric (vector node) query dims.

Definition result_ok (metric : distance_metric_t) (dims : nat) (V : Vamana)
    (query : list Q) (filter : option (N -> bool)) (c : vamana_candidate_t) : Prop :=
  (cand_id c ∉ delete_list V) /\
  cand_ok metric dims (node_map V) query c /\
  filter_accepts filter (cand_id c).

Definition search_inv (metric : distance_metric_t) (dims : nat) (V : Vamana)
    (query : list Q) (filter : option (N -> bool)) (s : search_state) : Prop :=
  descending (results s) /\
  Forall (result_ok metric dims V query filter) (results s) /\
  Forall (cand_ok metric dims (node_map V) query) (candidates s).

Definition search_measure (nm : gmap N vamana_node_t) (s : search_state) : nat :=
  length (candidates s) + size (dom nm ∖ visited s).

(** Bookkeeping of [robust_prune]: a candidate is out of play once its
    distance is overwritten with [lowest()] or when it is the focal node. *)

Definition done_at (p : N) (c : vamana_candidate_t) : Prop :=
  feq (distance c) FLT_LOWEST = true \/ cand_id c = p.

Definition marks_grow (cands cands' : list vamana_candidate_t) : Prop :=
  length cands' = length cands /\
  forall k c, cands !! k = Some c ->
    exists c', cands' !! k = Some c' /\ cand_id c' = cand_id c /\
               (distance c' = distance c \/ distance c' = FLT_LOWEST).

Definition same_vectors (nm nm' : gmap N vamana_node_t) : Prop :=
  vector <$> nm' = vector <$> nm.

(** What insert, update and remove may do to the node map while they rewire
    edges: vectors and keys stay, and a degree bound that held still holds. *)
Definition rewires (R : nat) (nm nm' : gmap N vamana_node_t) : Prop :=
  same_vectors nm nm' /\ (degree_ok R nm -> degree_ok R nm').

(** What the search-prune-patch steps of insert and update do: they rewire,
    and a map free of self-loops stays so. *)
Definition relinks (R : nat) (nm nm' : gmap N vamana_node_t) : Prop :=
  rewires R nm nm' /\ (no_self_loop nm -> no_self_loop nm').

(** Invariant of a search for the vector stored under the start id: the
    start entry [c0] is still waiting in [candidates], or it sits in
    [results]. *)
Definition self_search_inv (metric : distance_metric_t) (dims : nat) (V : Vamana)
    (query : list Q) (c0 : vamana_candidate_t) (s : search_state) : Prop :=
  search_inv metric dims V query None s /\
  ((c0 ∈ results s) \/
   (results s = [] /\ candidates s = [c0] /\ max_distance s = FLT_MAX)).

(** When [vec] is at distance 0 from itself and no stored vector is
    closer to it than that.  The L2 metric always has it; the inner-product
    metric has it for a [vec] of norm 1 when no stored vector has an inner
    product above 1 with it. *)
Definition zero_is_least (metric : distance_metric_t) (dims : nat) (vec : list Q)
    (nm : gmap N vamana_node_t) : Prop :=
  match metric with
  | L2 => True
  | INNER_PRODUCT =>
      (ip_distance vec vec dims == 0)%Q /\
      forall j node, nm !! j = Some node -> (0 <= ip_distance (vector node) vec dims)%Q
  end.

(** The self-search law: after [insert(id, vec, L, alpha)],
    [greedy_search(id, vec, k, L')] returns [id] first, at distance 0. *)
Definition self_search_law (R : nat) (metric : distance_metric_t) (dims : nat)
    (V : Vamana) (id : N) (vec : list Q) (L : nat) (alpha : Q) (k L' : nat) : Prop :=
  exists V' r rest,
    insert R metric dims id vec L alpha V = Some V' /\
    greedy_search metric dims id vec k L' [] None V' = Some (r :: rest) /\
    cand_id r = id /\ (distance r == 0)%Q.

(** ** Sample indexes *)

(** Three points on a line, linked as [insert] links them with [R = 2]. *)
Definition line_graph : Vamana :=
  {| node_map := {[ 0%N := mk_node [1%N] [0%Q];
                    1%N := mk_node [0%N; 2%N] [1%Q];
                    2%N := mk_node [1%N] [3%Q] ]};
     start_node := 0%N;
     medoid_tracker := {| _sum := [4%Q]; _n := 3; _interval := 10000; _countdown := 9997 |};
     delete_list := ∅ |}.

(** The node map that [insert(2, (3))] hands to [update_neighbors] on an
    index with [R = 1] holding 0 at (0) and 1 at (1). *)
Definition back_edge_graph : gmap N vamana_node_t :=
  {[ 0%N := mk_node [1%N] [0%Q];
     1%N := mk_node [0%N] [1%Q];
     2%N := mk_node [1%N] [3%Q] ]}.

(** A node with [R + 1 = 2] distinct neighbors. *)
Definition overfull_graph : Vamana :=
  {| node_map := {[ 0%N := mk_node [1%N; 2%N] [0%Q] ]};
     start_node := 0%N;
     medoid_tracker := StreamingMedoid_new 1 0;
     delete_list := ∅ |}.

(** The index after [insert(0, (0))] and [insert(2^32 - 1, (1))] with
    [R = 2]: node 0 lists the last [uint32_t] id. *)
Definition last_id_graph : Vamana :=
  {| node_map := {[ 0%N := mk_node [4294967295%N] [0%Q];
                    4294967295%N := mk_node [0%N] [1%Q] ]};
     start_node := 0%N;
     medoid_tracker := {| _sum := [1%Q]; _n := 2; _interval := 10000; _countdown := 9998 |};
     delete_list := ∅ |}.

(** One unit vector under the inner-product metric. *)
Definition unit_graph : Vamana :=
  {| node_map := {[ 0%N := mk_node [] [1%Q; 0%Q] ]};
     start_node := 0%N;
     medoid_tracker := {| _sum := [1%Q; 0%Q]; _n := 1; _interval := 10000;
                          _countdown := 9999 |};
     delete_list := ∅ |}.

(** The comparator "smaller key first" over any element type. *)
Definition key_lt {A : Type} (key : A -> Q) (a b : A) : bool := flt (key a) (key b).

(** ** Further code of [vamana.cpp] and [vamana.h] *)

(** [hasDuplicates]: true at the first value met twice. *)
Fixpoint hasDuplicates_from (seen : gset N) (nbrs : list N) : bool :=
  match nbrs with
  | [] => false
  | n :: rest =>
      if bool_decide (n ∈ seen) then true
      else hasDuplicates_from ({[n]} ∪ seen) rest
  end.

Definition hasDuplicates (nbrs : list N) : bool := hasDuplicates_from ∅ nbrs.

(** [class VisitedSet]: [_tag] is the current epoch ([uint32_t]) and
    [_flags] holds one [uint32_t] per id. *)
Record VisitedSet := mk_visited { _tag : N; _flags : list N }.

Definition wrap32 (n : N) : N := (n mod 2 ^ 32)%N.

Definition VisitedSet_new (n : nat) : VisitedSet :=
  {| _tag := 1; _flags := replicate n 0%N |}.

Definition VisitedSet_clear (vs : VisitedSet) : VisitedSet :=
  let tag := wrap32 (_tag vs + 1) in
  if (tag =? 0)%N then {| _tag := 1; _flags := replicate (length (_flags vs)) 0%N |}
  else {| _tag := tag; _flags := _flags vs |}.

(** [std::vector::resize(n, 0)]. *)
Definition resize (n : nat) (v : list N) : list N :=
  take n v ++ replicate (n - length v) 0%N.

(** [ensure_capacity(id)]: [id + 1] is computed in [uint32_t]. *)
Definition ensure_capacity (id : N) (vs : VisitedSet) : VisitedSet :=
  if length (_flags vs) <=? N.to_nat id
  then {| _tag := _tag vs; _flags := resize (N.to_nat (wrap32 (id + 1))) (_flags vs) |}
  else vs.

(** [VisitedSet::mark(id)]; [None] when [_flags[id]] is out of bounds. *)
Definition VisitedSet_mark (id : N) (vs : VisitedSet) : option (bool * VisitedSet) :=
  let vs1 := ensure_capacity id vs in
  f ← _flags vs1 !! N.to_nat id;
  if (f =? _tag vs1)%N then Some (false, vs1)
  else Some (true, {| _tag := _tag vs1;
                      _flags := <[N.to_nat id := _tag vs1]> (_flags vs1) |}).

(** [class VisitedSetPool]: [_pool] with its back at the end of the list. *)
Definition VisitedSetPool_acquire (n : nat) (pool : list VisitedSet) :
    VisitedSet * list VisitedSet :=
  match last pool with
  | None => (VisitedSet_new n, pool)
  | Some v => (VisitedSet_clear v, removelast pool)
  end.

Definition VisitedSetPool_release (v : VisitedSet) (pool : list VisitedSet) :
    list VisitedSet :=
  pool ++ [v].

(** The ids a [VisitedSet] holds as visited, and what its operations keep. *)
Definition vs_marked (vs : VisitedSet) (i : N) : Prop :=
  _flags vs !! N.to_nat i = Some (_tag vs).

Definition vs_ok (vs : VisitedSet) : Prop :=
  (1 <= _tag vs < 2 ^ 32)%N /\ Forall (fun f => (f <= _tag vs)%N) (_flags vs).

(** Every neighbor id names a node of the map or a tombstone. *)
Definition edges_known (V : Vamana) : Prop :=
  forall u node v, node_map V !! u = Some node -> v ∈ neighbors node ->
    is_Some (node_map V !! v) \/ v ∈ delete_list V.

Definition edges_in (K : N -> Prop) (nm : gmap N vamana_node_t) : Prop :=
  forall u node v, nm !! u = Some node -> v ∈ neighbors node -> K v.

(** [nm] only mentions ids of [K]: as keys and in neighbor lists. *)
Definition closed_in (K : N -> Prop) (nm : gmap N vamana_node_t) : Prop :=
  edges_in K nm /\ forall j, is_Some (nm !! j) -> K j.

Definition distinct_ids (l : list vamana_candidate_t) : Prop :=
  NoDup (cand_id <$> l).

(** Every key and every neighbor id can be marked as visited: none is the
    last [uint32_t] value. *)
Definition markable (v : N) : Prop := (v < UINT32_MAX)%N.

Definition ids_in_range (nm : gmap N vamana_node_t) : Prop := closed_in markable nm.

(** [line_graph] after [remove(2)]: node 1 still lists the tombstoned id. *)
Definition tombstone_graph : Vamana :=
  {| node_map := {[ 0%N := mk_node [1%N] [0%Q];
                    1%N := mk_node [0%N; 2%N] [1%Q] ]};
     start_node := 0%N;
     medoid_tracker := {| _sum := [1%Q]; _n := 2; _interval := 10000; _countdown := 9996 |};
     delete_list := {[ 2%N ]} |}.

(** ** Float comparisons *)

Lemma flt_true a b : flt a b = true <-> (a < b)%Q.
Proof.
  unfold flt. rewrite negb_true_iff, <- not_true_iff_false, Qle_bool_iff.
  split; [apply Qnot_le_lt | apply Qlt_not_le].
Qed.

Lemma flt_false a b : flt a b = false <-> (b <= a)%Q.
Proof. unfold flt. rewrite negb_false_iff. apply Qle_bool_iff. Qed.

(** ** Priority queues and sorting *)

Lemma pq_push_perm comp x q : pq_push comp x q ≡ₚ x :: q.
Proof.
  induction q as [|y q IH]; simpl; [done|].
  destruct (comp x y); [|done].
  rewrite IH. apply Permutation_swap.
Qed.

Lemma pq_push_length comp x q : length (pq_push comp x q) = S (length q).
Proof. by rewrite pq_push_perm. Qed.

Lemma pq_push_Forall (P : vamana_candidate_t -> Prop) comp x q :
  P x -> Forall P q -> Forall P (pq_push comp x q).
Proof. intros. rewrite pq_push_perm. by constructor. Qed.

Lemma pq_push_elem comp x y q : y ∈ pq_push comp x q <-> y = x \/ y ∈ q.
Proof. rewrite pq_push_perm. apply elem_of_cons. Qed.

Lemma pq_push_max_descending x q : descending q -> descending (pq_push max_cmp x q).
Proof.
  unfold descending. induction q as [|y q IH]; intros Hs; simpl.
  - repeat constructor.
  - apply StronglySorted_inv in Hs as [Hs Hy].
    unfold max_cmp at 1. destruct (flt (distance x) (distance y)) eqn:E.
    + constructor; [by apply IH|].
      rewrite pq_push_perm. constructor; [|done].
      apply flt_true in E. by apply Qlt_le_weak.
    + apply flt_false in E.
      constructor; [by constructor|].
      constructor; [done|].
      eapply Forall_impl; [exact Hy|]. simpl. intros z Hz. by eapply Qle_trans.
Qed.

Lemma pq_push_max_below x t q :
  flt (distance x) (distance t) = true ->
  pq_push max_cmp x (t :: q) = t :: pq_push max_cmp x q.
Proof. intros E. simpl. unfold max_cmp at 1. by rewrite E. Qed.

Lemma descending_tail x q : descending (x :: q) -> descending q.
Proof. intros H. by apply StronglySorted_inv in H as [? ?]. Qed.

Lemma descending_reverse q : descending q -> ascending (reverse q).
Proof.
  unfold descending, ascending. induction q as [|x q IH]; intros Hs.
  - constructor.
  - apply StronglySorted_inv in Hs as [Hs Hx]. rewrite reverse_cons.
    specialize (IH Hs). revert IH. generalize (reverse_Permutation q) as Hp.
    generalize (reverse q) as r. intros r Hp IH.
    assert (Hx' : Forall (fun y => (distance y <= distance x)%Q) r) by (by rewrite Hp).
    clear Hp Hx Hs. induction IH as [|y r Hr IHr Hy]; simpl.
    + repeat constructor.
    + apply Forall_cons in Hx' as [Hyx Hx'].
      constructor; [by apply IHr|].
      apply Forall_app. split; [done|]. by constructor.
Qed.

Lemma ascending_take n q : ascending q -> ascending (take n q).
Proof.
  unfold ascending. intros Hs. revert n.
  induction Hs as [|x q Hq IH Hx]; intros [|n]; simpl; try constructor.
  - apply IH.
  - eapply Forall_take in Hx. exact Hx.
Qed.

Section sort_by_key.
Context {A : Type} (key : A -> Q).

Notation comp := (key_lt key).

Lemma sort_insert_perm x l : sort_insert comp x l ≡ₚ x :: l.
Proof.
  induction l as [|y l IH]; simpl; [done|].
  destruct (comp y x); [|done].
  rewrite IH. apply Permutation_swap.
Qed.

Lemma std_sort_perm l : std_sort comp l ≡ₚ l.
Proof.
  induction l as [|x l IH]; simpl; [done|].
  rewrite sort_insert_perm. by rewrite IH.
Qed.

Lemma sort_insert_sorted x l :
  StronglySorted (fun a b => (key a <= key b)%Q) l ->
  StronglySorted (fun a b => (key a <= key b)%Q) (sort_insert comp x l).
Proof.
  induction l as [|y l IH]; intros Hs; simpl.
  - repeat constructor.
  - apply StronglySorted_inv in Hs as [Hs Hy].
    unfold key_lt at 1. destruct (flt (key y) (key x)) eqn:E.
    + constructor; [by apply IH|].
      rewrite sort_insert_perm. constructor; [|done].
      apply flt_true in E. by apply Qlt_le_weak.
    + apply flt_false in E.
      constructor; [by constructor|].
      constructor; [done|].
      eapply Forall_impl; [exact Hy|]. simpl. intros z Hz. by eapply Qle_trans.
Qed.

Lemma std_sort_sorted l :
  StronglySorted (fun a b => (key a <= key b)%Q) (std_sort comp l).
Proof.
  induction l as [|x l IH]; simpl; [constructor|]. by apply sort_insert_sorted.
Qed.
End sort_by_key.

Lemma std_sort_max_cmp_ascending l : ascending (std_sort max_cmp l).
Proof. apply (std_sort_sorted distance). Qed.

Lemma std_sort_max_cmp_perm l : std_sort max_cmp l ≡ₚ l.
Proof. apply (std_sort_perm distance). Qed.

(** ** greedy_search *)

Section greedy_search_facts.
Context (metric : distance_metric_t) (dims : nat) (V : Vamana) (query : list Q).
Context (L : nat) (filter : option (N -> bool)).

Lemma accept_candidate_total nn res md :
  0 < L -> is_Some (accept_candidate (delete_list V) L filter nn res md).
Proof.
  intros HL. unfold accept_candidate.
  assert (Hc : exists closer,
             (if length res <? L then Some true
              else (t ← pq_top res; Some (flt (distance nn) (distance t)))) = Some closer).
  { destruct (length res <? L) eqn:E; [eauto|].
    apply Nat.ltb_ge in E. destruct res as [|t res]; simpl in *; [lia|eauto]. }
  destruct Hc as [closer ->]. simpl.
  destruct (closer && _); [|eauto].
  set (results1 := match filter with Some f => _ | None => _ end).
  set (results2 := if L <? length results1 then _ else _).
  destruct (length results2 =? L) eqn:E; [|eauto].
  apply Nat.eqb_eq in E. destruct results2; simpl in *; [lia|eauto].
Qed.

(** What the acceptance block can do to [results]. *)
Lemma accept_candidate_cases nn res md res' md' :
  accept_candidate (delete_list V) L filter nn res md = Some (res', md') ->
  res' = res \/ res' = pq_pop res \/
  ((cand_id nn ∉ delete_list V) /\ filter_accepts filter (cand_id nn) /\
   (res' = pq_push max_cmp nn res \/ res' = pq_pop (pq_push max_cmp nn res))).
Proof.
  unfold accept_candidate. intros H.
  apply bind_Some in H as (closer & _ & H).
  destruct (closer && bool_decide (cand_id nn ∉ delete_list V)) eqn:E;
    [|left; congruence].
  apply andb_true_iff in E as [_ Hdl]. apply bool_decide_eq_true in Hdl.
  assert (Hr1 : exists results1,
    (results1 = res \/ (filter_accepts filter (cand_id nn) /\
                        results1 = pq_push max_cmp nn res)) /\
    (if length (if L <? length results1 then pq_pop results1 else results1) =? L
     then t ← pq_top (if L <? length results1 then pq_pop results1 else results1);
          Some (if L <? length results1 then pq_pop results1 else results1, distance t)
     else Some (if L <? length results1 then pq_pop results1 else results1, md))
    = Some (res', md')).
  { destruct filter as [f|] eqn:Ef.
    - destruct (f (cand_id nn)) eqn:Efn; eexists; (split; [|exact H]); [right|left; done].
      split; [|done]. intros g Hg. congruence.
    - eexists; split; [right|exact H]. split; [|done]. intros g Hg. congruence. }
  destruct Hr1 as (results1 & Hr1 & Hres). clear H.
  assert (res' = if L <? length results1 then pq_pop results1 else results1) as ->.
  { destruct (length _ =? L); [|congruence].
    apply bind_Some in Hres as (t & _ & Hres). congruence. }
  destruct (L <? length results1), Hr1 as [->|[? ->]]; auto 10.
Qed.

Lemma accept_candidate_Forall (P : vamana_candidate_t -> Prop) nn res md res' md' :
  accept_candidate (delete_list V) L filter nn res md = Some (res', md') ->
  Forall P res ->
  (cand_id nn ∉ delete_list V -> filter_accepts filter (cand_id nn) -> P nn) ->
  Forall P res'.
Proof.
  intros H Hres Hnn.
  assert (Htl : forall q, Forall P q -> Forall P (pq_pop q)).
  { intros [|? ?] Hq; simpl; [done|]. by apply Forall_cons in Hq as [_ ?]. }
  apply accept_candidate_cases in H as [->|[->|(Hdl & Hf & [->| ->])]]; auto.
  - apply pq_push_Forall; auto.
  - apply Htl, pq_push_Forall; auto.
Qed.

Lemma accept_candidate_descending nn res md res' md' :
  accept_candidate (delete_list V) L filter nn res md = Some (res', md') ->
  descending res -> descending res'.
Proof.
  intros H Hres.
  assert (Htl : forall q, descending q -> descending (pq_pop q)).
  { intros [|? ?] Hq; simpl; [done|]. by eapply descending_tail. }
  apply accept_candidate_cases in H as [->|[->|(Hdl & Hf & [->| ->])]]; auto.
  - by apply pq_push_max_descending.
  - by apply Htl, pq_push_max_descending.
Qed.

Lemma visited_mark_Some nid vis :
  markable nid -> visited_mark nid vis = Some (mark nid vis).
Proof.
  unfold markable, visited_mark. intros H.
  by rewrite (proj2 (N.ltb_lt _ _) H).
Qed.

Lemma visited_mark_inv nid vis r :
  visited_mark nid vis = Some r -> r = mark nid vis /\ markable nid.
Proof.
  unfold markable, visited_mark. destruct (nid <? UINT32_MAX)%N eqn:E; [|done].
  intros [= <-]. split; [done|]. by apply N.ltb_lt.
Qed.

Lemma visit_neighbor_cases vis cands nid r :
  visit_neighbor metric dims (node_map V) query (vis, cands) nid = Some r ->
  r = (vis, cands) \/
  ((nid ∉ vis) /\ node_map V !! nid = None /\ r = ({[nid]} ∪ vis, cands)) \/
  (exists n, (nid ∉ vis) /\ node_map V !! nid = Some n /\
     r = ({[nid]} ∪ vis,
          pq_push min_cmp (mk_candidate nid (compute metric (vector n) query dims)) cands)).
Proof.
  unfold visit_neighbor. intros H. apply bind_Some in H as ([newly vis'] & Hm & H).
  apply visited_mark_inv in Hm as [Hm _]. unfold mark in Hm. simpl in Hm.
  injection Hm as -> ->.
  destruct (bool_decide (nid ∉ vis)) eqn:Evis; simpl in H; [|left; congruence].
  apply bool_decide_eq_true in Evis.
  destruct (node_map V !! nid) as [n|] eqn:E; injection H as <-; right; [right|left]; eauto.
Qed.

Lemma visit_neighbor_total acc nid :
  markable nid -> is_Some (visit_neighbor metric dims (node_map V) query acc nid).
Proof.
  intros H. unfold visit_neighbor. rewrite (visited_mark_Some _ _ H). simpl.
  destruct (negb _); [eauto|]. destruct (node_map V !! nid); eauto.
Qed.

Lemma visit_neighbors_total ids acc :
  Forall markable ids ->
  is_Some (visit_neighbors metric dims (node_map V) query acc ids).
Proof.
  intros H. revert acc. induction H as [|nid ids Hn _ IH]; intros acc; simpl; [eauto|].
  destruct (visit_neighbor_total acc nid Hn) as [acc' ->]. simpl. apply IH.
Qed.

(** A loop over the neighbors that returns has marked markable ids only. *)
Lemma visit_neighbors_markable ids acc r :
  visit_neighbors metric dims (node_map V) query acc ids = Some r ->
  Forall markable ids.
Proof.
  revert acc. induction ids as [|nid ids IH]; intros acc H; simpl in H; [constructor|].
  apply bind_Some in H as (acc' & Hn & H). constructor; [|by eapply IH].
  unfold visit_neighbor in Hn. apply bind_Some in Hn as (m & Hm & _).
  by apply visited_mark_inv in Hm as [_ ?].
Qed.

Lemma visit_neighbors_Forall (P : vamana_candidate_t -> Prop) ids vis cands r :
  visit_neighbors metric dims (node_map V) query (vis, cands) ids = Some r ->
  Forall P cands ->
  (forall nid n, node_map V !! nid = Some n ->
                 P (mk_candidate nid (compute metric (vector n) query dims))) ->
  Forall P r.2.
Proof.
  intros H Hc HP. revert vis cands H Hc.
  induction ids as [|nid ids IH]; intros vis cands H Hc; simpl in H.
  { by injection H as <-. }
  apply bind_Some in H as (acc' & Hn & H).
  apply visit_neighbor_cases in Hn as [->|[(_ & _ & ->)|(n & _ & Hn & ->)]];
    (eapply IH; [exact H|]); try done.
  apply pq_push_Forall; eauto.
Qed.

Lemma visit_neighbors_measure ids vis cands r :
  visit_neighbors metric dims (node_map V) query (vis, cands) ids = Some r ->
  length r.2 + size (dom (node_map V) ∖ r.1) <= length cands + size (dom (node_map V) ∖ vis).
Proof.
  revert vis cands.
  induction ids as [|nid ids IH]; intros vis cands H; simpl in H.
  { by injection H as <-. }
  apply bind_Some in H as (acc' & Hn & H).
  apply visit_neighbor_cases in Hn as [->|[(Hv & Hn & ->)|(n & Hv & Hn & ->)]].
  - by apply IH.
  - etrans; [by apply IH|].
    assert (size (dom (node_map V) ∖ ({[nid]} ∪ vis)) <= size (dom (node_map V) ∖ vis)); [|lia].
    apply subseteq_size. set_solver.
  - etrans; [by apply IH|]. rewrite pq_push_length.
    assert (size (dom (node_map V) ∖ ({[nid]} ∪ vis)) < size (dom (node_map V) ∖ vis)); [|lia].
    apply subset_size. apply elem_of_dom_2 in Hn. set_solver.
Qed.

Lemma search_body_total nn rest s :
  0 < L -> edges_in markable (node_map V) ->
  is_Some (search_body metric dims V query L filter nn rest s).
Proof.
  intros HL He. unfold search_body.
  destruct (accept_candidate_total nn (results s) (max_distance s) HL) as [[r md] ->].
  simpl. destruct (node_map V !! cand_id nn) as [node|] eqn:Hn; [|eauto].
  destruct (visit_neighbors_total (neighbors node) (visited s, rest)) as [[vis' cands'] ->].
  { apply Forall_forall. intros v Hv. by apply (He (cand_id nn) node v). }
  simpl. eauto.
Qed.

Lemma search_body_measure nn rest s s' :
  candidates s = nn :: rest ->
  search_body metric dims V query L filter nn rest s = Some s' ->
  search_measure (node_map V) s' < search_measure (node_map V) s.
Proof.
  intros Hc H. unfold search_body in H.
  apply bind_Some in H as ([r md] & _ & H).
  unfold search_measure. rewrite Hc. simpl.
  destruct (node_map V !! cand_id nn) as [node|].
  - apply bind_Some in H as ([vis' cands'] & Hv & H).
    apply visit_neighbors_measure in Hv.
    injection H as <-. simpl in *. lia.
  - injection H as <-. simpl. lia.
Qed.

Lemma search_loop_total fuel s :
  0 < L -> edges_in markable (node_map V) ->
  search_measure (node_map V) s <= fuel ->
  is_Some (search_loop metric dims V query L filter fuel s).
Proof.
  intros HL He. revert s. induction fuel as [|fuel IH]; intros s Hm.
  - unfold search_measure in Hm. destruct s as [[|nn rest] ? ? ?]; simpl in *; [eauto|lia].
  - simpl. destruct (candidates s) as [|nn rest] eqn:Hc; [eauto|].
    destruct (flt _ _); [eauto|].
    destruct (search_body_total nn rest s HL He) as [s' Hs']. rewrite Hs'. simpl.
    apply IH. apply search_body_measure in Hs'; [lia|done].
Qed.

(** Invariant rule for the [while] loop. *)
Lemma search_loop_invariant (I : search_state -> Prop) fuel s s' :
  (forall s nn rest s1, I s -> candidates s = nn :: rest ->
     flt (max_distance s) (distance nn) = false ->
     search_body metric dims V query L filter nn rest s = Some s1 -> I s1) ->
  I s -> search_loop metric dims V query L filter fuel s = Some s' -> I s'.
Proof.
  intros Hstep. revert s. induction fuel as [|fuel IH]; intros s Hs H; simpl in H.
  - destruct (candidates s); [congruence|]. destruct (flt _ _); congruence.
  - destruct (candidates s) as [|nn rest] eqn:Hc; [congruence|].
    destruct (flt _ _) eqn:Hb; [congruence|].
    apply bind_Some in H as (s1 & H1 & H). eapply IH; [|exact H]. eauto.
Qed.

Lemma search_body_inv s nn rest s1 :
  search_inv metric dims V query filter s -> candidates s = nn :: rest ->
  search_body metric dims V query L filter nn rest s = Some s1 ->
  search_inv metric dims V query filter s1.
Proof.
  intros (Hd & Hr & Hc) Hcs H. rewrite Hcs in Hc.
  apply Forall_cons in Hc as [Hnn Hc].
  unfold search_body in H. apply bind_Some in H as ([r md] & Ha & H).
  assert (Hd' : descending r) by (by eapply accept_candidate_descending).
  assert (Hr' : Forall (result_ok metric dims V query filter) r).
  { eapply accept_candidate_Forall; [exact Ha|done|]. intros. by split. }
  destruct (node_map V !! cand_id nn) as [node|].
  - apply bind_Some in H as ([vis' cands'] & Hv & H).
    apply (visit_neighbors_Forall (cand_ok metric dims (node_map V) query)) in Hv;
      [|done|intros nid n Hn; by exists n].
    by injection H as <-.
  - injection H as <-. by split.
Qed.

Lemma search_body_results nn rest s s1 :
  search_body metric dims V query L filter nn rest s = Some s1 ->
  exists md, accept_candidate (delete_list V) L filter nn (results s) (max_distance s)
             = Some (results s1, md).
Proof.
  unfold search_body. intros H. apply bind_Some in H as ([r md] & Ha & H).
  exists md. rewrite Ha. destruct (node_map V !! cand_id nn).
  - apply bind_Some in H as ([vis' cands'] & _ & H). by injection H as <-.
  - by injection H as <-.
Qed.

(** When the acceptance block drops the top of [results], the popped
    candidate was strictly closer than that top. *)
Lemma accept_candidate_pop nn res md res' md' :
  accept_candidate (delete_list V) L filter nn res md = Some (res', md') ->
  res' = res \/ res' = pq_push max_cmp nn res \/
  (exists t q, res = t :: q /\ flt (distance nn) (distance t) = true /\
               (res' = q \/ res' = pq_push max_cmp nn q)).
Proof.
  unfold accept_candidate. intros H.
  apply bind_Some in H as (closer & Hc & H). cbv zeta in H.
  assert (Hout : forall r2,
            (if length r2 =? L then t ← pq_top r2; Some (r2, distance t)
             else Some (r2, md)) = Some (res', md') -> res' = r2).
  { intros r2. destruct (length r2 =? L); intros Hr;
      [apply bind_Some in Hr as (? & _ & Hr)|]; congruence. }
  destruct (closer && bool_decide (cand_id nn ∉ delete_list V)) eqn:Hacc;
    [|left; congruence].
  apply andb_true_iff in Hacc as [-> _].
  destruct (length res <? L) eqn:HL.
  - apply Nat.ltb_lt in HL.
    destruct filter as [f|]; [destruct (f (cand_id nn))|].
    all: match type of H with context [L <? length ?r1] =>
           destruct (L <? length r1) eqn:HL1 end.
    all: try (apply Nat.ltb_lt in HL1; rewrite ?pq_push_length in HL1; lia).
    all: apply Hout in H; auto.
  - destruct res as [|t q]; [discriminate|]. simpl in Hc. injection Hc as Hc.
    rewrite (pq_push_max_below nn t q Hc) in H.
    destruct filter as [f|]; [destruct (f (cand_id nn))|].
    all: match type of H with context [L <? length ?r1] =>
           destruct (L <? length r1) end.
    all: apply Hout in H; simpl in H; subst res'.
    all: rewrite <- ?(pq_push_max_below nn t q Hc); eauto 10.
Qed.

Lemma search_loop_exit fuel s s' :
  search_loop metric dims V query L filter fuel s = Some s' ->
  candidates s' = [] \/
  exists nn rest, candidates s' = nn :: rest /\ flt (max_distance s') (distance nn) = true.
Proof.
  revert s. induction fuel as [|fuel IH]; intros s H; simpl in H.
  - destruct (candidates s) as [|nn rest] eqn:Hc; [injection H as <-; by left|].
    destruct (flt _ _) eqn:Hb; [|discriminate]. injection H as <-. right. eauto.
  - destruct (candidates s) as [|nn rest] eqn:Hc; [injection H as <-; by left|].
    destruct (flt _ _) eqn:Hb; [injection H as <-; right; eauto|].
    apply bind_Some in H as (s1 & _ & H). eauto.
Qed.

Lemma greedy_search_total start k nearest_nodes :
  0 < L -> ids_in_range (node_map V) ->
  is_Some (greedy_search metric dims start query k L nearest_nodes filter V).
Proof.
  intros HL [He Hk]. unfold greedy_search.
  destruct (node_map V !! start) as [node|] eqn:Hs; [|eauto].
  rewrite visited_mark_Some by (apply Hk; eauto). simpl.
  match goal with |- context [search_loop _ _ _ _ _ _ ?f ?s0] =>
    destruct (search_loop_total f s0 HL He) as [s ->]; [|simpl; eauto] end.
  unfold search_measure. simpl.
  assert (size (dom (node_map V) ∖ ({[start]} ∪ ∅)) < size (dom (node_map V))).
  { apply subset_size. apply elem_of_dom_2 in Hs. set_solver. }
  rewrite size_dom in H. lia.
Qed.

(** On an index with markable ids [None] only stands for the read of an
    empty [results]: the bound on the turns is never hit. *)
Lemma greedy_search_None start k nearest_nodes :
  ids_in_range (node_map V) ->
  greedy_search metric dims start query k L nearest_nodes filter V = None -> L = 0.
Proof.
  intros Hr H. destruct L as [|L'] eqn:E; [done|]. exfalso.
  assert (HL : 0 < L) by lia. rewrite <- E in H.
  destruct (greedy_search_total start k nearest_nodes HL Hr) as [out Hout]. congruence.
Qed.

Lemma greedy_search_invariant (I : search_state -> Prop) start k out :
  (forall s nn rest s1, I s -> candidates s = nn :: rest ->
     flt (max_distance s) (distance nn) = false ->
     search_body metric dims V query L filter nn rest s = Some s1 -> I s1) ->
  (forall node, node_map V !! start = Some node ->
     I {| candidates := [mk_candidate start (compute metric (vector node) query dims)];
          results := []; visited := (mark start ∅).2; max_distance := FLT_MAX |}) ->
  greedy_search metric dims start query k L [] filter V = Some out ->
  is_Some (node_map V !! start) ->
  exists s, I s /\ out = take (min k (length (reverse (results s)))) (reverse (results s)).
Proof.
  intros Hstep Hinit H [node Hn]. unfold greedy_search in H. rewrite Hn in H.
  apply bind_Some in H as ([b vis0] & Hm & H).
  apply visited_mark_inv in Hm as [Hm _].
  apply bind_Some in H as (s & Hloop & H). simpl in H. injection H as <-.
  exists s. split; [|done].
  eapply search_loop_invariant; [exact Hstep| |exact Hloop].
  replace vis0 with (mark start ∅).2 by (by rewrite <- Hm). by apply Hinit.
Qed.

Lemma greedy_search_sound start k out :
  greedy_search metric dims start query k L [] filter V = Some out ->
  length out <= k /\ ascending out /\ Forall (result_ok metric dims V query filter) out.
Proof.
  intros H. destruct (node_map V !! start) as [node|] eqn:Hn.
  - apply (greedy_search_invariant (search_inv metric dims V query filter)) in H as (s & (Hd & Hr & _) & ->); [| |  |eauto].
    + split; [rewrite length_take; lia|].
      split; [by apply ascending_take, descending_reverse|].
      apply Forall_take. by rewrite reverse_Permutation.
    + intros s nn rest s1 Hs Hc _ Hb. by eapply search_body_inv.
    + intros node' Hn'. split; [constructor|]. split; [constructor|].
      repeat constructor. by exists node'.
  - unfold greedy_search in H. rewrite Hn in H. injection H as <-.
    split; [simpl; lia|]. split; constructor.
Qed.
End greedy_search_facts.

(** ** robust_prune *)

Lemma marks_grow_refl cands : marks_grow cands cands.
Proof. split; [done|]. intros k c Hc. exists c. auto. Qed.

Lemma marks_grow_trans c1 c2 c3 : marks_grow c1 c2 -> marks_grow c2 c3 -> marks_grow c1 c3.
Proof.
  intros [Hl1 H1] [Hl2 H2]. split; [congruence|].
  intros k c Hc. destruct (H1 k c Hc) as (c' & Hc' & Hid & Hd).
  destruct (H2 k c' Hc') as (c'' & Hc'' & Hid' & Hd').
  exists c''. split; [done|]. split; [congruence|].
  destruct Hd' as [Hd'|Hd']; [|by right]. rewrite Hd'. done.
Qed.

Lemma marks_grow_mark cands j cj :
  cands !! j = Some cj ->
  marks_grow cands (<[j := mk_candidate (cand_id cj) FLT_LOWEST]> cands).
Proof.
  intros Hj. split; [apply length_insert|].
  intros k c Hc. destruct (decide (k = j)) as [->|Hne].
  - rewrite list_lookup_insert_eq by (by eapply lookup_lt_Some).
    eexists. split; [done|]. simpl. split; [congruence|by right].
  - rewrite list_lookup_insert_ne by done. exists c. auto.
Qed.

Lemma marks_grow_done p cands cands' k c' :
  marks_grow cands cands' ->
  (forall c, cands !! k = Some c -> done_at p c) ->
  cands' !! k = Some c' -> done_at p c'.
Proof.
  intros [Hl H] Hdone Hc'.
  destruct (cands !! k) as [c|] eqn:Hc.
  - destruct (H k c Hc) as (c'' & Hc'' & Hid & Hd).
    assert (c'' = c') as -> by congruence.
    destruct (Hdone c eq_refl) as [Hm|Hp]; [|right; congruence].
    left. destruct Hd as [-> | ->]; done.
  - apply lookup_ge_None in Hc. apply lookup_lt_Some in Hc'. lia.
Qed.

Section robust_prune_facts.
Context (R : nat) (metric : distance_metric_t) (dims : nat).
Context (nm : gmap N vamana_node_t) (p : N).

Lemma prune_inner_marks alpha vec n j cands :
  marks_grow cands (prune_inner metric dims nm p alpha vec n j cands).
Proof.
  revert j cands. induction n as [|n IH]; intros j cands; simpl; [apply marks_grow_refl|].
  eapply marks_grow_trans; [|apply IH].
  destruct (cands !! j) as [cj|] eqn:Hj; [|apply marks_grow_refl].
  destruct (feq _ _); [apply marks_grow_refl|].
  destruct (cand_id cj =? p)%N; [apply marks_grow_refl|].
  destruct (nm !! cand_id cj); [|apply marks_grow_refl].
  destruct (fle _ _); [|apply marks_grow_refl].
  by apply marks_grow_mark.
Qed.

(** A pass that runs to the end of the vector leaves no candidate in play. *)
Lemma prune_pass_exhausts alpha n i cands pn cands' pn' :
  i + n = length cands ->
  (forall k c, k < i -> cands !! k = Some c -> done_at p c) ->
  prune_pass R metric dims nm p alpha n i cands pn = (false, cands', pn') ->
  forall k c, cands' !! k = Some c -> done_at p c.
Proof.
  revert i cands pn. induction n as [|n IH]; intros i cands pn Hlen Hdone H; simpl in H.
  - injection H as <- <-. intros k c Hc. eapply Hdone; [|done].
    apply lookup_lt_Some in Hc. lia.
  - destruct (R <=? length pn); [discriminate|].
    destruct (cands !! i) as [ci|] eqn:Hi.
    2:{ apply lookup_ge_None in Hi. lia. }
    assert (Hstep : forall cs, marks_grow cands cs ->
              (forall c, cs !! i = Some c -> done_at p c) ->
              forall k c, k < S i -> cs !! k = Some c -> done_at p c).
    { intros cs Hg Hi' k c Hk Hc. destruct (decide (k = i)) as [->|Hne]; [by apply Hi'|].
      eapply marks_grow_done; [exact Hg| |exact Hc].
      intros c0 Hc0. eapply Hdone; [|exact Hc0]. lia. }
    destruct (feq (distance ci) FLT_LOWEST) eqn:Hm.
    { eapply IH; [|apply Hstep|exact H]; [lia|apply marks_grow_refl|].
      intros c Hc. left. congruence. }
    destruct (cand_id ci =? p)%N eqn:Hp.
    { apply N.eqb_eq in Hp.
      eapply IH; [|apply Hstep|exact H]; [lia|apply marks_grow_refl|].
      intros c Hc. right. congruence. }
    pose proof (marks_grow_mark cands i ci Hi) as Hg.
    assert (Hnew : forall c,
              <[i := mk_candidate (cand_id ci) FLT_LOWEST]> cands !! i = Some c ->
              done_at p c).
    { intros c. rewrite list_lookup_insert_eq by (by eapply lookup_lt_Some).
      intros [= <-]. by left. }
    destruct (nm !! cand_id ci) as [nb|].
    + match type of H with prune_pass _ _ _ _ _ _ _ _ ?cs _ = _ =>
        assert (Hg' : marks_grow (<[i := mk_candidate (cand_id ci) FLT_LOWEST]> cands) cs)
          by apply prune_inner_marks end.
      eapply IH; [|apply Hstep|exact H].
      * destruct Hg' as [-> _]. rewrite length_insert. lia.
      * by eapply marks_grow_trans.
      * intros c Hc. eapply marks_grow_done; [exact Hg'|exact Hnew|exact Hc].
    + eapply IH; [|apply Hstep|exact H]; [rewrite length_insert; lia|done|done].
Qed.

(** A pass over a vector with no candidate in play adds nothing. *)
Lemma prune_pass_idle alpha n i cands pn :
  (forall k c, cands !! k = Some c -> done_at p c) ->
  (prune_pass R metric dims nm p alpha n i cands pn).2 = pn.
Proof.
  intros Hdone. revert i. induction n as [|n IH]; intros i; simpl; [done|].
  destruct (R <=? length pn); [done|].
  destruct (cands !! i) as [ci|] eqn:Hi; [|done].
  destruct (Hdone i ci Hi) as [Hm|Hp].
  - rewrite Hm. apply IH.
  - destruct (feq _ _); [apply IH|].
    apply N.eqb_eq in Hp. rewrite Hp. apply IH.
Qed.

(** The second pass ([loop_i = 1]) never changes the outcome of the first. *)
Lemma prune_select_first_pass candidates max_alpha :
  prune_select R metric dims nm p candidates max_alpha =
  (prune_pass R metric dims nm p 1%Q (length candidates) 0 candidates []).2.
Proof.
  unfold prune_select.
  destruct (prune_pass _ _ _ _ _ _ _ _ _ _) as [[returned cands1] pn1] eqn:E.
  destruct returned; [done|]. simpl.
  apply prune_pass_idle. eapply prune_pass_exhausts; [|
 |exact E]; [done|]. intros k c Hk. lia.
Qed.

Lemma prune_pass_length alpha n i cands pn :
  length pn <= R -> length (prune_pass R metric dims nm p alpha n i cands pn).2 <= R.
Proof.
  revert i cands pn. induction n as [|n IH]; intros i cands pn Hpn; simpl; [done|].
  destruct (R <=? length pn) eqn:HR; [done|]. apply Nat.leb_gt in HR.
  destruct (cands !! i) as [ci|]; [|done].
  destruct (feq _ _); [by apply IH|].
  destruct (cand_id ci =? p)%N; [by apply IH|].
  destruct (nm !! cand_id ci); apply IH; rewrite length_app; simpl; lia.
Qed.

Lemma prune_pass_no_self alpha n i cands pn :
  p ∉ pn -> p ∉ (prune_pass R metric dims nm p alpha n i cands pn).2.
Proof.
  revert i cands pn. induction n as [|n IH]; intros i cands pn Hpn; simpl; [done|].
  destruct (R <=? length pn); [done|].
  destruct (cands !! i) as [ci|]; [|done].
  destruct (feq _ _); [by apply IH|].
  destruct (cand_id ci =? p)%N eqn:Hp; [by apply IH|]. apply N.eqb_neq in Hp.
  destruct (nm !! cand_id ci); apply IH; set_solver.
Qed.

Lemma prune_select_length candidates max_alpha :
  length (prune_select R metric dims nm p candidates max_alpha) <= R.
Proof. rewrite prune_select_first_pass. apply prune_pass_length. simpl. lia. Qed.

Lemma prune_select_no_self candidates max_alpha :
  p ∉ prune_select R metric dims nm p candidates max_alpha.
Proof. rewrite prune_select_first_pass. apply prune_pass_no_self. set_solver. Qed.

Lemma robust_prune_lookup candidates max_alpha u :
  robust_prune R metric dims p candidates max_alpha nm !! u =
  if decide (u = p)
  then set_neighbors (prune_select R metric dims nm p candidates max_alpha) <$> nm !! p
  else nm !! u.
Proof.
  unfold robust_prune. destruct (nm !! p) as [node|] eqn:Hp.
  - destruct (decide (u = p)) as [->|Hne]; simpl.
    + by rewrite lookup_insert_eq.
    + by rewrite lookup_insert_ne.
  - destruct (decide (u = p)) as [->|Hne]; simpl; [by rewrite Hp|done].
Qed.

Lemma robust_prune_vectors candidates max_alpha :
  same_vectors nm (robust_prune R metric dims p candidates max_alpha nm).
Proof.
  unfold same_vectors. apply map_eq. intros u.
  rewrite !lookup_fmap, robust_prune_lookup.
  destruct (decide (u = p)) as [->|]; [|done]. by destruct (nm !! p).
Qed.

Lemma robust_prune_degree_except candidates max_alpha :
  (forall u node, u ≠ p -> nm !! u = Some node -> length (neighbors node) <= R) ->
  degree_ok R (robust_prune R metric dims p candidates max_alpha nm).
Proof.
  intros Hd u node. rewrite robust_prune_lookup.
  destruct (decide (u = p)) as [->|]; [|by apply Hd].
  destruct (nm !! p); simpl; [|done]. intros [= <-]. simpl. apply prune_select_length.
Qed.

Lemma robust_prune_degree candidates max_alpha :
  degree_ok R nm -> degree_ok R (robust_prune R metric dims p candidates max_alpha nm).
Proof. intros Hd. apply robust_prune_degree_except. intros u node _. apply Hd. Qed.

Lemma robust_prune_no_self_loop candidates max_alpha :
  no_self_loop nm -> no_self_loop (robust_prune R metric dims p candidates max_alpha nm).
Proof.
  intros Hn u node. rewrite robust_prune_lookup.
  destruct (decide (u = p)) as [->|]; [|apply Hn].
  destruct (nm !! p); simpl; [|done]. intros [= <-]. simpl. apply prune_select_no_self.
Qed.
End robust_prune_facts.

Lemma marks_grow_ids cands cands' :
  marks_grow cands cands' -> cand_id <$> cands' = cand_id <$> cands.
Proof.
  intros [Hlen H]. apply list_eq. intros k. rewrite !list_lookup_fmap.
  destruct (cands !! k) as [c|] eqn:Hc.
  - destruct (H k c Hc) as (c' & -> & Hid & _). simpl. by rewrite Hid.
  - apply lookup_ge_None in Hc. rewrite lookup_ge_None_2 by lia. done.
Qed.

(** A pass appends ids of candidates it has not passed yet, in their order. *)
Lemma prune_pass_appends R metric dims nm p alpha n i cands pn :
  exists extra,
    (prune_pass R metric dims nm p alpha n i cands pn).2 = pn ++ extra /\
    sublist extra (cand_id <$> drop i cands).
Proof.
  revert i cands pn. induction n as [|n IH]; intros i cands pn; simpl.
  { exists []. rewrite app_nil_r. split; [done|apply sublist_nil_l]. }
  destruct (R <=? length pn).
  { exists []. rewrite app_nil_r. split; [done|apply sublist_nil_l]. }
  destruct (cands !! i) as [ci|] eqn:Hi.
  2:{ exists []. rewrite app_nil_r. split; [done|apply sublist_nil_l]. }
  rewrite (drop_S _ _ _ Hi). rewrite fmap_cons.
  assert (Hskip : exists extra,
            (prune_pass R metric dims nm p alpha n (S i) cands pn).2 = pn ++ extra /\
            sublist extra (cand_id ci :: (cand_id <$> drop (S i) cands))).
  { destruct (IH (S i) cands pn) as (extra & He & Hs).
    exists extra. split; [done|]. by apply sublist_cons. }
  destruct (feq _ _); [done|]. destruct (cand_id ci =? p)%N; [done|].
  assert (Htake : forall cs, marks_grow cands cs ->
            exists extra,
              (prune_pass R metric dims nm p alpha n (S i) cs (pn ++ [cand_id ci])).2
                = pn ++ extra /\
              sublist extra (cand_id ci :: (cand_id <$> drop (S i) cands))).
  { intros cs Hg. destruct (IH (S i) cs (pn ++ [cand_id ci])) as (extra & He & Hs).
    exists (cand_id ci :: extra). rewrite He, <- app_assoc. split; [done|].
    apply sublist_skip. by rewrite fmap_drop, (marks_grow_ids _ _ Hg), <- fmap_drop in Hs. }
  pose proof (marks_grow_mark cands i ci Hi) as Hg.
  destruct (nm !! cand_id ci); apply Htake; [|done].
  eapply marks_grow_trans; [exact Hg|apply prune_inner_marks].
Qed.

(** ** Helpers on the node map *)

Lemma foldl_option_inv {A B} (f : A -> B -> option A) (P : A -> Prop) l a :
  P a ->
  (forall a b, P a -> b ∈ l -> exists a', f a b = Some a' /\ P a') ->
  exists a', foldl (fun acc b => a ← acc; f a b) (Some a) l = Some a' /\ P a'.
Proof.
  revert a. induction l as [|b l IH]; intros a Ha Hf; simpl; [eauto|].
  destruct (Hf a b Ha) as (a' & -> & Ha'); [left|].
  apply IH; [done|]. intros a0 b0 Ha0 Hb0. apply Hf; [done|by right].
Qed.

Lemma same_vectors_refl nm : same_vectors nm nm.
Proof. done. Qed.

Lemma same_vectors_trans nm1 nm2 nm3 :
  same_vectors nm1 nm2 -> same_vectors nm2 nm3 -> same_vectors nm1 nm3.
Proof. unfold same_vectors. congruence. Qed.

Lemma same_vectors_lookup nm nm' k :
  same_vectors nm nm' -> vector <$> nm' !! k = vector <$> nm !! k.
Proof. intros H. rewrite <- !lookup_fmap. by rewrite H. Qed.

Lemma same_vectors_is_Some nm nm' k :
  same_vectors nm nm' -> is_Some (nm !! k) -> is_Some (nm' !! k).
Proof.
  intros H [node Hn]. apply (same_vectors_lookup _ _ k) in H. rewrite Hn in H.
  destruct (nm' !! k); [eauto|discriminate].
Qed.

Lemma same_vectors_insert nm k node node' :
  nm !! k = Some node -> vector node' = vector node ->
  same_vectors nm (<[k := node']> nm).
Proof.
  intros Hk Hv. unfold same_vectors. rewrite fmap_insert, Hv.
  apply insert_id. by rewrite lookup_fmap, Hk.
Qed.

Lemma same_vectors_delete nm nm' k :
  same_vectors nm nm' -> same_vectors (delete k nm) (delete k nm').
Proof. unfold same_vectors. rewrite !fmap_delete. by intros ->. Qed.

Lemma degree_ok_insert R nm k node :
  degree_ok R nm -> length (neighbors node) <= R -> degree_ok R (<[k := node]> nm).
Proof. intros. by apply map_Forall_insert_2. Qed.

Lemma degree_ok_delete R nm k : degree_ok R nm -> degree_ok R (delete k nm).
Proof. intros. by apply map_Forall_delete. Qed.

Lemma begin_key_is_Some (nm : gmap N vamana_node_t) : nm ≠ ∅ -> is_Some (begin_key nm).
Proof.
  intros Hne. unfold begin_key.
  destruct (map_to_list nm) as [|[k v] l] eqn:E; [|simpl; eauto].
  by apply map_to_list_empty_iff in E.
Qed.

Lemma begin_key_lookup (nm : gmap N vamana_node_t) b :
  begin_key nm = Some b -> is_Some (nm !! b).
Proof.
  unfold begin_key. destruct (map_to_list nm) as [|[k v] l] eqn:E; [done|].
  simpl. intros [= <-]. exists v. apply elem_of_map_to_list. rewrite E. left.
Qed.

Lemma same_vectors_dom nm nm' : same_vectors nm nm' -> dom nm' = dom nm.
Proof.
  intros H. unfold same_vectors in H.
  by rewrite <- (dom_fmap_L vector nm'), <- (dom_fmap_L vector nm), H.
Qed.

Lemma start_node_live_dom V V' :
  dom (node_map V') = dom (node_map V) -> start_node V' = start_node V ->
  start_node_live V -> start_node_live V'.
Proof.
  unfold start_node_live. intros Hdom Hst Hlive Hne.
  rewrite Hst. apply elem_of_dom. rewrite Hdom. apply elem_of_dom. apply Hlive.
  intros Hemp. apply Hne. apply dom_empty_iff_L. rewrite Hdom, Hemp. apply dom_empty_L.
Qed.

Lemma no_self_loop_insert nm k node :
  no_self_loop nm -> k ∉ neighbors node -> no_self_loop (<[k := node]> nm).
Proof. intros. by apply map_Forall_insert_2. Qed.

Lemma rewires_refl R nm : rewires R nm nm.
Proof. split; [apply same_vectors_refl|done]. Qed.

Lemma rewires_trans R nm1 nm2 nm3 :
  rewires R nm1 nm2 -> rewires R nm2 nm3 -> rewires R nm1 nm3.
Proof.
  intros [Hv1 Hd1] [Hv2 Hd2]. split; [by eapply same_vectors_trans|auto].
Qed.

Lemma relinks_refl R nm : relinks R nm nm.
Proof. split; [apply rewires_refl|done]. Qed.

Lemma relinks_trans R nm1 nm2 nm3 :
  relinks R nm1 nm2 -> relinks R nm2 nm3 -> relinks R nm1 nm3.
Proof.
  intros [Hr1 Hn1] [Hr2 Hn2]. split; [by eapply rewires_trans|auto].
Qed.

(** ** dedup_vector *)

Lemma dedup_from_spec seen v :
  NoDup (dedup_from seen v) /\
  (forall x, x ∈ dedup_from seen v <-> x ∈ v /\ x ∉ seen) /\
  sublist (dedup_from seen v) v.
Proof.
  revert seen. induction v as [|y v IH]; intros seen; simpl.
  - split; [constructor|]. split; [|constructor].
    intros x. split; [by intros ?%elem_of_nil|by intros [?%elem_of_nil _]].
  - destruct (IH seen) as (Hnd1 & Hel1 & Hsub1).
    destruct (IH ({[y]} ∪ seen)) as (Hnd2 & Hel2 & Hsub2).
    destruct (bool_decide (y ∈ seen)) eqn:Hy.
    + apply bool_decide_eq_true in Hy. split; [done|]. split; [|by constructor].
      intros x. rewrite Hel1, elem_of_cons. split; [intros [? ?]; auto|].
      intros [[->|Hx] Hs]; [done|]. auto.
    + apply bool_decide_eq_false in Hy. split; [|split].
      * constructor; [|done]. rewrite Hel2. set_solver.
      * intros x. rewrite !elem_of_cons, Hel2. split.
        -- intros [->|[Hx Hs]]; [auto|]. split; [auto|]. set_solver.
        -- intros [[->|Hx] Hs]; [auto|]. destruct (decide (x = y)) as [->|Hne]; [auto|].
           right. split; [done|]. set_solver.
      * by constructor.
Qed.

Lemma dedup_from_NoDup seen v :
  NoDup v -> (forall x, x ∈ v -> x ∉ seen) -> dedup_from seen v = v.
Proof.
  revert seen. induction v as [|y v IH]; intros seen Hnd Hs; simpl; [done|].
  apply NoDup_cons in Hnd as [Hy Hnd].
  rewrite bool_decide_eq_false_2 by (apply Hs; left). f_equal. apply IH; [done|].
  intros x Hx. apply not_elem_of_union. split.
  - intros ->%elem_of_singleton. done.
  - apply Hs. by right.
Qed.

Lemma dedup_from_app seen v w :
  dedup_from seen (v ++ w) = dedup_from seen v ++ dedup_from (list_to_set v ∪ seen) w.
Proof.
  revert seen. induction v as [|y v IH]; intros seen; simpl.
  - f_equal. set_solver.
  - destruct (bool_decide (y ∈ seen)) eqn:Hy.
    + apply bool_decide_eq_true in Hy. rewrite IH. do 2 f_equal. set_solver.
    + simpl. rewrite IH. do 3 f_equal. set_solver.
Qed.

Lemma dedup_from_filter (S T : gset N) w :
  dedup_from (S ∪ T) w = filter (fun x => x ∉ S) (dedup_from T w).
Proof.
  revert T. induction w as [|y w IH]; intros T; simpl; [done|].
  destruct (bool_decide (y ∈ T)) eqn:HT.
  - apply bool_decide_eq_true in HT.
    rewrite bool_decide_eq_true_2 by set_solver. apply IH.
  - apply bool_decide_eq_false in HT.
    destruct (decide (y ∈ S)) as [HS|HS].
    + rewrite bool_decide_eq_true_2 by set_solver.
      rewrite filter_cons_False by (by intros ?). rewrite <- IH. f_equal. set_solver.
    + rewrite bool_decide_eq_false_2 by set_solver.
      rewrite filter_cons_True by done. f_equal. rewrite <- IH. f_equal. set_solver.
Qed.

(** ** update_neighbors, patch_edges *)

Section rewiring_facts.
Context (R : nat) (metric : distance_metric_t) (dims : nat).

Lemma robust_prune_rewires p candidates max_alpha nm :
  rewires R nm (robust_prune R metric dims p candidates max_alpha nm).
Proof. split; [apply robust_prune_vectors|apply robust_prune_degree]. Qed.

Lemma robust_prune_relinks p candidates max_alpha nm :
  relinks R nm (robust_prune R metric dims p candidates max_alpha nm).
Proof. split; [apply robust_prune_rewires|apply robust_prune_no_self_loop]. Qed.

Lemma update_neighbor_relinks id vec alpha dl nm neighbor_id :
  neighbor_id ≠ id ->
  exists nm', update_neighbor R metric dims id vec alpha dl nm neighbor_id = Some nm' /\
              relinks R nm nm'.
Proof.
  intros Hne. unfold update_neighbor.
  destruct (bool_decide (neighbor_id ∈ dl)); [eauto using relinks_refl|].
  destruct (nm !! neighbor_id) as [neighbor_node|] eqn:Hn; [|eauto using relinks_refl].
  destruct (R <=? length (neighbors neighbor_node)) eqn:HR.
  - apply N.eqb_neq in Hne. rewrite Hne. eauto using robust_prune_relinks.
  - apply Nat.leb_gt in HR.
    destruct (bool_decide (id ∈ neighbors neighbor_node)); [eauto using relinks_refl|].
    eexists. split; [done|]. split; [split|].
    + by eapply same_vectors_insert.
    + intros Hd. apply degree_ok_insert; [done|]. simpl. rewrite length_app. simpl. lia.
    + intros Hs. apply no_self_loop_insert; [done|]. simpl.
      intros [Hin|Hin%list_elem_of_singleton]%elem_of_app; [by apply (Hs _ _ Hn)|done].
Qed.

Lemma update_neighbors_relinks id vec alpha dl nm node :
  nm !! id = Some node -> id ∉ neighbors node ->
  exists nm', update_neighbors R metric dims id vec alpha dl nm = Some nm' /\
              relinks R nm nm'.
Proof.
  intros Hid Hself. unfold update_neighbors. rewrite Hid. simpl.
  apply (foldl_option_inv _ (relinks R nm)); [apply relinks_refl|].
  intros nm1 neighbor_id H1 Hin.
  destruct (update_neighbor_relinks id vec alpha dl nm1 neighbor_id) as (nm2 & -> & H2).
  { intros ->. done. }
  eauto using relinks_trans.
Qed.

Lemma select_top_c_total id sr anchor nm :
  is_Some (nm !! anchor) -> is_Some (select_top_c metric dims id sr anchor nm).
Proof. intros [a Ha]. unfold select_top_c. rewrite Ha. simpl. eauto. Qed.

Lemma patch_edges_rewires owner add nm :
  is_Some (nm !! owner) ->
  exists nm', patch_edges R metric dims owner add nm = Some nm' /\ rewires R nm nm'.
Proof.
  intros [node Hn]. unfold patch_edges. rewrite Hn. simpl.
  set (nbrs := dedup_vector (neighbors node ++ add)).
  assert (Hv : same_vectors nm (<[owner := set_neighbors nbrs node]> nm))
    by (by eapply same_vectors_insert).
  destruct (R <? length nbrs) eqn:HR.
  - eexists. split; [done|]. split.
    + eapply same_vectors_trans; [exact Hv|apply robust_prune_vectors].
    + intros Hd. apply robust_prune_degree_except.
      intros u nd Hu. rewrite lookup_insert_ne by done. apply Hd.
  - apply Nat.ltb_ge in HR. eexists. split; [done|]. split; [done|].
    intros Hd. by apply degree_ok_insert.
Qed.

Lemma has_key_true i (nm : gmap N vamana_node_t) : has_key i nm = true -> is_Some (nm !! i).
Proof. unfold has_key. apply bool_decide_eq_true. Qed.

Lemma patch_in_neighbors_rewires id sr approx_in nm :
  exists nm', patch_in_neighbors R metric dims id sr approx_in nm = Some nm' /\
              rewires R nm nm'.
Proof.
  unfold patch_in_neighbors.
  apply (foldl_option_inv _ (rewires R nm)); [apply rewires_refl|].
  intros nm1 z H1 _.
  destruct (has_key z nm1) eqn:Hz; simpl; [|eauto].
  apply has_key_true in Hz.
  destruct (select_top_c_total id sr z nm1 Hz) as [scratch ->]. simpl.
  destruct (patch_edges_rewires z scratch nm1 Hz) as (nm2 & -> & H2).
  eauto using rewires_trans.
Qed.

Lemma patch_out_neighbors_rewires id sr out nm :
  exists nm', patch_out_neighbors R metric dims id sr out nm = Some nm' /\
              rewires R nm nm'.
Proof.
  unfold patch_out_neighbors.
  apply (foldl_option_inv _ (rewires R nm)); [apply rewires_refl|].
  intros nm1 w H1 _.
  destruct (has_key w nm1) eqn:Hw; simpl; [|eauto].
  apply has_key_true in Hw.
  destruct (select_top_c_total id sr w nm1 Hw) as [scratch ->]. simpl.
  apply (foldl_option_inv _ (rewires R nm)); [done|].
  intros nm2 y H2 _.
  destruct ((y =? w)%N || negb (has_key y nm2)) eqn:Hy; [eauto|].
  apply orb_false_iff in Hy as [_ Hy]. apply negb_false_iff, has_key_true in Hy.
  destruct (patch_edges_rewires y [w] nm2 Hy) as (nm3 & -> & H3).
  eauto using rewires_trans.
Qed.
End rewiring_facts.

(** ** Neighbor ids stay within a set of ids *)

Lemma foldl_option_pres {A B} (f : A -> B -> option A) (P : A -> Prop) l a a' :
  P a ->
  (forall a b a', P a -> b ∈ l -> f a b = Some a' -> P a') ->
  foldl (fun acc b => a ← acc; f a b) (Some a) l = Some a' -> P a'.
Proof.
  revert a. induction l as [|b l IH]; intros a Ha Hf H; simpl in H; [congruence|].
  destruct (f a b) as [a1|] eqn:E.
  - simpl in H. eapply (IH a1); [|intros; eapply Hf; eauto; by right|exact H].
    eapply Hf; [exact Ha|left|exact E].
  - simpl in H. exfalso. clear -H. induction l as [|b' l IH]; simpl in H; [done|auto].
Qed.

Lemma prune_select_sublist R metric dims nm p candidates max_alpha :
  sublist (prune_select R metric dims nm p candidates max_alpha) (cand_id <$> candidates).
Proof.
  rewrite prune_select_first_pass.
  destruct (prune_pass_appends R metric dims nm p 1 (length candidates) 0 candidates [])
    as (extra & -> & Hs). done.
Qed.

Section closed_facts.
Context (R : nat) (metric : distance_metric_t) (dims : nat) (K : N -> Prop).

Lemma closed_in_insert nm k node node' :
  closed_in K nm -> nm !! k = Some node ->
  (forall v, v ∈ neighbors node' -> K v) ->
  closed_in K (<[k := node']> nm).
Proof.
  intros [He Hk] Hn Hv. split.
  - intros u nd v. destruct (decide (u = k)) as [->|Hne].
    + rewrite lookup_insert_eq. intros [= <-]. apply Hv.
    + rewrite lookup_insert_ne by done. apply He.
  - intros j. destruct (decide (j = k)) as [->|Hne].
    + intros _. apply Hk. eauto.
    + rewrite lookup_insert_ne by done. apply Hk.
Qed.

Lemma closed_in_delete nm k : closed_in K nm -> closed_in K (delete k nm).
Proof.
  intros [He Hk]. split.
  - intros u nd v [_ Hu]%lookup_delete_Some Hv. by apply (He u nd v).
  - intros j [nd [_ Hj]%lookup_delete_Some]. apply Hk. eauto.
Qed.

Lemma try_emplace_closed id vec nm :
  closed_in K nm -> K id -> closed_in K (try_emplace id vec nm).
Proof.
  intros [He Hk] Hid. unfold try_emplace. destruct (nm !! id) eqn:E; [done|]. split.
  - intros u nd v. destruct (decide (u = id)) as [->|Hne].
    + rewrite lookup_insert_eq. intros [= <-]. simpl. by intros ?%elem_of_nil.
    + rewrite lookup_insert_ne by done. apply He.
  - intros j. destruct (decide (j = id)) as [->|Hne]; [done|].
    rewrite lookup_insert_ne by done. apply Hk.
Qed.

Lemma batch_delete_closed V :
  closed_in K (node_map V) -> closed_in K (node_map (batch_delete V)).
Proof.
  intros [He Hk]. unfold batch_delete.
  destruct (bool_decide (delete_list V = ∅)); [done|]. simpl. split.
  - intros u nd v. rewrite lookup_fmap.
    destruct (node_map V !! u) as [n|] eqn:Hu; [|done]. simpl. intros [= <-]. simpl.
    intros [_ Hv]%list_elem_of_filter. by apply (He u n).
  - intros j. rewrite lookup_fmap. intros [nd Hj]. apply Hk.
    destruct (node_map V !! j); [eauto|done].
Qed.

Lemma robust_prune_closed p candidates max_alpha nm :
  closed_in K nm -> Forall (fun c => K (cand_id c)) candidates ->
  closed_in K (robust_prune R metric dims p candidates max_alpha nm).
Proof.
  intros Hc Hcand. unfold robust_prune. destruct (nm !! p) as [node|] eqn:Hp; [|done].
  eapply closed_in_insert; [done|done|]. simpl. intros v Hv.
  eapply elem_of_sublist in Hv; [|apply prune_select_sublist].
  apply list_elem_of_fmap in Hv as (c & -> & Hc'). rewrite Forall_forall in Hcand. auto.
Qed.

Lemma back_edge_candidates_ids id vec neighbor_node dl nm :
  Forall (fun c => cand_id c = id \/ is_Some (nm !! cand_id c))
         (back_edge_candidates metric dims id vec neighbor_node dl nm).
Proof.
  unfold back_edge_candidates. rewrite std_sort_max_cmp_perm.
  apply Forall_app. split; [|repeat constructor; by left].
  apply Forall_forall. intros c (v & _ & Hv)%list_elem_of_omap.
  destruct (bool_decide (v ∈ dl)); [discriminate|].
  destruct (nm !! v) as [n|] eqn:Hn; [|discriminate]. simpl in Hv. injection Hv as <-.
  right. simpl. eauto.
Qed.

Lemma update_neighbor_closed id vec alpha dl nm v nm' :
  update_neighbor R metric dims id vec alpha dl nm v = Some nm' ->
  closed_in K nm -> K id -> closed_in K nm'.
Proof.
  unfold update_neighbor. intros H Hc Hid.
  destruct (bool_decide (v ∈ dl)); [by injection H as <-|].
  destruct (nm !! v) as [nv|] eqn:Hv; [|by injection H as <-].
  destruct (R <=? length (neighbors nv)).
  - destruct (v =? id)%N; [discriminate|]. injection H as <-.
    apply robust_prune_closed; [done|].
    eapply Forall_impl; [apply back_edge_candidates_ids|]. simpl.
    intros c [->|Hp]; [done|]. by apply Hc.
  - destruct (bool_decide (id ∈ neighbors nv)); injection H as <-; [done|].
    eapply closed_in_insert; [done|done|]. simpl.
    intros w [Hw|Hw%list_elem_of_singleton]%elem_of_app; [|by subst].
    destruct Hc as [He _]. by eapply He.
Qed.

Lemma update_neighbors_closed id vec alpha dl nm nm' :
  update_neighbors R metric dims id vec alpha dl nm = Some nm' ->
  closed_in K nm -> K id -> closed_in K nm'.
Proof.
  unfold update_neighbors. intros H Hc Hid.
  apply bind_Some in H as (node & _ & H).
  eapply (foldl_option_pres _ (closed_in K)); [exact Hc| |exact H].
  intros nm1 v nm2 H1 _ Hu. by eapply update_neighbor_closed.
Qed.

Lemma greedy_search_present start query k L filter V out :
  greedy_search metric dims start query k L [] filter V = Some out ->
  Forall (fun c => is_Some (node_map V !! cand_id c)) out.
Proof.
  intros H. apply greedy_search_sound in H as (_ & _ & Hall).
  eapply Forall_impl; [exact Hall|]. simpl. intros c (_ & (node & Hn & _) & _). eauto.
Qed.

Lemma relink_closed id vec L alpha V V' :
  (search_result ← greedy_search metric dims (start_node V) vec L L [] None V;
   let V3 := set_node_map (robust_prune R metric dims id search_result alpha (node_map V)) V in
   nm ← update_neighbors R metric dims id vec alpha (delete_list V3) (node_map V3);
   Some (set_node_map nm V3)) = Some V' ->
  (closed_in K (node_map V) -> K id -> closed_in K (node_map V')) /\
  medoid_tracker V' = medoid_tracker V.
Proof.
  intros H. apply bind_Some in H as (sr & Hsr & H). cbv zeta in H.
  apply bind_Some in H as (nm & Hnm & H). injection H as <-. simpl in *.
  split; [|done]. intros Hc Hid.
  eapply update_neighbors_closed; [exact Hnm| |done].
  apply robust_prune_closed; [done|].
  eapply Forall_impl; [by eapply greedy_search_present|]. simpl. intros c. apply Hc.
Qed.

Lemma select_top_c_present id sr anchor nm out :
  select_top_c metric dims id sr anchor nm = Some out ->
  Forall (fun y => is_Some (nm !! y)) out.
Proof.
  unfold select_top_c. intros H. apply bind_Some in H as (a & _ & H).
  injection H as <-. apply Forall_forall. intros y Hy.
  apply list_elem_of_fmap in Hy as ([d y'] & -> & Hy). simpl.
  eapply elem_of_sublist in Hy; [|apply sublist_take].
  rewrite (std_sort_perm fst) in Hy.
  apply list_elem_of_omap in Hy as (c & _ & Hc).
  destruct (cand_id c =? id)%N; [discriminate|].
  destruct (nm !! cand_id c) as [n|] eqn:Hn; [|discriminate].
  simpl in Hc. injection Hc as _ <-. eauto.
Qed.

Lemma patch_edges_closed owner add nm nm' :
  patch_edges R metric dims owner add nm = Some nm' ->
  closed_in K nm -> Forall K add -> closed_in K nm'.
Proof.
  unfold patch_edges. intros H Hc Hadd.
  apply bind_Some in H as (node & Hn & H). cbv zeta in H.
  assert (Hnb : forall v, v ∈ dedup_vector (neighbors node ++ add) -> K v).
  { intros v Hv. unfold dedup_vector in Hv.
    apply (dedup_from_spec ∅) in Hv as [Hv _].
    apply elem_of_app in Hv as [Hv|Hv].
    - destruct Hc as [He _]. by eapply He.
    - rewrite Forall_forall in Hadd. auto. }
  assert (Hc1 : closed_in K (<[owner := set_neighbors
                   (dedup_vector (neighbors node ++ add)) node]> nm)).
  { by eapply closed_in_insert. }
  destruct (R <? length _); injection H as <-; [|done].
  apply robust_prune_closed; [done|].
  rewrite std_sort_max_cmp_perm. apply Forall_forall.
  intros c (v & Hv & Hcv)%list_elem_of_omap.
  apply bind_Some in Hcv as (n & _ & Hcv). injection Hcv as <-. simpl. auto.
Qed.

Lemma patch_in_neighbors_closed id sr approx_in nm nm' :
  patch_in_neighbors R metric dims id sr approx_in nm = Some nm' ->
  closed_in K nm -> closed_in K nm'.
Proof.
  unfold patch_in_neighbors. intros H Hc.
  eapply (foldl_option_pres _ (closed_in K)); [exact Hc| |exact H].
  intros nm1 z nm2 H1 _ Hz. simpl in Hz.
  destruct (has_key z nm1); simpl in Hz; [|by injection Hz as <-].
  apply bind_Some in Hz as (scratch & Hs & Hz).
  eapply patch_edges_closed; [exact Hz|done|].
  eapply Forall_impl; [by eapply select_top_c_present|]. apply H1.
Qed.

Lemma patch_out_neighbors_closed id sr out nm nm' :
  patch_out_neighbors R metric dims id sr out nm = Some nm' ->
  closed_in K nm -> closed_in K nm'.
Proof.
  unfold patch_out_neighbors. intros H Hc.
  eapply (foldl_option_pres _ (closed_in K)); [exact Hc| |exact H].
  intros nm1 w nm2 H1 _ Hw. simpl in Hw.
  destruct (has_key w nm1) eqn:Hkw; simpl in Hw; [|by injection Hw as <-].
  apply has_key_true in Hkw.
  apply bind_Some in Hw as (scratch & _ & Hw).
  eapply (foldl_option_pres _ (closed_in K)); [exact H1| |exact Hw].
  intros nm3 y nm4 H3 _ Hy. simpl in Hy.
  destruct ((y =? w)%N || negb (has_key y nm3)); [by injection Hy as <-|].
  eapply patch_edges_closed; [exact Hy|done|].
  repeat constructor. by apply H1.
Qed.
End closed_facts.

(** ** insert, update, remove, batch_delete *)

Section operation_facts.
Context (R : nat) (metric : distance_metric_t) (dims : nat).

Lemma greedy_search_hit start query k L filter V r rest :
  greedy_search metric dims start query k L [] filter V = Some (r :: rest) ->
  is_Some (node_map V !! cand_id r).
Proof.
  intros H. apply greedy_search_sound in H as (_ & _ & Hall).
  apply Forall_cons in Hall as [(_ & (node & Hnode & _) & _) _]. eauto.
Qed.

Lemma try_medoid_compute_spec point V :
  ids_in_range (node_map V) ->
  exists V', try_medoid_compute metric dims point false V = Some V' /\
             node_map V' = node_map V /\ delete_list V' = delete_list V /\
             (start_node V' = start_node V \/ is_Some (node_map V !! start_node V')).
Proof.
  intros Hrange. unfold try_medoid_compute. simpl.
  match goal with |- context [should_recompute ?m] =>
    destruct (should_recompute m); [|eauto 10]; destruct (centroid m) as [c tracker] end.
  match goal with |- context [greedy_search _ _ ?s ?q ?k ?L ?o ?f ?W] =>
    destruct (greedy_search_total metric dims W q L f s k o) as [res Hres];
      [lia|done|] end.
  rewrite Hres. simpl. destruct res as [|r res]; [eauto 10|].
  eexists. split; [done|]. simpl. split; [done|]. split; [done|]. right.
  by apply greedy_search_hit in Hres.
Qed.

Lemma try_emplace_lookup id vec (nm : gmap N vamana_node_t) :
  exists node, try_emplace id vec nm !! id = Some node /\
               (nm !! id = None -> node = mk_node [] vec) /\
               (forall old, nm !! id = Some old -> node = old).
Proof.
  unfold try_emplace. destruct (nm !! id) as [old|] eqn:E.
  - exists old. split; [done|]. split; [done|]. by intros ? [= ->].
  - eexists. rewrite lookup_insert_eq. split; [done|]. split; [done|]. done.
Qed.

Lemma try_emplace_keeps id vec (nm : gmap N vamana_node_t) k :
  is_Some (nm !! k) -> is_Some (try_emplace id vec nm !! k).
Proof.
  unfold try_emplace. destruct (nm !! id) eqn:E; [done|].
  intros Hk. destruct (decide (k = id)) as [->|Hne].
  - rewrite lookup_insert_eq. eauto.
  - by rewrite lookup_insert_ne.
Qed.

Lemma try_emplace_degree id vec nm : degree_ok R nm -> degree_ok R (try_emplace id vec nm).
Proof.
  intros Hd. unfold try_emplace. destruct (nm !! id); [done|].
  apply degree_ok_insert; [done|]. simpl. lia.
Qed.

Lemma try_emplace_no_self_loop id vec nm :
  no_self_loop nm -> no_self_loop (try_emplace id vec nm).
Proof.
  intros Hd. unfold try_emplace. destruct (nm !! id); [done|].
  apply no_self_loop_insert; [done|]. simpl. apply not_elem_of_nil.
Qed.

(** Steps 3-5 of insert and update: search, prune, patch back-edges. *)
Lemma relink_total id vec L alpha V :
  0 < L -> ids_in_range (node_map V) -> is_Some (node_map V !! id) ->
  exists V',
    (search_result ← greedy_search metric dims (start_node V) vec L L [] None V;
     let V3 := set_node_map (robust_prune R metric dims id search_result alpha (node_map V)) V in
     nm ← update_neighbors R metric dims id vec alpha (delete_list V3) (node_map V3);
     Some (set_node_map nm V3)) = Some V' /\
    relinks R (node_map V) (node_map V') /\
    delete_list V' = delete_list V /\ start_node V' = start_node V /\
    ids_in_range (node_map V').
Proof.
  intros HL Hrange [node Hid].
  assert (Hchain : exists V',
    (search_result ← greedy_search metric dims (start_node V) vec L L [] None V;
     let V3 := set_node_map (robust_prune R metric dims id search_result alpha (node_map V)) V in
     nm ← update_neighbors R metric dims id vec alpha (delete_list V3) (node_map V3);
     Some (set_node_map nm V3)) = Some V' /\
    relinks R (node_map V) (node_map V') /\
    delete_list V' = delete_list V /\ start_node V' = start_node V).
  { destruct (greedy_search_total metric dims V vec L None (start_node V) L [] HL Hrange)
      as [sr ->].
    simpl.
    pose proof (robust_prune_lookup R metric dims (node_map V) id sr alpha id) as Hl.
    rewrite decide_True, Hid in Hl by done. simpl in Hl.
    destruct (update_neighbors_relinks R metric dims id vec alpha (delete_list V) _ _ Hl)
      as (nm & -> & Hnm).
    { simpl. apply prune_select_no_self. }
    simpl. eexists. split; [done|]. split; [|done]. simpl.
    eapply relinks_trans; [apply robust_prune_relinks|exact Hnm]. }
  destruct Hchain as (V' & HV' & Hr & Hdl & Hst).
  exists V'. split; [done|]. split; [done|]. split; [done|]. split; [done|].
  destruct (relink_closed R metric dims markable id vec L alpha V V' HV') as [Hc _].
  apply Hc; [done|]. destruct Hrange as [_ Hk]. apply Hk. eauto.
Qed.

Lemma insert_spec id vec L alpha V :
  0 < L -> markable id -> ids_in_range (node_map V) ->
  exists V', insert R metric dims id vec L alpha V = Some V' /\
             relinks R (try_emplace id vec (node_map V)) (node_map V') /\
             delete_list V' = delete_list V /\
             (start_node V' = start_node V \/
              is_Some (try_emplace id vec (node_map V) !! start_node V')) /\
             ids_in_range (node_map V').
Proof.
  intros HL Hid Hrange. unfold insert.
  assert (Hrange1 : ids_in_range (try_emplace id vec (node_map V)))
    by (by apply try_emplace_closed).
  destruct (try_medoid_compute_spec vec (set_node_map (try_emplace id vec (node_map V)) V))
    as (V2 & -> & Hnm & Hdl & Hst); [done|]. simpl in *.
  destruct (try_emplace_lookup id vec (node_map V)) as (node & Hn & _).
  destruct (relink_total id vec L alpha V2 HL) as (V' & HV' & Hr & Hdl' & Hst' & Hrange').
  { by rewrite Hnm. }
  { rewrite Hnm. eauto. }
  exists V'. split; [exact HV'|]. rewrite <- Hnm, <- Hdl. split; [done|].
  split; [congruence|]. split; [|done]. rewrite Hst', Hnm. done.
Qed.

Lemma update_spec id new_vec L alpha V :
  0 < L -> ids_in_range (node_map V) ->
  exists V', update R metric dims id new_vec L alpha V = Some V' /\
             (degree_ok R (node_map V) -> degree_ok R (node_map V')) /\
             (no_self_loop (node_map V) -> no_self_loop (node_map V')) /\
             dom (node_map V') = dom (node_map V) /\
             start_node V' = start_node V /\
             ids_in_range (node_map V').
Proof.
  intros HL Hrange. unfold update.
  destruct (node_map V !! id) as [it|] eqn:Hid; [|eauto 10].
  destruct (bool_decide (id ∈ delete_list V)); [eauto 10|].
  set (V1 := set_node_map (<[id := mk_node (neighbors it) new_vec]> (node_map V)) V).
  destruct (relink_total id new_vec L alpha V1 HL)
    as (V' & HV' & [[Hv Hd] Hn] & _ & Hst & Hrange').
  { simpl. apply closed_in_insert with it; [done|done|].
    simpl. intros v Hv. destruct Hrange as [He _]. by apply (He id it). }
  { simpl. rewrite lookup_insert_eq. eauto. }
  exists V'. split; [exact HV'|]. simpl in *.
  split; [|split; [|split; [|split; [done|done]]]].
  - intros Hok. apply Hd. apply degree_ok_insert; [done|]. simpl. by apply (Hok id it).
  - intros Hok. apply Hn. apply no_self_loop_insert; [done|]. simpl. by apply (Hok id it).
  - rewrite (same_vectors_dom _ _ Hv), dom_insert_L.
    apply elem_of_dom_2 in Hid. set_solver.
Qed.

Lemma remove_spec id V :
  ids_in_range (node_map V) ->
  exists V', remove R metric dims id V = Some V' /\
             same_vectors (delete id (node_map V)) (node_map V') /\
             (degree_ok R (node_map V) -> degree_ok R (node_map V')) /\
             (start_node_live V -> start_node_live V') /\
             ids_in_range (node_map V').
Proof.
  intros Hrange. unfold remove. destruct (node_map V !! id) as [it|] eqn:Hid.
  2:{ exists V. split; [done|]. split; [|done]. by rewrite delete_id. }
  assert (Hne : node_map V ≠ ∅).
  { intros Hemp. rewrite Hemp, lookup_empty in Hid. discriminate. }
  match goal with |- context [greedy_search _ _ ?s ?q ?k ?L ?o ?f ?W] =>
    destruct (greedy_search_total metric dims W q L f s k o) as [sr ->];
      [unfold L_del; lia|done|] end.
  simpl.
  destruct (bool_decide (approx_in_neighbors id sr (node_map V) = []) &&
            bool_decide (neighbors it = [])).
  { eexists. split; [done|]. simpl. split; [done|]. split; [apply degree_ok_delete|].
    split; [|by apply closed_in_delete].
    unfold start_node_live. simpl. intros Hlive Hne'.
    destruct (start_node V =? id)%N eqn:E.
    - destruct (begin_key_is_Some _ Hne') as [b Hb]. rewrite Hb.
      by apply begin_key_lookup.
    - apply N.eqb_neq in E. rewrite lookup_delete_ne by done. by apply Hlive. }
  destruct (patch_in_neighbors_rewires R metric dims id sr
              (approx_in_neighbors id sr (node_map V)) (node_map V)) as (nm1 & E1 & H1).
  pose proof (patch_in_neighbors_closed R metric dims markable _ _ _ _ _ E1 Hrange)
    as Hrange1.
  rewrite E1. simpl.
  destruct (same_vectors_is_Some _ nm1 id (proj1 H1)) as [it1 Hit1]; [eauto|].
  rewrite Hit1. simpl.
  destruct (patch_out_neighbors_rewires R metric dims id sr (neighbors it1) nm1)
    as (nm2 & E2 & H2).
  pose proof (patch_out_neighbors_closed R metric dims markable _ _ _ _ _ E2 Hrange1)
    as Hrange2.
  assert (Hrange3 : ids_in_range (delete id nm2)) by (by apply closed_in_delete).
  rewrite E2. simpl.
  pose proof (rewires_trans _ _ _ _ H1 H2) as [Hv Hd].
  destruct (same_vectors_is_Some _ nm2 id Hv) as [it2 Hit2]; [eauto|].
  rewrite Hit2. simpl.
  assert (Hv3 : same_vectors (delete id (node_map V)) (delete id nm2))
    by (by apply same_vectors_delete).
  assert (Hd3 : degree_ok R (node_map V) -> degree_ok R (delete id nm2))
    by (intros; by apply degree_ok_delete, Hd).
  destruct ((start_node V =? id)%N && negb (bool_decide (delete id nm2 = ∅))) eqn:Hs.
  - apply andb_true_iff in Hs as [_ Hne3].
    apply negb_true_iff, bool_decide_eq_false in Hne3.
    destruct (begin_key_is_Some _ Hne3) as [b Hb]. rewrite Hb. simpl.
    match goal with |- context [greedy_search _ _ ?s ?q ?k ?L ?o ?f ?W] =>
      destruct (greedy_search_total metric dims W q L f s k o) as [res Hres];
        [lia|done|] end.
    rewrite Hres. simpl. destruct res as [|r res].
    + eexists. split; [done|]. simpl. split; [done|]. split; [done|].
      split; [|done]. intros _ _. simpl. by apply begin_key_lookup.
    + eexists. split; [done|]. simpl. split; [done|]. split; [done|].
      split; [|done]. intros _ _. simpl. by apply greedy_search_hit in Hres.
  - eexists. split; [done|]. simpl. split; [done|]. split; [done|].
    split; [|done].
    unfold start_node_live. simpl. intros Hlive Hne3.
    assert (Hsid : start_node V ≠ id).
    { intros Heq. apply andb_false_iff in Hs as [Hs|Hs].
      - apply N.eqb_neq in Hs. done.
      - apply negb_false_iff, bool_decide_eq_true in Hs. done. }
    rewrite lookup_delete_ne by done.
    apply (same_vectors_is_Some _ _ _ Hv). by apply Hlive.
Qed.

Lemma batch_delete_degree V :
  degree_ok R (node_map V) -> degree_ok R (node_map (batch_delete V)).
Proof.
  intros Hd. unfold batch_delete. destruct (bool_decide (delete_list V = ∅)); [done|].
  simpl. apply map_Forall_fmap. intros u node Hu. simpl.
  etrans; [apply length_filter|]. by apply (Hd u).
Qed.

Lemma batch_delete_no_self_loop V :
  no_self_loop (node_map V) -> no_self_loop (node_map (batch_delete V)).
Proof.
  intros Hd. unfold batch_delete. destruct (bool_decide (delete_list V = ∅)); [done|].
  simpl. intros u node'. rewrite lookup_fmap.
  destruct (node_map V !! u) as [node|] eqn:Hu; [|done]. simpl. intros [= <-]. simpl.
  intros Hin. apply list_elem_of_filter in Hin as [_ Hin]. by apply (Hd u node).
Qed.

Lemma batch_delete_start_node_live V :
  start_node_live V -> start_node_live (batch_delete V).
Proof.
  apply start_node_live_dom.
  - unfold batch_delete. destruct (bool_decide (delete_list V = ∅)); [done|].
    simpl. apply dom_fmap_L.
  - unfold batch_delete. by destruct (bool_decide (delete_list V = ∅)).
Qed.

Lemma apply_op_ids_in_range o V :
  op_defined o -> ids_in_range (node_map V) ->
  exists V', apply_op R metric dims o V = Some V' /\ ids_in_range (node_map V').
Proof.
  intros Hdef Hrange. destruct o as [id vec L alpha|id vec L alpha|id|]; simpl in *.
  - destruct Hdef as [HL Hid].
    destruct (insert_spec id vec L alpha V HL Hid Hrange) as (V' & HV' & _ & _ & _ & Hr).
    eauto.
  - destruct (update_spec id vec L alpha V Hdef Hrange) as (V' & HV' & _ & _ & _ & _ & Hr).
    eauto.
  - destruct (remove_spec id V Hrange) as (V' & HV' & _ & _ & _ & Hr). eauto.
  - eexists. split; [done|]. by apply batch_delete_closed.
Qed.

Lemma apply_op_degree o V :
  op_defined o -> ids_in_range (node_map V) -> degree_ok R (node_map V) ->
  exists V', apply_op R metric dims o V = Some V' /\ degree_ok R (node_map V').
Proof.
  intros Hdef Hrange Hd. destruct o as [id vec L alpha|id vec L alpha|id|]; simpl in *.
  - destruct Hdef as [HL Hid].
    destruct (insert_spec id vec L alpha V HL Hid Hrange) as (V' & HV' & [[_ Hr] _] & _).
    exists V'. split; [done|]. by apply Hr, try_emplace_degree.
  - destruct (update_spec id vec L alpha V Hdef Hrange) as (V' & HV' & Hr & _). eauto.
  - destruct (remove_spec id V Hrange) as (V' & HV' & _ & Hr & _). eauto.
  - eexists. split; [done|]. by apply batch_delete_degree.
Qed.

(** X21.  On an index whose ids are all below [2^32 - 1], [start_node]
    stays live (a key of a non-empty node map) under every operation
    except an insert into an empty index under an id other than
    [start_node]. *)
Lemma apply_op_start_node_live o V :
  op_defined o -> ids_in_range (node_map V) -> start_node_live V ->
  (forall id vec L alpha, o = op_insert id vec L alpha ->
     node_map V ≠ ∅ \/ id = start_node V) ->
  exists V', apply_op R metric dims o V = Some V' /\ start_node_live V'.
Proof.
  intros Hdef Hrange Hlive Hins.
  destruct o as [id vec L alpha|id vec L alpha|id|]; simpl in *.
  - destruct Hdef as [HL Hid].
    destruct (insert_spec id vec L alpha V HL Hid Hrange)
      as (V' & HV' & [[Hv _] _] & _ & Hst & _).
    exists V'. split; [done|]. intros _.
    apply (same_vectors_is_Some _ _ _ Hv).
    destruct Hst as [->|Hst]; [|done].
    destruct (Hins id vec L alpha eq_refl) as [Hne| ->].
    + by apply try_emplace_keeps, Hlive.
    + destruct (try_emplace_lookup (start_node V) vec (node_map V)) as (n & Hn & _). eauto.
  - destruct (update_spec id vec L alpha V Hdef Hrange)
      as (V' & HV' & _ & _ & Hdom & Hst & _).
    exists V'. split; [done|]. by eapply start_node_live_dom.
  - destruct (remove_spec id V Hrange) as (V' & HV' & _ & _ & Hr & _). eauto.
  - eexists. split; [done|]. by apply batch_delete_start_node_live.
Qed.

(** Insert, update and batch_delete create no self-loop. *)
Lemma apply_op_no_self_loop o V :
  op_defined o -> ids_in_range (node_map V) -> no_self_loop (node_map V) ->
  (forall id, o ≠ op_remove id) ->
  exists V', apply_op R metric dims o V = Some V' /\ no_self_loop (node_map V').
Proof.
  intros Hdef Hrange Hn Hrem.
  destruct o as [id vec L alpha|id vec L alpha|id|]; simpl in *.
  - destruct Hdef as [HL Hid].
    destruct (insert_spec id vec L alpha V HL Hid Hrange) as (V' & HV' & [_ Hr] & _).
    exists V'. split; [done|]. by apply Hr, try_emplace_no_self_loop.
  - destruct (update_spec id vec L alpha V Hdef Hrange) as (V' & HV' & _ & Hr & _). eauto.
  - by destruct (Hrem id).
  - eexists. split; [done|]. by apply batch_delete_no_self_loop.
Qed.

(** A sequence of defined operations runs to completion on an index with
    markable ids, and keeps every invariant that each operation keeps. *)
Lemma run_invariant (P : Vamana -> Prop) ops V :
  (forall o V1, o ∈ ops -> op_defined o -> ids_in_range (node_map V1) -> P V1 ->
     forall V2, apply_op R metric dims o V1 = Some V2 -> P V2) ->
  Forall op_defined ops -> ids_in_range (node_map V) -> P V ->
  exists V', run R metric dims ops V = Some V' /\ ids_in_range (node_map V') /\ P V'.
Proof.
  intros Hstep Hops Hrange HP. unfold run.
  apply (foldl_option_inv _ (fun V => ids_in_range (node_map V) /\ P V)); [done|].
  intros V1 o [Hr1 HP1] Ho.
  assert (Hdef : op_defined o) by (rewrite Forall_forall in Hops; by apply Hops).
  destruct (apply_op_ids_in_range o V1 Hdef Hr1) as (V2 & HV2 & Hr2).
  exists V2. split; [done|]. split; [done|]. exact (Hstep o V1 Ho Hdef Hr1 HP1 V2 HV2).
Qed.
End operation_facts.

(** ** The L2 metric *)

Lemma sq_diff_nonneg a b i : (0 <= sq_diff a b i)%Q.
Proof.
  unfold sq_diff. cbv zeta. generalize (vec_at a i - vec_at b i)%Q. intros d.
  destruct (Qlt_le_dec d 0) as [Hd|Hd].
  - assert (Heq : (d * d == (- d) * (- d))%Q) by ring.
    rewrite Heq. apply Qmult_le_0_compat; lra.
  - by apply Qmult_le_0_compat.
Qed.

Lemma sq_diff_self v i : (sq_diff v v i == 0)%Q.
Proof. unfold sq_diff. cbv zeta. ring. Qed.

Lemma sum_nonneg (f : nat -> Q) z l :
  (0 <= z)%Q -> (forall i, 0 <= f i)%Q ->
  (0 <= foldl (fun acc i => acc + f i) z l)%Q.
Proof.
  intros Hz Hf. revert z Hz. induction l as [|i l IH]; intros z Hz; simpl; [done|].
  apply IH. specialize (Hf i). lra.
Qed.

Lemma sum_zero (f : nat -> Q) z l :
  (z == 0)%Q -> (forall i, f i == 0)%Q ->
  (foldl (fun acc i => acc + f i) z l == 0)%Q.
Proof.
  intros Hz Hf. revert z Hz. induction l as [|i l IH]; intros z Hz; simpl; [done|].
  apply IH. specialize (Hf i). lra.
Qed.

Lemma l2_distance_nonneg a b dim : (0 <= l2_distance a b dim)%Q.
Proof.
  unfold l2_distance.
  apply (sum_nonneg (sq_diff a b)); [|apply sq_diff_nonneg].
  destruct (0 <? dim - dim mod 8); [|lra].
  assert (Hlane : forall lane, (0 <= l2_lane a b (dim - dim mod 8) lane)%Q).
  { intros lane. unfold l2_lane.
    apply (sum_nonneg (fun blk => sq_diff a b (8 * blk + lane))); [lra|].
    intros. apply sq_diff_nonneg. }
  pose proof (Hlane 0). pose proof (Hlane 1). pose proof (Hlane 2). pose proof (Hlane 3).
  pose proof (Hlane 4). pose proof (Hlane 5). pose proof (Hlane 6). pose proof (Hlane 7).
  lra.
Qed.

Lemma l2_distance_self v dim : (l2_distance v v dim == 0)%Q.
Proof.
  unfold l2_distance.
  apply (sum_zero (sq_diff v v)); [|apply sq_diff_self].
  destruct (0 <? dim - dim mod 8); [|lra].
  assert (Hlane : forall lane, (l2_lane v v (dim - dim mod 8) lane == 0)%Q).
  { intros lane. unfold l2_lane.
    apply (sum_zero (fun blk => sq_diff v v (8 * blk + lane))); [lra|].
    intros. apply sq_diff_self. }
  pose proof (Hlane 0). pose proof (Hlane 1). pose proof (Hlane 2). pose proof (Hlane 3).
  pose proof (Hlane 4). pose proof (Hlane 5). pose proof (Hlane 6). pose proof (Hlane 7).
  lra.
Qed.

(** ** Searching for a stored vector *)

Lemma zero_is_least_spec metric dims vec nm :
  zero_is_least metric dims vec nm ->
  (compute metric vec vec dims == 0)%Q /\
  forall j node, nm !! j = Some node -> (0 <= compute metric (vector node) vec dims)%Q.
Proof.
  destruct metric; simpl; [|done]. intros _.
  split; [apply l2_distance_self|]. intros. apply l2_distance_nonneg.
Qed.

Section self_search_facts.
Context (metric : distance_metric_t) (dims : nat) (V : Vamana) (query : list Q) (L : nat).
Context (c0 : vamana_candidate_t).
Hypothesis HL : 0 < L.
Hypothesis Hzero : (distance c0 == 0)%Q.
Hypothesis Hlive : cand_id c0 ∉ delete_list V.
Hypothesis Hleast : forall j node, node_map V !! j = Some node ->
  (0 <= compute metric (vector node) query dims)%Q.

Lemma self_search_step s nn rest s1 :
  self_search_inv metric dims V query c0 s ->
  candidates s = nn :: rest ->
  search_body metric dims V query L None nn rest s = Some s1 ->
  self_search_inv metric dims V query c0 s1.
Proof.
  intros [Hinv Hc0] Hcs Hb.
  split; [by eapply search_body_inv|]. left.
  destruct (search_body_results _ _ _ _ _ _ _ _ _ _ Hb) as [md Ha].
  destruct Hc0 as [Hin|(Hres & Hcand & _)].
  - destruct Hinv as (_ & _ & Hc). rewrite Hcs in Hc.
    apply Forall_cons in Hc as [(node & Hnode & Hnn) _].
    pose proof (Hleast _ _ Hnode) as Hge.
    simpl in Hnn. rewrite <- Hnn in Hge.
    apply accept_candidate_pop in Ha as [->|[->|(t & q & Hr & Hlt & Hq)]]; [done| |].
    + apply pq_push_elem. by right.
    + rewrite Hr in Hin. apply flt_true in Hlt.
      apply elem_of_cons in Hin as [->|Hin]; [lra|].
      destruct Hq as [->| ->]; [done|]. apply pq_push_elem. by right.
  - rewrite Hcand in Hcs. injection Hcs as <- <-.
    unfold accept_candidate in Ha. rewrite Hres in Ha. simpl in Ha.
    assert ((0 <? L) = true) as HL' by (by apply Nat.ltb_lt). rewrite HL' in Ha.
    simpl in Ha. rewrite bool_decide_eq_true_2 in Ha by done.
    assert ((L <? 1) = false) as HL1 by (apply Nat.ltb_ge; lia). rewrite HL1 in Ha.
    destruct (length [c0] =? L); simpl in Ha; injection Ha as <- _; left.
Qed.

Lemma self_search_found fuel s s' :
  self_search_inv metric dims V query c0 s ->
  search_loop metric dims V query L None fuel s = Some s' ->
  search_inv metric dims V query None s' /\ c0 ∈ results s'.
Proof.
  intros Hs Hloop.
  assert (Hs' : self_search_inv metric dims V query c0 s').
  { eapply (search_loop_invariant metric dims V query L None
              (self_search_inv metric dims V query c0)); [|exact Hs|exact Hloop].
    intros s0 nn rest s1 H0 Hc _ Hb. by eapply self_search_step. }
  destruct Hs' as [Hinv [Hin|(_ & Hcand & Hmd)]]; [done|].
  apply search_loop_exit in Hloop as [Hnil|(nn & rest & Hc & Hlt)]; [congruence|].
  rewrite Hcand in Hc. injection Hc as <- <-. rewrite Hmd in Hlt.
  apply flt_true in Hlt. exfalso.
  assert (0 <= FLT_MAX)%Q by (by apply Qle_bool_iff). lra.
Qed.
End self_search_facts.

(** ** validate_graph *)

Lemma validate_neighbors_true R unique nbrs :
  validate_neighbors R unique nbrs = true <->
  NoDup nbrs /\ (forall x, x ∈ nbrs -> x ∉ unique) /\
  (nbrs = [] \/ size unique + length nbrs <= R + 1).
Proof.
  revert unique. induction nbrs as [|n rest IH]; intros unique; simpl.
  - split; [|done]. intros _. split; [constructor|]. split; [|by left].
    intros x Hx. by apply elem_of_nil in Hx.
  - destruct (bool_decide (n ∈ unique)) eqn:Hin; simpl.
    { apply bool_decide_eq_true in Hin. split; [done|].
      intros (_ & Hfresh & _). exfalso. apply (Hfresh n); [left|done]. }
    apply bool_decide_eq_false in Hin.
    assert (Hsize : size ({[n]} ∪ unique) = S (size unique)).
    { rewrite size_union by set_solver. by rewrite size_singleton. }
    destruct (R <? size unique) eqn:HR.
    { apply Nat.ltb_lt in HR. split; [done|].
      intros (_ & _ & [Hnil|Hlen]); [done|]. simpl in Hlen. lia. }
    apply Nat.ltb_ge in HR. rewrite IH, Hsize. split.
    + intros (Hnd & Hfresh & Hlen). split; [|split].
      * constructor; [|done]. intros Hn. apply (Hfresh n Hn). set_solver.
      * intros x [->|Hx]%elem_of_cons; [done|]. specialize (Hfresh x Hx). set_solver.
      * right. simpl. destruct Hlen as [->|Hlen]; simpl; lia.
    + intros (Hnd & Hfresh & Hlen). apply NoDup_cons in Hnd as [Hn Hnd].
      split; [done|]. split.
      * intros x Hx. apply not_elem_of_union. split.
        -- intros ->%elem_of_singleton. done.
        -- apply Hfresh. by right.
      * destruct Hlen as [Hnil|Hlen]; [done|]. simpl in Hlen.
        destruct rest; [by left|right]. simpl in *. lia.
Qed.

(** X8.  What [validate_graph] checks: it returns true exactly when
    every node has no duplicate neighbor and at most [R + 1] neighbors. *)
Lemma validate_graph_true R V :
  validate_graph R V = true <->
  forall u node, node_map V !! u = Some node ->
    NoDup (neighbors node) /\ length (neighbors node) <= R + 1.
Proof.
  unfold validate_graph. rewrite forallb_forall. split.
  - intros H u node Hu.
    specialize (H (u, node)). simpl in H.
    rewrite validate_neighbors_true in H.
    destruct H as (Hnd & _ & Hlen).
    { apply list_elem_of_In. by apply elem_of_map_to_list. }
    split; [done|]. rewrite size_empty in Hlen. destruct Hlen as [->|Hlen]; simpl; lia.
  - intros H [u node] Hin. simpl.
    apply list_elem_of_In, elem_of_map_to_list in Hin.
    destruct (H u node Hin) as [Hnd Hlen].
    apply validate_neighbors_true. split; [done|]. split; [set_solver|].
    right. rewrite size_empty. simpl. lia.
Qed.

(** ** Worked runs *)

Example line_graph_by_inserts :
  run 2 L2 1 [op_insert 0 [0%Q] 10 1.2%Q; op_insert 1 [1%Q] 10 1.2%Q;
              op_insert 2 [3%Q] 10 1.2%Q] (Vamana_new 1) = Some line_graph.
Proof. vm_compute. reflexivity. Qed.

Example line_graph_search :
  greedy_search L2 1 0 [3%Q] 2 3 [] None line_graph =
  Some [mk_candidate 2 0; mk_candidate 1 4].
Proof. vm_compute. reflexivity. Qed.

Example line_graph_search_even :
  greedy_search L2 1 0 [3%Q] 2 3 [] (Some N.even) line_graph =
  Some [mk_candidate 2 0; mk_candidate 0 9].
Proof. vm_compute. reflexivity. Qed.

(** A re-inserted id that is still tombstoned is not returned. *)
Example tombstoned_id_not_found :
  (V ← run 4 L2 1 [op_insert 0 [0%Q] 10 1.2%Q; op_insert 1 [1%Q] 10 1.2%Q;
                   op_remove 1; op_insert 1 [1%Q] 10 1.2%Q] (Vamana_new 1);
   greedy_search L2 1 1 [1%Q] 1 4 [] None V) = Some [mk_candidate 0 1].
Proof. vm_compute. reflexivity. Qed.

Example zero_beam_undefined :
  greedy_search L2 1 0 [3%Q] 0 0 [] None line_graph = None.
Proof. vm_compute. reflexivity. Qed.

Example last_id_graph_by_inserts :
  run 2 L2 1 [op_insert 0 [0%Q] 10 1.2%Q; op_insert 4294967295 [1%Q] 10 1.2%Q]
      (Vamana_new 1) = Some last_id_graph.
Proof. vm_compute. reflexivity. Qed.

(** The third insert searches from node 0 and cannot mark its neighbor. *)
Example last_id_graph_insert_undefined :
  insert 2 L2 1 1 [3%Q] 10 1.2%Q last_id_graph = None.
Proof. vm_compute. reflexivity. Qed.

Example unit_graph_by_insert :
  insert 2 INNER_PRODUCT 2 0 [1%Q; 0%Q] 10 1.2%Q (Vamana_new 2) = Some unit_graph.
Proof. vm_compute. reflexivity. Qed.

(** [ids_in_range] of a given node map, by evaluation. *)
Lemma ids_in_range_Forall nm :
  map_Forall (fun u node => markable u /\ Forall markable (neighbors node)) nm ->
  ids_in_range nm.
Proof.
  intros H. split.
  - intros u node v Hu Hv. destruct (H u node Hu) as [_ Hn].
    rewrite Forall_forall in Hn. by apply Hn.
  - intros j [node Hj]. by destruct (H j node Hj).
Qed.

Lemma empty_in_range : ids_in_range ∅.
Proof. apply ids_in_range_Forall, map_Forall_empty. Qed.

Lemma line_graph_in_range : ids_in_range (node_map line_graph).
Proof.
  apply ids_in_range_Forall.
  match goal with |- ?P => apply (@bool_decide_unpack P _) end. vm_compute. exact I.
Qed.

(** ** The claims *)

(** C1.  After a mutation with a non-empty node map [start_node] should name
    a present id, and the first insert should make [start_node] the inserted
    id.  The code does not: on a fresh index, [insert(5, ...)] stores node 5
    and leaves [start_node] at its initial value 0, which is in no node map
    entry (the medoid countdown has not fired, and a search from the absent
    id 0 would be empty anyway). *)
Theorem first_insert_leaves_start_node_dangling :
  exists V,
    insert 4 L2 1 5 [0%Q] 10 1.2%Q (Vamana_new 1) = Some V /\
    node_map V = {[ 5%N := mk_node [] [0%Q] ]} /\
    start_node V = 0%N /\
    ~ start_node_live V.
Proof.
  eexists. split; [vm_compute; reflexivity|].
  split; [vm_compute; reflexivity|]. split; [reflexivity|].
  intros Hlive. destruct Hlive as [node Hnode].
  - intros Hempty. apply (f_equal (fun m => m !! 5%N)) in Hempty.
    vm_compute in Hempty. discriminate.
  - vm_compute in Hnode. discriminate.
Qed.

(** The same state is reached when the index is emptied and refilled. *)
Lemma refill_leaves_start_node_dangling :
  exists V,
    run 4 L2 1 [op_insert 0 [0%Q] 10 1.2%Q; op_remove 0; op_insert 1 [1%Q] 10 1.2%Q]
        (Vamana_new 1) = Some V /\
    is_Some (node_map V !! 1%N) /\ start_node V = 0%N /\ node_map V !! 0%N = None.
Proof.
  eexists. split; [vm_compute; reflexivity|].
  split; [vm_compute; eauto|]. split; reflexivity.
Qed.

(** C2.  No live node should list itself as a neighbor after any operation.
    The code does not keep this in step 4 of [remove]: [select_top_c] does
    not leave out the anchor, so the in-neighbor 0 of the removed node 1 is
    patched with itself (step 5 has the test [y == w], step 4 has none). *)
Theorem remove_patches_in_neighbor_with_itself :
  exists V0 V,
    run 4 L2 1 [op_insert 0 [0%Q] 10 1.2%Q; op_insert 1 [1%Q] 10 1.2%Q] (Vamana_new 1)
      = Some V0 /\
    no_self_loop (node_map V0) /\
    remove 4 L2 1 1 V0 = Some V /\
    node_map V = {[ 0%N := mk_node [1%N; 0%N] [0%Q] ]} /\
    ~ no_self_loop (node_map V).
Proof.
  eexists. eexists. split; [vm_compute; reflexivity|].
  split.
  { unfold no_self_loop. apply map_Forall_to_list. vm_compute.
    repeat constructor; by intros [[=]|[]%elem_of_nil]%elem_of_cons. }
  split; [vm_compute; reflexivity|].
  split; [vm_compute; reflexivity|].
  intros Hno. apply (Hno 0%N (mk_node [1%N; 0%N] [0%Q])); [vm_compute; reflexivity|].
  simpl. set_solver.
Qed.

(** C3, as stated, fails for calls outside the domain of the function: a
    call whose start id is absent returns [out] as it found it, here three
    entries for [k = 1] that are not in ascending order; a call with
    [L = 0] reads the top of the empty [results]; and a search that reaches
    the id [2^32 - 1] cannot mark it as visited. *)
Lemma greedy_search_results_counterexample :
  (greedy_search L2 1 9 [3%Q] 1 3
     [mk_candidate 5 2; mk_candidate 6 1; mk_candidate 7 0] None line_graph
   = Some [mk_candidate 5 2; mk_candidate 6 1; mk_candidate 7 0] /\
   ~ length [mk_candidate 5 2; mk_candidate 6 1; mk_candidate 7 0] <= 1 /\
   ~ ascending [mk_candidate 5 2; mk_candidate 6 1; mk_candidate 7 0]) /\
  greedy_search L2 1 0 [3%Q] 0 0 [] None line_graph = None /\
  greedy_search L2 1 0 [3%Q] 2 3 [] None last_id_graph = None.
Proof.
  split; [|split; vm_compute; reflexivity].
  split; [vm_compute; reflexivity|]. split; [simpl; lia|].
  intros H. apply StronglySorted_inv in H as [_ H].
  apply Forall_inv in H. simpl in H. vm_compute in H. by apply H.
Qed.

(** C3, amended.  On an index whose ids are all below [2^32 - 1], every
    call [greedy_search(s, q, k, L, out, filter)] with an empty [out] and a
    beam width [L >= 1] returns at most [k] results in ascending distance;
    every returned id is outside the tombstone set, present in the node map
    with its distance to [q] under the configured metric, and accepted by
    the filter when one is supplied. *)
Theorem greedy_search_results metric dims V start query k L filter :
  0 < L ->
  ids_in_range (node_map V) ->
  exists out,
    greedy_search metric dims start query k L [] filter V = Some out /\
    length out <= k /\
    ascending out /\
    Forall (result_ok metric dims V query filter) out.
Proof.
  intros HL Hrange.
  destruct (greedy_search_total metric dims V query L filter start k [] HL Hrange)
    as [out Hout].
  exists out. split; [done|]. by eapply greedy_search_sound.
Qed.

Lemma greedy_search_results_witness :
  0 < 3 /\
  ids_in_range (node_map line_graph) /\
  exists out,
    greedy_search L2 1 0 [3%Q] 2 3 [] (Some N.even) line_graph = Some out /\
    length out <= 2 /\
    ascending out /\
    Forall (result_ok L2 1 line_graph [3%Q] (Some N.even)) out.
Proof.
  assert (H1 : 0 < 3) by lia.
  assert (H2 : ids_in_range (node_map line_graph)) by exact line_graph_in_range.
  split; [exact H1|]. split; [exact H2|].
  exact (greedy_search_results L2 1 line_graph 0 [3%Q] 2 3 (Some N.even) H1 H2).
Defined.

(** C4.  The degree bound [|neighbors(u)| <= R] for every node of the map
    holds after every operation: from a state where it holds (the empty
    index is one), any sequence of insert, update, remove and batch_delete
    with beam widths [L >= 1] and ids below [2^32 - 1] runs to a state
    where it holds. *)
Theorem degree_bound_after_operations R metric dims ops V :
  degree_ok R (node_map V) ->
  ids_in_range (node_map V) ->
  Forall op_defined ops ->
  exists V', run R metric dims ops V = Some V' /\ degree_ok R (node_map V').
Proof.
  intros Hd Hrange Hops.
  destruct (run_invariant R metric dims (fun V => degree_ok R (node_map V)) ops V)
    as (V' & HV' & _ & Hd'); [|done|done|done|by exists V'].
  intros o V1 _ Hdef Hr1 Hd1 V2 HV2.
  destruct (apply_op_degree R metric dims o V1 Hdef Hr1 Hd1) as (V2' & HV2' & Hd2).
  rewrite HV2 in HV2'. by injection HV2' as <-.
Qed.

Lemma degree_bound_after_operations_witness :
  degree_ok 2 (node_map (Vamana_new 1)) /\
  ids_in_range (node_map (Vamana_new 1)) /\
  Forall op_defined [op_insert 0 [0%Q] 10 1.2%Q; op_insert 1 [1%Q] 10 1.2%Q;
                     op_insert 2 [3%Q] 10 1.2%Q; op_update 1 [2%Q] 10 1.2%Q;
                     op_remove 0; op_batch_delete] /\
  exists V',
    run 2 L2 1 [op_insert 0 [0%Q] 10 1.2%Q; op_insert 1 [1%Q] 10 1.2%Q;
                op_insert 2 [3%Q] 10 1.2%Q; op_update 1 [2%Q] 10 1.2%Q;
                op_remove 0; op_batch_delete] (Vamana_new 1) = Some V' /\
    degree_ok 2 (node_map V').
Proof.
  assert (H0 : degree_ok 2 (node_map (Vamana_new 1))) by apply map_Forall_empty.
  assert (Hr : ids_in_range (node_map (Vamana_new 1))) by exact empty_in_range.
  assert (Hops : Forall op_defined
                   [op_insert 0 [0%Q] 10 1.2%Q; op_insert 1 [1%Q] 10 1.2%Q;
                    op_insert 2 [3%Q] 10 1.2%Q; op_update 1 [2%Q] 10 1.2%Q;
                    op_remove 0; op_batch_delete])
    by (repeat constructor; simpl; lia).
  split; [exact H0|]. split; [exact Hr|]. split; [exact Hops|].
  exact (degree_bound_after_operations 2 L2 1 _ _ H0 Hr Hops).
Defined.

(** C5.  [validate_graph] should return false when a node has more than [R]
    neighbors.  The code does not for exactly [R + 1] distinct neighbors: the
    test [unique_neighbors.size() > R] is made before the current neighbor
    is added, so it first fires at the neighbor number [R + 2]. *)
Theorem validate_graph_accepts_R_plus_one :
  node_map overfull_graph !! 0%N = Some (mk_node [1%N; 2%N] [0%Q]) /\
  ~ degree_ok 1 (node_map overfull_graph) /\
  validate_graph 1 overfull_graph = true.
Proof.
  split; [vm_compute; reflexivity|]. split; [|vm_compute; reflexivity].
  intros Hd. specialize (Hd 0%N (mk_node [1%N; 2%N] [0%Q])).
  simpl in Hd. assert (2 <= 1); [|lia]. apply Hd. vm_compute. reflexivity.
Qed.

(** C6, as stated, fails under the inner-product metric: the distance of a
    vector to itself is [1 - v.v], here [1 - 4 = -3]; and for a vector of
    norm 1 a stored vector with a larger inner product comes first, here
    [(2)] at distance [1 - 2 = -1] from [(1)]. *)
Lemma self_search_inner_product_counterexample :
  ~ self_search_law 4 INNER_PRODUCT 1 (Vamana_new 1) 0 [2%Q] 10 1.2%Q 1 1 /\
  exists V0,
    insert 4 INNER_PRODUCT 1 0 [2%Q] 10 1.2%Q (Vamana_new 1) = Some V0 /\
    ~ self_search_law 4 INNER_PRODUCT 1 V0 1 [1%Q] 10 1.2%Q 1 1.
Proof.
  split.
  - intros (V' & r & rest & Hi & Hg & _ & Hd).
    vm_compute in Hi. injection Hi as <-.
    vm_compute in Hg. injection Hg as <- <-.
    vm_compute in Hd. discriminate.
  - eexists. split; [vm_compute; reflexivity|].
    intros (V' & r & rest & Hi & Hg & _ & Hd).
    vm_compute in Hi. injection Hi as <-.
    vm_compute in Hg. injection Hg as <- <-.
    vm_compute in Hd. discriminate.
Qed.

(** C6, amended.  For an id below [2^32 - 1] that is neither in the node
    map nor tombstoned, on an index whose ids are all below [2^32 - 1]:
    when [vec] is at distance 0 from itself and no stored vector is at a
    negative distance from it (always so under L2; under the inner product,
    a [vec] of norm 1 and no stored vector with an inner product above 1),
    [insert(id, vec, L, alpha)] with [L >= 1] followed by
    [greedy_search(id, vec, k, L')] with [1 <= k <= L'] returns a first
    result at distance 0; that result is [id] itself when no vector stored
    before is at distance 0 from [vec]. *)
Theorem self_search_zero_distance R metric dims id vec L alpha V k L' :
  node_map V !! id = None ->
  id ∉ delete_list V ->
  markable id ->
  ids_in_range (node_map V) ->
  zero_is_least metric dims vec (node_map V) ->
  0 < L -> 1 <= k -> k <= L' ->
  exists V' r rest,
    insert R metric dims id vec L alpha V = Some V' /\
    greedy_search metric dims id vec k L' [] None V' = Some (r :: rest) /\
    (distance r == 0)%Q /\
    ((forall j node, node_map V !! j = Some node ->
        ~ (compute metric (vector node) vec dims == 0)%Q) ->
     cand_id r = id).
Proof.
  intros Hfresh Hlive Hmid Hrange Hzl HL Hk HkL.
  apply zero_is_least_spec in Hzl as [Hself Hleast].
  destruct (insert_spec R metric dims id vec L alpha V HL Hmid Hrange)
    as (V' & HV' & [[Hvec _] _] & Hdl & _ & Hrange').
  assert (Hemp : try_emplace id vec (node_map V) = <[id := mk_node [] vec]> (node_map V))
    by (unfold try_emplace; by rewrite Hfresh).
  rewrite Hemp in Hvec.
  assert (Hid : exists node, node_map V' !! id = Some node /\ vector node = vec).
  { pose proof (same_vectors_lookup _ _ id Hvec) as Hl. rewrite lookup_insert_eq in Hl.
    destruct (node_map V' !! id) as [node|]; [|discriminate].
    exists node. split; [done|]. simpl in Hl. congruence. }
  destruct Hid as (node & Hnode & Hnv).
  assert (Hleast' : forall j nd, node_map V' !! j = Some nd ->
            (0 <= compute metric (vector nd) vec dims)%Q).
  { intros j nd Hj. pose proof (same_vectors_lookup _ _ j Hvec) as Hl.
    rewrite Hj in Hl. simpl in Hl.
    destruct (decide (j = id)) as [->|Hne].
    - rewrite lookup_insert_eq in Hl. simpl in Hl. injection Hl as ->. lra.
    - rewrite lookup_insert_ne in Hl by done.
      destruct (node_map V !! j) as [old|] eqn:Hold; [|discriminate].
      simpl in Hl. injection Hl as ->. by eapply Hleast. }
  assert (HL' : 0 < L') by lia.
  destruct (greedy_search_total metric dims V' vec L' None id k [] HL' Hrange')
    as [out Hout].
  set (c0 := mk_candidate id (compute metric (vector node) vec dims)).
  assert (Hc0 : (distance c0 == 0)%Q).
  { simpl. by rewrite Hnv. }
  assert (Hfound : exists s, (search_inv metric dims V' vec None s /\ c0 ∈ results s) /\
             out = take (min k (length (reverse (results s)))) (reverse (results s))).
  { unfold greedy_search in Hout. rewrite Hnode in Hout.
    apply bind_Some in Hout as ([b vis0] & _ & Hout).
    apply bind_Some in Hout as (s & Hloop & Hout). simpl in Hout. injection Hout as <-.
    exists s. split; [|done].
    eapply (self_search_found metric dims V' vec L' c0 HL' Hc0);
      [by rewrite Hdl|exact Hleast'| |exact Hloop].
    split.
    - split; [constructor|]. split; [constructor|].
      repeat constructor. by exists node.
    - right. done. }
  destruct Hfound as (s & [(Hdesc & Hres & _) Hin] & ->).
  apply descending_reverse in Hdesc.
  assert (Hin' : c0 ∈ reverse (results s)) by (by rewrite reverse_Permutation).
  assert (Hres' : Forall (result_ok metric dims V' vec None) (reverse (results s)))
    by (by rewrite reverse_Permutation).
  destruct (reverse (results s)) as [|r rest]; [by apply elem_of_nil in Hin'|].
  exists V', r, (take (min k (length (r :: rest)) - 1) rest).
  split; [done|]. split.
  { rewrite Hout. f_equal. simpl. destruct k; [lia|]. simpl. by rewrite Nat.sub_0_r. }
  apply Forall_cons in Hres' as [(_ & (nr & Hnr & Hdr) & _) _].
  assert (Hle : (distance r <= distance c0)%Q).
  { apply elem_of_cons in Hin' as [<-|Hin']; [lra|].
    apply StronglySorted_inv in Hdesc as [_ Hall].
    rewrite Forall_forall in Hall. by apply Hall. }
  assert (Hge : (0 <= distance r)%Q) by (rewrite Hdr; by eapply Hleast').
  assert (Hr0 : (distance r == 0)%Q) by lra.
  split; [done|].
  intros Huniq. destruct (decide (cand_id r = id)) as [|Hne]; [done|]. exfalso.
  pose proof (same_vectors_lookup _ _ (cand_id r) Hvec) as Hl.
  rewrite lookup_insert_ne, Hnr in Hl by done.
  destruct (node_map V !! cand_id r) as [old|] eqn:Hold; [|discriminate].
  simpl in Hl. injection Hl as Hl.
  apply (Huniq _ _ Hold). rewrite <- Hl, <- Hdr. done.
Qed.

Lemma self_search_zero_distance_witness :
  node_map unit_graph !! 1%N = None /\
  (1%N ∉ delete_list unit_graph) /\
  markable 1 /\
  ids_in_range (node_map unit_graph) /\
  zero_is_least INNER_PRODUCT 2 [0%Q; 1%Q] (node_map unit_graph) /\
  0 < 10 /\ 1 <= 1 /\ 1 <= 4 /\
  exists V' r rest,
    insert 2 INNER_PRODUCT 2 1 [0%Q; 1%Q] 10 1.2%Q unit_graph = Some V' /\
    greedy_search INNER_PRODUCT 2 1 [0%Q; 1%Q] 1 4 [] None V' = Some (r :: rest) /\
    (distance r == 0)%Q /\
    ((forall j node, node_map unit_graph !! j = Some node ->
        ~ (compute INNER_PRODUCT (vector node) [0%Q; 1%Q] 2 == 0)%Q) ->
     cand_id r = 1%N).
Proof.
  assert (H1 : node_map unit_graph !! 1%N = None) by reflexivity.
  assert (H2 : 1%N ∉ delete_list unit_graph) by apply not_elem_of_empty.
  assert (Hm : markable 1) by (unfold markable, UINT32_MAX; lia).
  assert (Hr : ids_in_range (node_map unit_graph)).
  { apply ids_in_range_Forall.
    match goal with |- ?P => apply (@bool_decide_unpack P _) end. vm_compute. exact I. }
  assert (Hz : zero_is_least INNER_PRODUCT 2 [0%Q; 1%Q] (node_map unit_graph)).
  { split; [vm_compute; reflexivity|]. intros j node Hj.
    change (node_map unit_graph)
      with ({[ 0%N := mk_node [] [1%Q; 0%Q] ]} : gmap N vamana_node_t) in Hj.
    apply lookup_singleton_Some in Hj as [_ <-]. vm_compute. discriminate. }
  assert (H3 : 0 < 10) by lia.
  assert (H4 : 1 <= 1) by lia.
  assert (H5 : 1 <= 4) by lia.
  split; [exact H1|]. split; [exact H2|]. split; [exact Hm|]. split; [exact Hr|].
  split; [exact Hz|]. split; [exact H3|]. split; [exact H4|]. split; [exact H5|].
  exact (self_search_zero_distance 2 INNER_PRODUCT 2 1 [0%Q; 1%Q] 10 1.2%Q unit_graph 1 4
           H1 H2 Hm Hr Hz H3 H4 H5).
Defined.

(** Under L2 the law needs no condition on the vectors. *)
Example line_graph_self_search :
  exists V' r rest,
    insert 2 L2 1 7 [8%Q] 10 1.2%Q line_graph = Some V' /\
    greedy_search L2 1 7 [8%Q] 1 4 [] None V' = Some (r :: rest) /\
    cand_id r = 7%N /\ (distance r == 0)%Q.
Proof. do 3 eexists. repeat split; vm_compute; reflexivity. Qed.

(** The outcome of [robust_prune] does not depend on [max_alpha]: the first
    pass ends with every candidate taken, marked or equal to [p], or it
    returns with [R] neighbors. *)
Lemma robust_prune_alpha_irrelevant R metric dims p candidates alpha alpha' nm :
  robust_prune R metric dims p candidates alpha nm =
  robust_prune R metric dims p candidates alpha' nm.
Proof.
  unfold robust_prune. destruct (nm !! p); [|done].
  by rewrite (prune_select_first_pass _ _ _ _ _ _ alpha),
             (prune_select_first_pass _ _ _ _ _ _ alpha').
Qed.

(** C7.  The neighbor set that [robust_prune(p, C, alpha)] gives to [p]
    contains the one that [robust_prune(p, C, 1.0)] gives on the same input
    (for every [alpha] and every candidate list, sorted or not). *)
Theorem robust_prune_alpha_superset R metric dims p candidates alpha nm node1 :
  robust_prune R metric dims p candidates 1%Q nm !! p = Some node1 ->
  exists node_alpha,
    robust_prune R metric dims p candidates alpha nm !! p = Some node_alpha /\
    neighbors node1 ⊆ neighbors node_alpha.
Proof.
  intros H1. exists node1. split; [|done].
  by rewrite (robust_prune_alpha_irrelevant R metric dims p candidates alpha 1%Q).
Qed.

Lemma robust_prune_alpha_superset_witness :
  robust_prune 2 L2 1 2 [mk_candidate 1 4; mk_candidate 0 9] 1%Q (node_map line_graph)
    !! 2%N = Some (mk_node [1%N] [3%Q]) /\
  exists node_alpha,
    robust_prune 2 L2 1 2 [mk_candidate 1 4; mk_candidate 0 9] 1.2%Q (node_map line_graph)
      !! 2%N = Some node_alpha /\
    neighbors (mk_node [1%N] [3%Q]) ⊆ neighbors node_alpha.
Proof.
  assert (H1 : robust_prune 2 L2 1 2 [mk_candidate 1 4; mk_candidate 0 9] 1%Q
                 (node_map line_graph) !! 2%N = Some (mk_node [1%N] [3%Q]))
    by (vm_compute; reflexivity).
  split; [exact H1|].
  exact (robust_prune_alpha_superset 2 L2 1 2 _ 1.2%Q _ _ H1).
Defined.

(** C8, as stated, fails.  With [R = 1] and nodes 0 at (0) and 1 at (1),
    [insert(2, (3))] finds the neighbor 1 full, and the candidates it hands
    to [robust_prune(1, ...)] are [(0, 1), (2, 4)]: closest first. *)
Lemma back_edge_candidates_descending_counterexample :
  exists V01 sr,
    run 1 L2 1 [op_insert 0 [0%Q] 10 1.2%Q; op_insert 1 [1%Q] 10 1.2%Q] (Vamana_new 1)
      = Some V01 /\
    greedy_search L2 1 (start_node V01) [3%Q] 10 10 [] None
      (set_node_map (try_emplace 2 [3%Q] (node_map V01)) V01) = Some sr /\
    robust_prune 1 L2 1 2 sr 1.2%Q (try_emplace 2 [3%Q] (node_map V01)) = back_edge_graph /\
    back_edge_graph !! 1%N = Some (mk_node [0%N] [1%Q]) /\
    1 <= length (neighbors (mk_node [0%N] [1%Q])) /\
    back_edge_candidates L2 1 2 [3%Q] (mk_node [0%N] [1%Q]) ∅ back_edge_graph
      = [mk_candidate 0 1; mk_candidate 2 4] /\
    ~ descending (back_edge_candidates L2 1 2 [3%Q] (mk_node [0%N] [1%Q]) ∅ back_edge_graph).
Proof.
  eexists. eexists. split; [vm_compute; reflexivity|].
  split; [vm_compute; reflexivity|]. split; [vm_compute; reflexivity|].
  split; [vm_compute; reflexivity|]. split; [simpl; lia|].
  assert (Hc : back_edge_candidates L2 1 2 [3%Q] (mk_node [0%N] [1%Q]) ∅ back_edge_graph
               = [mk_candidate 0 1; mk_candidate 2 4])
    by (vm_compute; reflexivity).
  split; [exact Hc|]. rewrite Hc. intros Hd.
  apply StronglySorted_inv in Hd as [_ Hd]. apply Forall_cons in Hd as [Hd _].
  vm_compute in Hd. by apply Hd.
Qed.

(** C8, amended.  In [update_neighbors], when the neighbor [v] of [id] is
    live and already has [R] or more neighbors, the candidate list built from
    its neighbors and [id] is sorted in ascending distance to [v] (closest
    first, as [robust_prune] expects) before [robust_prune(v, ..., alpha)]
    is invoked on it. *)
Theorem back_edge_candidates_ascending R metric dims id vec alpha dl nm v node :
  nm !! v = Some node ->
  v ∉ dl ->
  v ≠ id ->
  R <= length (neighbors node) ->
  update_neighbor R metric dims id vec alpha dl nm v =
    Some (robust_prune R metric dims v
            (back_edge_candidates metric dims id vec node dl nm) alpha nm) /\
  ascending (back_edge_candidates metric dims id vec node dl nm).
Proof.
  intros Hv Hdl Hne HR. split.
  - unfold update_neighbor. rewrite bool_decide_eq_false_2 by done. rewrite Hv.
    apply Nat.leb_le in HR. rewrite HR. apply N.eqb_neq in Hne. by rewrite Hne.
  - unfold back_edge_candidates. apply std_sort_max_cmp_ascending.
Qed.

Lemma back_edge_candidates_ascending_witness :
  node_map line_graph !! 1%N = Some (mk_node [0%N; 2%N] [1%Q]) /\
  (1%N ∉ (∅ : gset N)) /\
  1%N ≠ 7%N /\
  2 <= length (neighbors (mk_node [0%N; 2%N] [1%Q])) /\
  update_neighbor 2 L2 1 7 [2%Q] 1.2%Q ∅ (node_map line_graph) 1 =
    Some (robust_prune 2 L2 1 1
            (back_edge_candidates L2 1 7 [2%Q] (mk_node [0%N; 2%N] [1%Q]) ∅
               (node_map line_graph)) 1.2%Q (node_map line_graph)) /\
  ascending (back_edge_candidates L2 1 7 [2%Q] (mk_node [0%N; 2%N] [1%Q]) ∅
               (node_map line_graph)).
Proof.
  assert (H1 : node_map line_graph !! 1%N = Some (mk_node [0%N; 2%N] [1%Q]))
    by reflexivity.
  assert (H2 : 1%N ∉ (∅ : gset N)) by apply not_elem_of_empty.
  assert (H3 : 1%N ≠ 7%N) by discriminate.
  assert (H4 : 2 <= length (neighbors (mk_node [0%N; 2%N] [1%Q]))) by (simpl; lia).
  split; [exact H1|]. split; [exact H2|]. split; [exact H3|]. split; [exact H4|].
  exact (back_edge_candidates_ascending 2 L2 1 7 [2%Q] 1.2%Q ∅ _ 1 _ H1 H2 H3 H4).
Defined.

(** C9.  For an id absent from the node map, [update] and [remove] return
    with the whole index (node map, tombstone set, [start_node], medoid
    tracker) unchanged, and a [greedy_search] started at such an id returns
    no result. *)
Theorem absent_id_is_noop R metric dims id new_vec L alpha query k L' filter V :
  node_map V !! id = None ->
  update R metric dims id new_vec L alpha V = Some V /\
  remove R metric dims id V = Some V /\
  greedy_search metric dims id query k L' [] filter V = Some [].
Proof.
  intros Hid. unfold update, remove, greedy_search. by rewrite Hid.
Qed.

Lemma absent_id_is_noop_witness :
  node_map line_graph !! 9%N = None /\
  update 2 L2 1 9 [5%Q] 10 1.2%Q line_graph = Some line_graph /\
  remove 2 L2 1 9 line_graph = Some line_graph /\
  greedy_search L2 1 9 [5%Q] 3 5 [] None line_graph = Some [].
Proof.
  assert (H1 : node_map line_graph !! 9%N = None) by reflexivity.
  split; [exact H1|].
  exact (absent_id_is_noop 2 L2 1 9 [5%Q] 10 1.2%Q [5%Q] 3 5 None line_graph H1).
Defined.

(** C10.  When [id] is already in the node map, [insert(id, vec, L, alpha)]
    (with [L >= 1], on an index whose ids are all below [2^32 - 1]) leaves
    the vector stored under [id] as it was. *)
Theorem insert_keeps_stored_vector R metric dims id vec L alpha V node :
  node_map V !! id = Some node ->
  0 < L ->
  ids_in_range (node_map V) ->
  exists V' node',
    insert R metric dims id vec L alpha V = Some V' /\
    node_map V' !! id = Some node' /\
    vector node' = vector node.
Proof.
  intros Hid HL Hrange.
  assert (Hmid : markable id) by (destruct Hrange as [_ Hk]; apply Hk; eauto).
  destruct (insert_spec R metric dims id vec L alpha V HL Hmid Hrange)
    as (V' & HV' & [[Hvec _] _] & _).
  assert (Hemp : try_emplace id vec (node_map V) = node_map V)
    by (unfold try_emplace; by rewrite Hid).
  rewrite Hemp in Hvec.
  pose proof (same_vectors_lookup _ _ id Hvec) as Hl. rewrite Hid in Hl.
  destruct (node_map V' !! id) as [node'|] eqn:Hid'; [|discriminate].
  exists V', node'. split; [done|]. split; [done|]. simpl in Hl. congruence.
Qed.

Lemma insert_keeps_stored_vector_witness :
  node_map line_graph !! 1%N = Some (mk_node [0%N; 2%N] [1%Q]) /\
  0 < 10 /\
  ids_in_range (node_map line_graph) /\
  exists V' node',
    insert 2 L2 1 1 [5%Q] 10 1.2%Q line_graph = Some V' /\
    node_map V' !! 1%N = Some node' /\
    vector node' = vector (mk_node [0%N; 2%N] [1%Q]).
Proof.
  assert (H1 : node_map line_graph !! 1%N = Some (mk_node [0%N; 2%N] [1%Q]))
    by reflexivity.
  assert (H2 : 0 < 10) by lia.
  assert (H3 : ids_in_range (node_map line_graph)) by exact line_graph_in_range.
  split; [exact H1|]. split; [exact H2|]. split; [exact H3|].
  exact (insert_keeps_stored_vector 2 L2 1 1 [5%Q] 10 1.2%Q line_graph _ H1 H2 H3).
Defined.

(** ** Further properties of the code *)

Lemma hasDuplicates_from_false seen nbrs :
  hasDuplicates_from seen nbrs = false <->
  NoDup nbrs /\ (forall x, x ∈ nbrs -> x ∉ seen).
Proof.
  revert seen. induction nbrs as [|n rest IH]; intros seen; simpl.
  - split; [|done]. intros _. split; [constructor|]. by intros x Hx%elem_of_nil.
  - destruct (bool_decide (n ∈ seen)) eqn:Hn.
    + apply bool_decide_eq_true in Hn. split; [done|].
      intros [_ H]. exfalso. apply (H n); [left|done].
    + apply bool_decide_eq_false in Hn. rewrite IH. split.
      * intros [Hnd H]. split.
        -- constructor; [|done]. intros Hin. apply (H n Hin). set_solver.
        -- intros x [->|Hx]%elem_of_cons; [done|]. specialize (H x Hx). set_solver.
      * intros [Hnd H]. apply NoDup_cons in Hnd as [Hnr Hnd]. split; [done|].
        intros x Hx. apply not_elem_of_union. split.
        -- intros ->%elem_of_singleton. done.
        -- apply H. by right.
Qed.

(** X1.  [hasDuplicates(v)] is true exactly when some value occurs twice
    in [v]. *)
Theorem hasDuplicates_true_iff nbrs :
  hasDuplicates nbrs = true <-> ~ NoDup nbrs.
Proof.
  unfold hasDuplicates. rewrite <- not_false_iff_true, hasDuplicates_from_false.
  split.
  - intros H Hnd. apply H. split; [done|]. intros x _. apply not_elem_of_empty.
  - intros H [Hnd _]. done.
Qed.

(** X2.  [dedup_vector] keeps the first occurrence of every value, in the
    order of the input: the outcome has no duplicate, holds the same values,
    is a subsequence of the input, and is the input itself when that has no
    duplicate (so deduplicating twice changes nothing more).  What is
    appended to the input never changes what was kept before: the outcome
    for [v ++ w] is the outcome for [v] followed by the outcome for [w]
    without the values of [v], so a value stays at its first position and a
    later copy of it is the one dropped. *)
Theorem dedup_vector_keeps_first_occurrences v :
  NoDup (dedup_vector v) /\
  (forall x, x ∈ dedup_vector v <-> x ∈ v) /\
  sublist (dedup_vector v) v /\
  (NoDup v -> dedup_vector v = v) /\
  dedup_vector (dedup_vector v) = dedup_vector v /\
  (forall w, dedup_vector (v ++ w) =
             dedup_vector v ++ filter (fun x => x ∉ v) (dedup_vector w)) /\
  (forall x, dedup_vector (v ++ [x]) =
             if bool_decide (x ∈ v) then dedup_vector v else dedup_vector v ++ [x]).
Proof.
  unfold dedup_vector. destruct (dedup_from_spec ∅ v) as (Hnd & Hel & Hsub).
  assert (Happ : forall w, dedup_from ∅ (v ++ w) =
            dedup_from ∅ v ++ filter (fun x => x ∉ v) (dedup_from ∅ w)).
  { intros w. rewrite dedup_from_app, dedup_from_filter. f_equal.
    apply list_filter_iff. intros x. by rewrite elem_of_list_to_set. }
  split; [done|]. split; [|split; [done|split; [|split; [|split; [done|]]]]].
  - intros x. rewrite Hel. split; [by intros [? _]|]. intros Hx. split; [done|].
    apply not_elem_of_empty.
  - intros Hv. apply dedup_from_NoDup; [done|]. intros x _. apply not_elem_of_empty.
  - apply dedup_from_NoDup; [done|]. intros x _. apply not_elem_of_empty.
  - intros x. rewrite Happ. simpl. rewrite bool_decide_eq_false_2 by apply not_elem_of_empty.
    destruct (bool_decide (x ∈ v)) eqn:Hx.
    + apply bool_decide_eq_true in Hx.
      rewrite filter_cons_False by (by intros ?). by rewrite filter_nil, app_nil_r.
    + apply bool_decide_eq_false in Hx.
      by rewrite filter_cons_True, filter_nil by done.
Qed.

(** *** Distance kernels *)

Lemma sum_ext (f g : nat -> Q) z z' l :
  (z == z')%Q -> (forall i, f i == g i)%Q ->
  (foldl (fun acc i => acc + f i) z l == foldl (fun acc i => acc + g i) z' l)%Q.
Proof.
  intros Hz Hfg. revert z z' Hz. induction l as [|i l IH]; intros z z' Hz; simpl; [done|].
  apply IH. specialize (Hfg i). lra.
Qed.

Lemma sum_shift (f : nat -> Q) z l :
  (foldl (fun acc i => acc + f i) z l == z + foldl (fun acc i => acc + f i) 0 l)%Q.
Proof.
  revert z. induction l as [|i l IH]; intros z; simpl; [lra|].
  rewrite (IH (z + f i)%Q), (IH (0 + f i)%Q). lra.
Qed.

Lemma sum_snoc (f : nat -> Q) z l i :
  foldl (fun acc i => acc + f i)%Q z (l ++ [i]) = (foldl (fun acc i => acc + f i) z l + f i)%Q.
Proof. by rewrite foldl_app. Qed.

(** The eight lanes after [nb] blocks add up to the plain sum over the
    first [8 * nb] indices. *)
Lemma lanes_sum (f : nat -> Q) nb :
  let lane l := foldl (fun acc blk => (acc + f (8 * blk + l)%nat)%Q) 0%Q (seq 0 nb) in
  (lane 0%nat + lane 1%nat + lane 2%nat + lane 3%nat +
   lane 4%nat + lane 5%nat + lane 6%nat + lane 7%nat
   == foldl (fun acc i => acc + f i) 0 (seq 0 (8 * nb)%nat))%Q.
Proof.
  cbv zeta. induction nb as [|nb IH]; [simpl; lra|].
  replace (8 * S nb) with (8 * nb + 8) by lia.
  rewrite (seq_app (8 * nb) 8 0), foldl_app.
  rewrite !seq_S, !sum_snoc.
  change (seq (0 + 8 * nb) 0) with (@nil nat). cbn [foldl]. change (0 + nb) with nb.
  replace (8 * nb + 0) with (8 * nb) by lia.
  replace (0 + 8 * nb + 0) with (8 * nb) by lia.
  replace (0 + 8 * nb + 1) with (S (8 * nb)) by lia.
  replace (0 + 8 * nb + 2) with (S (S (8 * nb))) by lia.
  replace (0 + 8 * nb + 3) with (S (S (S (8 * nb)))) by lia.
  replace (0 + 8 * nb + 4) with (S (S (S (S (8 * nb))))) by lia.
  replace (0 + 8 * nb + 5) with (S (S (S (S (S (8 * nb)))))) by lia.
  replace (0 + 8 * nb + 6) with (S (S (S (S (S (S (8 * nb))))))) by lia.
  replace (0 + 8 * nb + 7) with (S (S (S (S (S (S (S (8 * nb)))))))) by lia.
  replace (8 * nb + 1) with (S (8 * nb)) by lia.
  replace (8 * nb + 2) with (S (S (8 * nb))) by lia.
  replace (8 * nb + 3) with (S (S (S (8 * nb)))) by lia.
  replace (8 * nb + 4) with (S (S (S (S (8 * nb))))) by lia.
  replace (8 * nb + 5) with (S (S (S (S (S (8 * nb)))))) by lia.
  replace (8 * nb + 6) with (S (S (S (S (S (S (8 * nb))))))) by lia.
  replace (8 * nb + 7) with (S (S (S (S (S (S (S (8 * nb)))))))) by lia.
  lra.
Qed.

(** X3.  In exact arithmetic the 8-lane [l2_distance] and the scalar
    [l2_distance_plain] give the same distance, for every dimension. *)
Theorem l2_distance_matches_plain a b dim :
  (l2_distance a b dim == l2_distance_plain a b dim)%Q.
Proof.
  unfold l2_distance, l2_distance_plain.
  pose proof (Nat.div_mod_eq dim 8) as Hdm.
  set (limit := dim - dim mod 8).
  assert (Hlimit : limit = 8 * (dim / 8)) by (unfold limit; lia).
  assert (Hsplit : seq 0 dim = seq 0 limit ++ seq limit (dim - limit)).
  { rewrite <- seq_app. f_equal. unfold limit. lia. }
  rewrite Hsplit, foldl_app.
  apply sum_ext; [|done].
  destruct (0 <? limit) eqn:E.
  - unfold l2_lane. rewrite Hlimit at 1 2 3 4 5 6 7 8.
    replace (8 * (dim / 8) / 8) with (dim / 8) by (rewrite Nat.mul_comm, Nat.div_mul; lia).
    rewrite Hlimit. apply (lanes_sum (sq_diff a b)).
  - apply Nat.ltb_ge in E. assert (limit = 0) as -> by lia. simpl. lra.
Qed.

Lemma sq_diff_sym a b i : (sq_diff a b i == sq_diff b a i)%Q.
Proof. unfold sq_diff. cbv zeta. ring. Qed.

(** X4.  Both metrics are symmetric: [compute(metric, a, b, dims)] equals
    [compute(metric, b, a, dims)]. *)
Theorem compute_symmetric metric a b dims :
  (compute metric a b dims == compute metric b a dims)%Q.
Proof.
  destruct metric; simpl.
  - unfold l2_distance. apply sum_ext; [|apply sq_diff_sym].
    destruct (0 <? dims - dims mod 8); [|lra].
    assert (Hlane : forall lane,
              (l2_lane a b (dims - dims mod 8) lane == l2_lane b a (dims - dims mod 8) lane)%Q).
    { intros lane. unfold l2_lane. apply sum_ext; [lra|]. intros. apply sq_diff_sym. }
    rewrite (Hlane 0), (Hlane 1), (Hlane 2), (Hlane 3),
            (Hlane 4), (Hlane 5), (Hlane 6), (Hlane 7). lra.
  - unfold ip_distance.
    assert (foldl (fun dist i => dist + vec_at a i * vec_at b i) 0 (seq 0 dims)
            == foldl (fun dist i => dist + vec_at b i * vec_at a i) 0 (seq 0 dims))%Q
      as ->; [|lra].
    apply (sum_ext (fun i => vec_at a i * vec_at b i)%Q (fun i => vec_at b i * vec_at a i)%Q);
      [lra|]. intros. ring.
Qed.

(** X5.  The L2 distance is never negative and is 0 between a vector and
    itself, so under L2 no search reports a negative distance. *)
Theorem compute_L2_nonneg_zero a b dims :
  (0 <= compute L2 a b dims)%Q /\ (compute L2 a a dims == 0)%Q.
Proof. split; [apply l2_distance_nonneg|apply l2_distance_self]. Qed.

(** *** VisitedSet and its pool *)

Lemma ensure_capacity_spec id vs :
  vs_ok vs -> (id < 2 ^ 32 - 1)%N ->
  vs_ok (ensure_capacity id vs) /\
  _tag (ensure_capacity id vs) = _tag vs /\
  N.to_nat id < length (_flags (ensure_capacity id vs)) /\
  forall j, vs_marked (ensure_capacity id vs) j <-> vs_marked vs j.
Proof.
  intros [Htag Hfl] Hid. unfold ensure_capacity.
  change (2 ^ 32)%N with 4294967296%N in *.
  destruct (length (_flags vs) <=? N.to_nat id) eqn:E.
  2:{ apply Nat.leb_gt in E. done. }
  apply Nat.leb_le in E.
  assert (Hw : N.to_nat (wrap32 (id + 1)) = S (N.to_nat id)).
  { unfold wrap32. change (2 ^ 32)%N with 4294967296%N. clear - Hid.
    rewrite N.mod_small by lia. lia. }
  unfold resize. rewrite Hw, take_ge by lia. simpl.
  split; [|split; [done|split]].
  - split; [done|]. simpl. apply Forall_app. split; [done|].
    apply Forall_replicate. lia.
  - rewrite length_app, length_replicate. lia.
  - intros j. unfold vs_marked. simpl.
    destruct (decide (N.to_nat j < length (_flags vs))) as [Hj|Hj].
    + by rewrite lookup_app_l.
    + rewrite (lookup_ge_None_2 (_flags vs)) by lia.
      rewrite lookup_app_r by lia. split; [|done].
      intros [Heq _]%lookup_replicate. lia.
Qed.

Lemma VisitedSet_new_spec n :
  vs_ok (VisitedSet_new n) /\ forall j, ~ vs_marked (VisitedSet_new n) j.
Proof.
  split.
  - split; [simpl; lia|]. simpl. apply Forall_replicate. lia.
  - intros j. unfold vs_marked. simpl. intros [[=] _]%lookup_replicate.
Qed.

(** X6.  [VisitedSet::mark] implements the set of visited ids that
    [greedy_search] is modelled with: for an id below [2^32 - 1] it returns
    true exactly when the id was not visited, and afterwards the visited
    ids are the old ones and this id.  (For the id [2^32 - 1] the capacity
    [id + 1] wraps to 0.) *)
Theorem VisitedSet_mark_refines_set vs id (S : gset N) :
  vs_ok vs -> (id < 2 ^ 32 - 1)%N ->
  (forall j, vs_marked vs j <-> j ∈ S) ->
  exists vs',
    VisitedSet_mark id vs = Some ((mark id S).1, vs') /\
    vs_ok vs' /\
    forall j, vs_marked vs' j <-> j ∈ (mark id S).2.
Proof.
  intros Hok Hid HS.
  destruct (ensure_capacity_spec id vs Hok Hid) as ([Htag Hfl] & Ht & Hlen & Hm).
  unfold VisitedSet_mark, mark. simpl.
  destruct (lookup_lt_is_Some_2 _ _ Hlen) as [f Hf]. rewrite Hf. simpl.
  destruct (f =? _tag (ensure_capacity id vs))%N eqn:E.
  - apply N.eqb_eq in E. subst f.
    assert (Hin : id ∈ S) by (apply HS, Hm; exact Hf).
    eexists. split; [by rewrite bool_decide_eq_false_2 by (intros Hn; by apply Hn)|].
    split; [done|]. intros j. rewrite Hm, HS. set_solver.
  - apply N.eqb_neq in E.
    assert (Hin : id ∉ S).
    { intros Hin. apply HS, Hm in Hin. unfold vs_marked in Hin. congruence. }
    eexists. split; [by rewrite bool_decide_eq_true_2|]. split.
    + split; [done|]. simpl. apply Forall_insert; [done|lia].
    + intros j. unfold vs_marked at 1. simpl.
      destruct (decide (j = id)) as [->|Hne].
      * rewrite list_lookup_insert_eq by done. set_solver.
      * rewrite list_lookup_insert_ne by (intros Heq; apply Hne; lia).
        fold (vs_marked (ensure_capacity id vs) j). rewrite Hm, HS. set_solver.
Qed.

Lemma VisitedSet_mark_refines_set_witness :
  vs_ok (VisitedSet_new 2) /\ (5 < 2 ^ 32 - 1)%N /\
  (forall j, vs_marked (VisitedSet_new 2) j <-> j ∈ (∅ : gset N)) /\
  exists vs',
    VisitedSet_mark 5 (VisitedSet_new 2) = Some ((mark 5 (∅ : gset N)).1, vs') /\
    vs_ok vs' /\
    forall j, vs_marked vs' j <-> j ∈ (mark 5 (∅ : gset N)).2.
Proof.
  assert (H1 : vs_ok (VisitedSet_new 2)) by apply VisitedSet_new_spec.
  assert (H2 : (5 < 2 ^ 32 - 1)%N) by (vm_compute; reflexivity).
  assert (H3 : forall j, vs_marked (VisitedSet_new 2) j <-> j ∈ (∅ : gset N)).
  { intros j. split; [|by intros ?%not_elem_of_empty].
    intros Hj. by apply VisitedSet_new_spec in Hj. }
  split; [exact H1|]. split; [exact H2|]. split; [exact H3|].
  exact (VisitedSet_mark_refines_set (VisitedSet_new 2) 5 ∅ H1 H2 H3).
Defined.

Lemma VisitedSet_clear_spec vs :
  vs_ok vs -> vs_ok (VisitedSet_clear vs) /\ forall j, ~ vs_marked (VisitedSet_clear vs) j.
Proof.
  intros [Htag Hfl]. unfold VisitedSet_clear, wrap32.
  change (2 ^ 32)%N with 4294967296%N in *.
  destruct (decide (_tag vs = 4294967295)%N) as [Hmax|Hmax].
  - rewrite Hmax. change (((4294967295 + 1) mod 4294967296 =? 0)%N) with true. cbv iota.
    split.
    + split; [simpl; lia|]. simpl. apply Forall_replicate. lia.
    + intros j. unfold vs_marked. simpl. intros [[=] _]%lookup_replicate.
  - rewrite N.mod_small by lia.
    destruct (_tag vs + 1 =? 0)%N eqn:E; [apply N.eqb_eq in E; lia|].
    split.
    + split; [simpl; lia|]. simpl. eapply Forall_impl; [exact Hfl|]. simpl. lia.
    + intros j. unfold vs_marked. simpl. intros Hj.
      rewrite Forall_forall in Hfl.
      assert (_tag vs + 1 <= _tag vs)%N; [|lia].
      apply Hfl. apply list_elem_of_lookup. eauto.
Qed.

(** X7.  A set handed out by [VisitedSetPool::acquire] has no id marked,
    whether it is new or recycled (also when clearing wraps the epoch
    around to 0), and [acquire] after [release(v)] hands out [v] again. *)
Theorem VisitedSetPool_acquire_unmarked n pool v :
  Forall vs_ok pool ->
  (vs_ok (VisitedSetPool_acquire n pool).1 /\
   (forall j, ~ vs_marked (VisitedSetPool_acquire n pool).1 j) /\
   Forall vs_ok (VisitedSetPool_acquire n pool).2) /\
  VisitedSetPool_acquire n (VisitedSetPool_release v pool) = (VisitedSet_clear v, pool).
Proof.
  intros Hpool. split.
  - unfold VisitedSetPool_acquire. destruct (last pool) as [w|] eqn:Hl.
    + apply last_Some in Hl as [pool' ->]. rewrite removelast_last. simpl.
      apply Forall_app in Hpool as [Hpool' Hw]. apply Forall_inv in Hw.
      destruct (VisitedSet_clear_spec w Hw). done.
    + simpl. destruct (VisitedSet_new_spec n). done.
  - unfold VisitedSetPool_acquire, VisitedSetPool_release.
    by rewrite last_snoc, removelast_last.
Qed.

Lemma VisitedSetPool_acquire_unmarked_witness :
  Forall vs_ok [mk_visited (2 ^ 32 - 1) [7%N; 0%N]] /\
  (vs_ok (VisitedSetPool_acquire 4 [mk_visited (2 ^ 32 - 1) [7%N; 0%N]]).1 /\
   (forall j, ~ vs_marked (VisitedSetPool_acquire 4 [mk_visited (2 ^ 32 - 1) [7%N; 0%N]]).1 j) /\
   Forall vs_ok (VisitedSetPool_acquire 4 [mk_visited (2 ^ 32 - 1) [7%N; 0%N]]).2) /\
  VisitedSetPool_acquire 4
    (VisitedSetPool_release (VisitedSet_new 1) [mk_visited (2 ^ 32 - 1) [7%N; 0%N]])
  = (VisitedSet_clear (VisitedSet_new 1), [mk_visited (2 ^ 32 - 1) [7%N; 0%N]]).
Proof.
  assert (H1 : Forall vs_ok [mk_visited (2 ^ 32 - 1) [7%N; 0%N]]).
  { repeat constructor; simpl; lia. }
  split; [exact H1|].
  exact (VisitedSetPool_acquire_unmarked 4 _ (VisitedSet_new 1) H1).
Defined.

(** *** robust_prune *)

(** X9.  [robust_prune(p, candidates, max_alpha)] leaves the index as it is
    when [p] is absent.  Otherwise it rewrites only the neighbor list of
    [p]: the new list has at most [R] entries, never [p] itself, and is a
    subsequence of the candidate ids (so it is duplicate-free when those
    are); the vector of [p] and all other nodes stay. *)
Theorem robust_prune_contract R metric dims p candidates max_alpha nm :
  match nm !! p with
  | None => robust_prune R metric dims p candidates max_alpha nm = nm
  | Some node =>
      exists node',
        robust_prune R metric dims p candidates max_alpha nm !! p = Some node' /\
        vector node' = vector node /\
        length (neighbors node') <= R /\
        (p ∉ neighbors node') /\
        sublist (neighbors node') (cand_id <$> candidates) /\
        (NoDup (cand_id <$> candidates) -> NoDup (neighbors node')) /\
        forall u, u ≠ p ->
          robust_prune R metric dims p candidates max_alpha nm !! u = nm !! u
  end.
Proof.
  destruct (nm !! p) as [node|] eqn:Hp.
  2:{ unfold robust_prune. by rewrite Hp. }
  assert (Hsub : sublist (prune_select R metric dims nm p candidates max_alpha)
                         (cand_id <$> candidates)).
  { rewrite prune_select_first_pass.
    destruct (prune_pass_appends R metric dims nm p 1 (length candidates) 0 candidates [])
      as (extra & -> & Hs). done. }
  eexists. rewrite robust_prune_lookup, decide_True, Hp by done. simpl.
  split; [done|]. split; [done|]. simpl.
  split; [apply prune_select_length|]. split; [apply prune_select_no_self|].
  split; [done|]. split.
  - intros Hnd. by eapply sublist_NoDup.
  - intros u Hu. by rewrite robust_prune_lookup, decide_False.
Qed.

Lemma update_neighbors_alpha R metric dims id vec alpha alpha' dl nm :
  update_neighbors R metric dims id vec alpha dl nm =
  update_neighbors R metric dims id vec alpha' dl nm.
Proof.
  unfold update_neighbors. destruct (nm !! id) as [node|]; [|done]. simpl.
  assert (Hstep : forall nm' v,
            update_neighbor R metric dims id vec alpha dl nm' v =
            update_neighbor R metric dims id vec alpha' dl nm' v).
  { intros nm' v. unfold update_neighbor.
    destruct (bool_decide _); [done|]. destruct (nm' !! v) as [nv|]; [|done].
    by rewrite (robust_prune_alpha_irrelevant R metric dims v _ alpha alpha'). }
  generalize (Some nm). induction (neighbors node) as [|v l IH]; intros acc; simpl; [done|].
  rewrite <- IH. f_equal. destruct acc as [nm'|]; [|done]. simpl. apply Hstep.
Qed.

(** X10.  The parameter [alpha] has no effect: the second pass of
    [robust_prune] finds every candidate taken, pruned or equal to [p], so
    [robust_prune], [insert] and [update] give the same index for any two
    values of [alpha]. *)
Theorem alpha_has_no_effect R metric dims id vec L alpha alpha' candidates nm V :
  robust_prune R metric dims id candidates alpha nm =
    robust_prune R metric dims id candidates alpha' nm /\
  insert R metric dims id vec L alpha V = insert R metric dims id vec L alpha' V /\
  update R metric dims id vec L alpha V = update R metric dims id vec L alpha' V.
Proof.
  split; [apply robust_prune_alpha_irrelevant|]. split.
  - unfold insert. destruct (try_medoid_compute _ _ _ _ _) as [V2|]; [|done]. simpl.
    destruct (greedy_search _ _ _ _ _ _ _ _ _) as [sr|]; [|done]. simpl.
    by rewrite (robust_prune_alpha_irrelevant R metric dims id sr alpha alpha'),
               (update_neighbors_alpha R metric dims id vec alpha alpha').
  - unfold update. destruct (node_map V !! id) as [it|]; [|done].
    destruct (bool_decide _); [done|].
    destruct (greedy_search _ _ _ _ _ _ _ _ _) as [sr|]; [|done]. simpl.
    by rewrite (robust_prune_alpha_irrelevant R metric dims id sr alpha alpha'),
               (update_neighbors_alpha R metric dims id vec alpha alpha').
Qed.

(** *** greedy_search *)

Lemma submseteq_NoDup_2 {A} (l k : list A) : l ⊆+ k -> NoDup k -> NoDup l.
Proof.
  intros Hs Hk. apply submseteq_Permutation in Hs as [k' Hk'].
  rewrite Hk' in Hk. by apply NoDup_app in Hk as [? _].
Qed.

Lemma pq_pop_sublist q : sublist (pq_pop q) q.
Proof. destruct q; simpl; [done|]. by apply sublist_cons. Qed.

(** The acceptance block yields [results1] (with or without [nn]) or
    [results1] without its top. *)
Lemma accept_candidate_shape dl L filter nn res md res' md' :
  accept_candidate dl L filter nn res md = Some (res', md') ->
  res' = res \/
  exists results1,
    (results1 = res \/
     ((nn.(cand_id) ∉ dl) /\ filter_accepts filter (cand_id nn) /\
      results1 = pq_push max_cmp nn res)) /\
    res' = if L <? length results1 then pq_pop results1 else results1.
Proof.
  unfold accept_candidate. intros H.
  apply bind_Some in H as (closer & _ & H). cbv zeta in H.
  destruct (closer && bool_decide (cand_id nn ∉ dl)) eqn:Hacc; [|left; congruence].
  apply andb_true_iff in Hacc as [_ Hdl]. apply bool_decide_eq_true in Hdl.
  right.
  assert (Hout : forall r2,
            (if length r2 =? L then t ← pq_top r2; Some (r2, distance t)
             else Some (r2, md)) = Some (res', md') -> res' = r2).
  { intros r2. destruct (length r2 =? L); intros Hr;
      [apply bind_Some in Hr as (? & _ & Hr)|]; congruence. }
  destruct filter as [f|] eqn:Ef; [destruct (f (cand_id nn)) eqn:Efn|];
    apply Hout in H; eexists; (split; [|exact H]); auto.
  - right. split; [done|]. split; [|done]. intros g [= <-]. done.
  - right. split; [done|]. split; [|done]. intros g [=].
Qed.

Lemma accept_candidate_submseteq dl L filter nn res md res' md' :
  accept_candidate dl L filter nn res md = Some (res', md') -> res' ⊆+ nn :: res.
Proof.
  intros H. apply accept_candidate_shape in H as [->|(r1 & Hr1 & ->)].
  { by apply submseteq_cons. }
  assert (H1 : r1 ⊆+ nn :: res).
  { destruct Hr1 as [->|(_ & _ & ->)]; [by apply submseteq_cons|].
    by rewrite pq_push_perm. }
  destruct (L <? length r1); [|done].
  etrans; [apply sublist_submseteq, pq_pop_sublist|done].
Qed.

Lemma accept_candidate_length dl L filter nn res md res' md' :
  accept_candidate dl L filter nn res md = Some (res', md') ->
  length res <= L -> length res' <= L.
Proof.
  intros H Hlen. apply accept_candidate_shape in H as [->|(r1 & Hr1 & ->)]; [done|].
  destruct (L <? length r1) eqn:E.
  - assert (length r1 <= S L).
    { destruct Hr1 as [->|(_ & _ & ->)]; [lia|]. rewrite pq_push_length. lia. }
    destruct r1; simpl in *; lia.
  - by apply Nat.ltb_ge in E.
Qed.

Lemma visit_neighbors_distinct metric dims V query res ids vis cands r :
  visit_neighbors metric dims (node_map V) query (vis, cands) ids = Some r ->
  distinct_ids (cands ++ res) ->
  (forall c, c ∈ cands ++ res -> cand_id c ∈ vis) ->
  distinct_ids (r.2 ++ res) /\ (forall c, c ∈ r.2 ++ res -> cand_id c ∈ r.1).
Proof.
  revert vis cands. induction ids as [|nid ids IH]; intros vis cands H Hd Hv; simpl in H.
  { by injection H as <-. }
  apply bind_Some in H as (acc' & Hn & H).
  apply visit_neighbor_cases in Hn as [->|[(Hn & _ & ->)|(n & Hn & _ & ->)]].
  - by eapply IH.
  - eapply IH; [exact H|done|]. intros c Hc. specialize (Hv c Hc). set_solver.
  - eapply IH; [exact H| |].
    + unfold distinct_ids in *. rewrite pq_push_perm. simpl.
      apply NoDup_cons. split; [|done].
      intros (c & Hid & Hc)%list_elem_of_fmap. apply Hn. rewrite Hid. by apply Hv.
    + intros c. rewrite pq_push_perm. intros [->|Hc]%elem_of_cons; [set_solver|].
      specialize (Hv c Hc). set_solver.
Qed.

Lemma greedy_search_distinct metric dims V start query k L filter out :
  greedy_search metric dims start query k L [] filter V = Some out ->
  NoDup (cand_id <$> out) /\ length out <= L.
Proof.
  intros H. destruct (node_map V !! start) as [node|] eqn:Hn.
  2:{ unfold greedy_search in H. rewrite Hn in H. injection H as <-.
      split; [constructor|simpl; lia]. }
  apply (greedy_search_invariant metric dims V query L filter
           (fun s => distinct_ids (candidates s ++ results s) /\
                     (forall c, c ∈ candidates s ++ results s -> cand_id c ∈ visited s) /\
                     length (results s) <= L))
    in H as (s & (Hd & _ & Hlen) & ->); [| | |eauto].
  - split.
    + rewrite fmap_take. eapply sublist_NoDup; [|apply sublist_take].
      rewrite fmap_reverse, reverse_Permutation.
      unfold distinct_ids in Hd. rewrite fmap_app in Hd.
      by apply NoDup_app in Hd as (_ & _ & ?).
    + rewrite length_take, length_reverse. lia.
  - intros s nn rest s1 (Hd & Hv & Hlen) Hc _ Hb.
    unfold search_body in Hb. apply bind_Some in Hb as ([r md] & Ha & Hb).
    rewrite Hc in Hd, Hv.
    assert (Hsub : rest ++ r ⊆+ (nn :: rest) ++ results s).
    { apply accept_candidate_submseteq in Ha.
      etrans; [apply submseteq_skips_l; exact Ha|].
      by rewrite <- Permutation_middle. }
    assert (Hd1 : distinct_ids (rest ++ r)).
    { unfold distinct_ids in *. eapply submseteq_NoDup_2; [|exact Hd]. by rewrite Hsub. }
    assert (Hv1 : forall c, c ∈ rest ++ r -> cand_id c ∈ visited s).
    { intros c Hin. apply Hv. by eapply elem_of_submseteq. }
    assert (Hl1 : length r <= L) by (by eapply accept_candidate_length).
    destruct (node_map V !! cand_id nn) as [nd|].
    + apply bind_Some in Hb as ([vis' cands'] & Hvn & Hb).
      apply (visit_neighbors_distinct metric dims V query r) in Hvn; [|done|done].
      injection Hb as <-. simpl in *. destruct Hvn. done.
    + injection Hb as <-. done.
  - intros node' _. simpl. split; [|split; [|lia]].
    + unfold distinct_ids. simpl. apply NoDup_singleton.
    + intros c [->|[]%elem_of_nil]%elem_of_cons. simpl. set_solver.
Qed.

(** X11.  With [L >= 1], on an index whose ids are all below [2^32 - 1],
    [greedy_search] returns, never an id twice, and never more than [L]
    results (so at most [min(k, L)]). *)
Theorem greedy_search_distinct_within_beam metric dims V start query k L filter :
  0 < L ->
  ids_in_range (node_map V) ->
  exists out,
    greedy_search metric dims start query k L [] filter V = Some out /\
    NoDup (cand_id <$> out) /\ length out <= L.
Proof.
  intros HL Hrange.
  destruct (greedy_search_total metric dims V query L filter start k [] HL Hrange)
    as [out Hout].
  exists out. split; [done|]. by eapply greedy_search_distinct.
Qed.

Lemma greedy_search_distinct_within_beam_witness :
  0 < 2 /\
  ids_in_range (node_map line_graph) /\
  exists out,
    greedy_search L2 1 0 [3%Q] 5 2 [] None line_graph = Some out /\
    NoDup (cand_id <$> out) /\ length out <= 2.
Proof.
  assert (H1 : 0 < 2) by lia.
  assert (H2 : ids_in_range (node_map line_graph)) by exact line_graph_in_range.
  split; [exact H1|]. split; [exact H2|].
  exact (greedy_search_distinct_within_beam L2 1 line_graph 0 [3%Q] 5 2 None H1 H2).
Defined.

(** X12.  On an index whose ids are all below [2^32 - 1], a search started
    at a node that is live, accepted by the filter and at a finite
    distance, with [L >= 1] and [k >= 1], is never empty, and its best
    result is at least as close to the query as the start node. *)
Theorem greedy_search_no_worse_than_start metric dims V start query k L filter node :
  node_map V !! start = Some node ->
  start ∉ delete_list V ->
  filter_accepts filter start ->
  0 < L -> 0 < k ->
  ids_in_range (node_map V) ->
  (compute metric (vector node) query dims <= FLT_MAX)%Q ->
  exists r rest,
    greedy_search metric dims start query k L [] filter V = Some (r :: rest) /\
    (distance r <= compute metric (vector node) query dims)%Q.
Proof.
  intros Hnode Hdl Hf HL Hk Hrange Hfin.
  set (d0 := compute metric (vector node) query dims) in *.
  set (c0 := mk_candidate start d0).
  destruct (greedy_search_total metric dims V query L filter start k [] HL Hrange)
    as [out Hout].
  assert (Hex : exists s,
    (search_inv metric dims V query filter s /\
     exists c, c ∈ results s /\ (distance c <= d0)%Q) /\
    out = take (min k (length (reverse (results s)))) (reverse (results s))).
  { unfold greedy_search in Hout. rewrite Hnode in Hout.
    apply bind_Some in Hout as ([b vis0] & _ & Hout).
    apply bind_Some in Hout as (s & Hloop & Hout). simpl in Hout. injection Hout as <-.
    exists s. split; [|done].
    assert (Hs : search_inv metric dims V query filter s /\
                 ((exists c, c ∈ results s /\ (distance c <= d0)%Q) \/
                  (results s = [] /\ candidates s = [c0] /\ max_distance s = FLT_MAX))).
    { eapply (search_loop_invariant metric dims V query L filter
                (fun s => search_inv metric dims V query filter s /\
                   ((exists c, c ∈ results s /\ (distance c <= d0)%Q) \/
                    (results s = [] /\ candidates s = [c0] /\ max_distance s = FLT_MAX))));
        [| |exact Hloop].
      - intros s0 nn rest s1 [Hinv Hw] Hc _ Hb.
        pose proof (search_body_inv _ _ _ _ _ _ _ _ _ _ Hinv Hc Hb) as Hinv1.
        split; [done|]. left.
        destruct (search_body_results _ _ _ _ _ _ _ _ _ _ Hb) as [md Ha].
        destruct Hw as [(c & Hin & Hle)|(Hres & Hcand & _)].
        + destruct Hinv as (Hdesc & _).
          apply accept_candidate_shape in Ha as [->|(r1 & Hr1 & Hr)]; [eauto|].
          assert (Hin1 : c ∈ r1).
          { destruct Hr1 as [->|(_ & _ & ->)]; [done|]. apply pq_push_elem. by right. }
          assert (Hd1 : descending r1).
          { destruct Hr1 as [->|(_ & _ & ->)]; [done|]. by apply pq_push_max_descending. }
          rewrite Hr. destruct (L <? length r1) eqn:E; [|eauto].
          apply Nat.ltb_lt in E.
          destruct r1 as [|t [|t' q]]; simpl in *; [lia|lia|].
          apply elem_of_cons in Hin1 as [->|Hin1]; [|eauto].
          exists t'. split; [left|].
          apply StronglySorted_inv in Hd1 as [_ Hall].
          apply Forall_cons in Hall as [Hall _]. lra.
        + rewrite Hcand in Hc. injection Hc as <- <-.
          unfold accept_candidate in Ha. rewrite Hres in Ha. simpl in Ha.
          assert ((0 <? L) = true) as HL' by (by apply Nat.ltb_lt). rewrite HL' in Ha.
          simpl in Ha. rewrite bool_decide_eq_true_2 in Ha by done.
          assert ((L <? 1) = false) as HL1 by (apply Nat.ltb_ge; lia).
          assert (Hpush : match filter with
                          | Some f => if f start then [c0] else []
                          | None => [c0]
                          end = [c0]).
          { destruct filter as [f|]; [|done]. by rewrite (Hf f eq_refl). }
          rewrite Hpush in Ha. simpl in Ha. rewrite HL1 in Ha.
          destruct (length [c0] =? L); simpl in Ha; injection Ha as <- _;
            (exists c0; split; [left|simpl; lra]).
      - split.
        + split; [constructor|]. split; [constructor|].
          repeat constructor. by exists node.
        + right. done. }
    destruct Hs as [Hinv [Hw|(_ & Hcand & Hmd)]]; [done|]. exfalso.
    apply search_loop_exit in Hloop as [Hnil|(nn & rest & Hc & Hlt)]; [congruence|].
    rewrite Hcand in Hc. injection Hc as <- <-. rewrite Hmd in Hlt.
    apply flt_true in Hlt. simpl in Hlt. lra. }
  destruct Hex as (s & [(Hdesc & _) (c & Hin & Hle)] & ->).
  apply descending_reverse in Hdesc.
  assert (Hin' : c ∈ reverse (results s)) by (by rewrite reverse_Permutation).
  destruct (reverse (results s)) as [|r rest]; [by apply elem_of_nil in Hin'|].
  exists r, (take (min k (length (r :: rest)) - 1) rest). split.
  { rewrite Hout. f_equal. simpl. destruct k; [lia|]. simpl. by rewrite Nat.sub_0_r. }
  apply elem_of_cons in Hin' as [<-|Hin']; [done|].
  apply StronglySorted_inv in Hdesc as [_ Hall].
  rewrite Forall_forall in Hall. specialize (Hall c Hin'). lra.
Qed.

Lemma greedy_search_no_worse_than_start_witness :
  node_map line_graph !! 0%N = Some (mk_node [1%N] [0%Q]) /\
  (0%N ∉ delete_list line_graph) /\
  filter_accepts (Some N.even) 0 /\
  0 < 2 /\ 0 < 1 /\
  ids_in_range (node_map line_graph) /\
  (compute L2 (vector (mk_node [1%N] [0%Q])) [3%Q] 1 <= FLT_MAX)%Q /\
  exists r rest,
    greedy_search L2 1 0 [3%Q] 1 2 [] (Some N.even) line_graph = Some (r :: rest) /\
    (distance r <= compute L2 (vector (mk_node [1%N] [0%Q])) [3%Q] 1)%Q.
Proof.
  assert (H1 : node_map line_graph !! 0%N = Some (mk_node [1%N] [0%Q])) by reflexivity.
  assert (H2 : 0%N ∉ delete_list line_graph) by apply not_elem_of_empty.
  assert (H3 : filter_accepts (Some N.even) 0) by (by intros f [= <-]).
  assert (H4 : 0 < 2) by lia.
  assert (H5 : 0 < 1) by lia.
  assert (Hr : ids_in_range (node_map line_graph)) by exact line_graph_in_range.
  assert (H6 : (compute L2 (vector (mk_node [1%N] [0%Q])) [3%Q] 1 <= FLT_MAX)%Q).
  { apply Qle_bool_iff. vm_compute. reflexivity. }
  split; [exact H1|]. split; [exact H2|]. split; [exact H3|]. split; [exact H4|].
  split; [exact H5|]. split; [exact Hr|]. split; [exact H6|].
  exact (greedy_search_no_worse_than_start L2 1 line_graph 0 [3%Q] 1 2 (Some N.even) _
           H1 H2 H3 H4 H5 Hr H6).
Defined.

(** *** What insert, update and remove leave behind *)

Section outcome_facts.
Context (R : nat) (metric : distance_metric_t) (dims : nat).

Lemma insert_inv id vec L alpha V V' :
  insert R metric dims id vec L alpha V = Some V' ->
  exists V2,
    node_map V2 = try_emplace id vec (node_map V) /\
    delete_list V2 = delete_list V /\
    _n (medoid_tracker V2) = wrap64 (_n (medoid_tracker V) + 1) /\
    _sum (medoid_tracker V2) = _sum (medoid_add vec (medoid_tracker V)) /\
    (search_result ← greedy_search metric dims (start_node V2) vec L L [] None V2;
     let V3 := set_node_map (robust_prune R metric dims id search_result alpha (node_map V2)) V2 in
     nm ← update_neighbors R metric dims id vec alpha (delete_list V3) (node_map V3);
     Some (set_node_map nm V3)) = Some V'.
Proof.
  unfold insert. intros H. apply bind_Some in H as (V2 & Htm & H).
  exists V2. split; [|split; [|split; [|split; [|exact H]]]];
    clear H; unfold try_medoid_compute in Htm; simpl in Htm;
    (match type of Htm with context [should_recompute ?m] =>
       destruct (should_recompute m) end; [|by injection Htm as <-]);
    apply bind_Some in Htm as (res & _ & Htm);
    destruct res; by injection Htm as <-.
Qed.

Lemma update_inv id new_vec L alpha V V' it :
  node_map V !! id = Some it -> id ∉ delete_list V ->
  update R metric dims id new_vec L alpha V = Some V' ->
  let V1 := set_node_map (<[id := mk_node (neighbors it) new_vec]> (node_map V)) V in
  (search_result ← greedy_search metric dims (start_node V1) new_vec L L [] None V1;
   let V3 := set_node_map (robust_prune R metric dims id search_result alpha (node_map V1)) V1 in
   nm ← update_neighbors R metric dims id new_vec alpha (delete_list V3) (node_map V3);
   Some (set_node_map nm V3)) = Some V'.
Proof.
  intros Hid Hdl H. unfold update in H. rewrite Hid in H.
  by rewrite bool_decide_eq_false_2 in H by done.
Qed.

Lemma remove_inv id V V' it :
  node_map V !! id = Some it ->
  remove R metric dims id V = Some V' ->
  exists nm2,
    (forall K, closed_in K (node_map V) -> closed_in K nm2) /\
    node_map V' = delete id nm2 /\
    delete_list V' = {[id]} ∪ delete_list V /\
    _n (medoid_tracker V') = wrap64 (_n (medoid_tracker V) - 1) /\
    _sum (medoid_tracker V') = _sum (medoid_sub (vector it) (medoid_tracker V)).
Proof.
  intros Hid H. unfold remove in H. rewrite Hid in H.
  apply bind_Some in H as (sr & _ & H).
  destruct (bool_decide _ && bool_decide _).
  { injection H as <-. exists (node_map V). done. }
  apply bind_Some in H as (nm1 & H1 & H).
  apply bind_Some in H as (it1 & Hit1 & H).
  apply bind_Some in H as (nm2 & H2 & H).
  apply bind_Some in H as (it2 & Hit2 & H).
  assert (Hvec : vector it2 = vector it).
  { destruct (patch_in_neighbors_rewires R metric dims id sr
                (approx_in_neighbors id sr (node_map V)) (node_map V)) as (nm1' & E1 & Hr1).
    rewrite H1 in E1. injection E1 as <-.
    destruct (patch_out_neighbors_rewires R metric dims id sr (neighbors it1) nm1)
      as (nm2' & E2 & Hr2).
    rewrite H2 in E2. injection E2 as <-.
    pose proof (same_vectors_lookup _ _ id
                  (same_vectors_trans _ _ _ (proj1 Hr1) (proj1 Hr2))) as Hl.
    rewrite Hid, Hit2 in Hl. simpl in Hl. congruence. }
  exists nm2. split.
  { intros K HK. eapply patch_out_neighbors_closed; [exact H2|].
    eapply patch_in_neighbors_closed; [exact H1|done]. }
  rewrite Hvec in H.
  destruct ((start_node V =? id)%N && _); [|by injection H as <-].
  simpl in H. apply bind_Some in H as (b & _ & H).
  apply bind_Some in H as (res & _ & H).
  destruct res; by injection H as <-.
Qed.

(** X13.  On an index whose ids are all below [2^32 - 1], after
    [insert(id, vec, L, alpha)] with [L >= 1] and [id < 2^32 - 1] the node
    map has the old keys and [id]; every other vector is as before and a
    new [id] holds [vec] (so [get_node] gives it back unless [id] is
    tombstoned); the tombstone set is unchanged and the medoid tracker has
    counted one more vector, also when [id] was already there. *)
Theorem insert_postcondition id vec L alpha V :
  0 < L ->
  markable id ->
  ids_in_range (node_map V) ->
  exists V',
    insert R metric dims id vec L alpha V = Some V' /\
    dom (node_map V') = {[id]} ∪ dom (node_map V) /\
    (forall j, j ≠ id -> vector <$> node_map V' !! j = vector <$> node_map V !! j) /\
    (node_map V !! id = None -> vector <$> node_map V' !! id = Some vec) /\
    (node_map V !! id = None -> id ∉ delete_list V -> vector (get_node id V') = vec) /\
    delete_list V' = delete_list V /\
    _n (medoid_tracker V') = wrap64 (_n (medoid_tracker V) + 1).
Proof.
  intros HL Hmid Hrange.
  destruct (insert_spec R metric dims id vec L alpha V HL Hmid Hrange)
    as (V' & HV' & [[Hvec _] _] & Hdl & _).
  exists V'. split; [done|].
  assert (Hfresh : node_map V !! id = None -> vector <$> node_map V' !! id = Some vec).
  { intros Hid. rewrite (same_vectors_lookup _ _ id Hvec). unfold try_emplace.
    by rewrite Hid, lookup_insert_eq. }
  split; [|split; [|split; [done|split; [|split; [done|]]]]].
  - rewrite (same_vectors_dom _ _ Hvec). unfold try_emplace.
    destruct (node_map V !! id) eqn:Hid; [|by rewrite dom_insert_L].
    apply elem_of_dom_2 in Hid. set_solver.
  - intros j Hj. rewrite (same_vectors_lookup _ _ j Hvec). unfold try_emplace.
    destruct (node_map V !! id); [done|]. by rewrite lookup_insert_ne.
  - intros Hid Hnd. specialize (Hfresh Hid). unfold get_node.
    rewrite Hdl, bool_decide_eq_false_2 by done.
    destruct (node_map V' !! id); simpl in *; congruence.
  - destruct (insert_inv id vec L alpha V V' HV') as (V2 & _ & _ & Hn & _ & Hchain).
    apply (relink_closed R metric dims (fun _ => True)) in Hchain as [_ ->]. done.
Qed.

(** X14.  [update(id, new_vec, L, alpha)] of a present id with [L >= 1],
    on an index whose ids are all below [2^32 - 1]:
    when [id] is tombstoned nothing changes; otherwise [id] holds
    [new_vec], every other vector, the keys, the tombstone set and
    [start_node] are as before, and the medoid tracker is not touched (its
    sum still holds the old vector). *)
Theorem update_postcondition id new_vec L alpha V it :
  node_map V !! id = Some it ->
  0 < L ->
  ids_in_range (node_map V) ->
  exists V',
    update R metric dims id new_vec L alpha V = Some V' /\
    if bool_decide (id ∈ delete_list V) then V' = V
    else
      vector <$> node_map V' !! id = Some new_vec /\
      (forall j, j ≠ id -> vector <$> node_map V' !! j = vector <$> node_map V !! j) /\
      dom (node_map V') = dom (node_map V) /\
      delete_list V' = delete_list V /\
      start_node V' = start_node V /\
      medoid_tracker V' = medoid_tracker V.
Proof.
  intros Hid HL Hrange. destruct (bool_decide (id ∈ delete_list V)) eqn:Hdl.
  { exists V. split; [|done]. unfold update. by rewrite Hid, Hdl. }
  apply bool_decide_eq_false in Hdl.
  destruct (update_spec R metric dims id new_vec L alpha V HL Hrange)
    as (V' & HV' & _ & _ & Hdom & Hst & _).
  exists V'. split; [done|].
  pose proof (update_inv id new_vec L alpha V V' it Hid Hdl HV') as Hchain.
  cbv zeta in Hchain.
  destruct (relink_total R metric dims id new_vec L alpha
              (set_node_map (<[id := mk_node (neighbors it) new_vec]> (node_map V)) V) HL)
    as (V'' & HV'' & [[Hvec _] _] & Hdl' & _).
  { simpl. apply closed_in_insert with it; [done|done|].
    simpl. intros v Hv. destruct Hrange as [He _]. by apply (He id it). }
  { simpl. rewrite lookup_insert_eq. eauto. }
  pose proof (eq_trans (eq_sym Hchain) HV'') as E. injection E as <-.
  destruct (relink_closed R metric dims (fun _ => True) id new_vec L alpha _ _ Hchain)
    as [_ Htr].
  simpl in *.
  split; [|split; [|done]].
  - by rewrite (same_vectors_lookup _ _ id Hvec), lookup_insert_eq.
  - intros j Hj. by rewrite (same_vectors_lookup _ _ j Hvec), lookup_insert_ne.
Qed.

(** X15.  On an index whose ids are all below [2^32 - 1], [remove(id)] of
    a present id erases it for good: [id] leaves the node map and joins the
    tombstone set, [get_node(id)] gives the empty node, the size drops by
    one, every other key keeps its vector, and the medoid tracker has
    counted one vector less. *)
Theorem remove_postcondition id V it :
  node_map V !! id = Some it ->
  ids_in_range (node_map V) ->
  exists V',
    remove R metric dims id V = Some V' /\
    node_map V' !! id = None /\
    dom (node_map V') = dom (node_map V) ∖ {[id]} /\
    (forall j, j ≠ id -> vector <$> node_map V' !! j = vector <$> node_map V !! j) /\
    delete_list V' = {[id]} ∪ delete_list V /\
    get_node id V' = mk_node [] [] /\
    S (get_size V') = get_size V /\
    _n (medoid_tracker V') = wrap64 (_n (medoid_tracker V) - 1).
Proof.
  intros Hid Hrange.
  destruct (remove_spec R metric dims id V Hrange) as (V' & HV' & Hvec & _).
  destruct (remove_inv id V V' it Hid HV') as (nm2 & _ & _ & Hdl & Hn & _).
  exists V'. split; [done|].
  assert (Hnone : node_map V' !! id = None).
  { pose proof (same_vectors_lookup _ _ id Hvec) as Hl. rewrite lookup_delete_eq in Hl.
    by destruct (node_map V' !! id). }
  assert (Hdom : dom (node_map V') = dom (node_map V) ∖ {[id]}).
  { by rewrite (same_vectors_dom _ _ Hvec), dom_delete_L. }
  split; [done|]. split; [done|]. split; [|split; [done|split; [|split; [|done]]]].
  - intros j Hj. by rewrite (same_vectors_lookup _ _ j Hvec), lookup_delete_ne.
  - unfold get_node. rewrite Hdl, bool_decide_eq_true_2 by set_solver. done.
  - unfold get_size. rewrite <- !size_dom, Hdom.
    apply elem_of_dom_2 in Hid.
    rewrite (size_difference (dom (node_map V)) {[id]}) by set_solver.
    rewrite size_singleton.
    assert (size (dom (node_map V)) ≠ 0); [|lia].
    intros Hz. apply size_empty_inv in Hz. set_solver.
Qed.

(** X16.  [remove] is idempotent: on an index whose ids are all below
    [2^32 - 1] it returns, and a second [remove(id)] changes nothing. *)
Theorem remove_twice id V :
  ids_in_range (node_map V) ->
  exists V',
    remove R metric dims id V = Some V' /\ remove R metric dims id V' = Some V'.
Proof.
  intros Hrange.
  destruct (remove_spec R metric dims id V Hrange) as (V' & HV' & Hvec & _).
  exists V'. split; [done|].
  pose proof (same_vectors_lookup _ _ id Hvec) as Hl. rewrite lookup_delete_eq in Hl.
  unfold remove. by destruct (node_map V' !! id).
Qed.
End outcome_facts.

Lemma insert_postcondition_witness :
  0 < 10 /\
  markable 7 /\
  ids_in_range (node_map line_graph) /\
  exists V',
    insert 2 L2 1 7 [8%Q] 10 1.2%Q line_graph = Some V' /\
    dom (node_map V') = {[7%N]} ∪ dom (node_map line_graph) /\
    (forall j, j ≠ 7%N ->
       vector <$> node_map V' !! j = vector <$> node_map line_graph !! j) /\
    (node_map line_graph !! 7%N = None -> vector <$> node_map V' !! 7%N = Some [8%Q]) /\
    (node_map line_graph !! 7%N = None -> 7%N ∉ delete_list line_graph ->
     vector (get_node 7 V') = [8%Q]) /\
    delete_list V' = delete_list line_graph /\
    _n (medoid_tracker V') = wrap64 (_n (medoid_tracker line_graph) + 1).
Proof.
  assert (H1 : 0 < 10) by lia.
  assert (H2 : markable 7) by (unfold markable, UINT32_MAX; lia).
  assert (H3 : ids_in_range (node_map line_graph)) by exact line_graph_in_range.
  split; [exact H1|]. split; [exact H2|]. split; [exact H3|].
  exact (insert_postcondition 2 L2 1 7 [8%Q] 10 1.2%Q line_graph H1 H2 H3).
Defined.

Lemma update_postcondition_witness :
  node_map line_graph !! 1%N = Some (mk_node [0%N; 2%N] [1%Q]) /\
  0 < 10 /\
  ids_in_range (node_map line_graph) /\
  exists V',
    update 2 L2 1 1 [2%Q] 10 1.2%Q line_graph = Some V' /\
    if bool_decide (1%N ∈ delete_list line_graph) then V' = line_graph
    else
      vector <$> node_map V' !! 1%N = Some [2%Q] /\
      (forall j, j ≠ 1%N ->
         vector <$> node_map V' !! j = vector <$> node_map line_graph !! j) /\
      dom (node_map V') = dom (node_map line_graph) /\
      delete_list V' = delete_list line_graph /\
      start_node V' = start_node line_graph /\
      medoid_tracker V' = medoid_tracker line_graph.
Proof.
  assert (H1 : node_map line_graph !! 1%N = Some (mk_node [0%N; 2%N] [1%Q]))
    by reflexivity.
  assert (H2 : 0 < 10) by lia.
  assert (H3 : ids_in_range (node_map line_graph)) by exact line_graph_in_range.
  split; [exact H1|]. split; [exact H2|]. split; [exact H3|].
  exact (update_postcondition 2 L2 1 1 [2%Q] 10 1.2%Q line_graph _ H1 H2 H3).
Defined.

Lemma remove_postcondition_witness :
  node_map line_graph !! 2%N = Some (mk_node [1%N] [3%Q]) /\
  ids_in_range (node_map line_graph) /\
  exists V',
    remove 2 L2 1 2 line_graph = Some V' /\
    node_map V' !! 2%N = None /\
    dom (node_map V') = dom (node_map line_graph) ∖ {[2%N]} /\
    (forall j, j ≠ 2%N ->
       vector <$> node_map V' !! j = vector <$> node_map line_graph !! j) /\
    delete_list V' = {[2%N]} ∪ delete_list line_graph /\
    get_node 2 V' = mk_node [] [] /\
    S (get_size V') = get_size line_graph /\
    _n (medoid_tracker V') = wrap64 (_n (medoid_tracker line_graph) - 1).
Proof.
  assert (H1 : node_map line_graph !! 2%N = Some (mk_node [1%N] [3%Q])) by reflexivity.
  assert (H2 : ids_in_range (node_map line_graph)) by exact line_graph_in_range.
  split; [exact H1|]. split; [exact H2|].
  exact (remove_postcondition 2 L2 1 2 line_graph _ H1 H2).
Defined.

Lemma remove_twice_witness :
  ids_in_range (node_map line_graph) /\
  exists V',
    remove 2 L2 1 1 line_graph = Some V' /\ remove 2 L2 1 1 V' = Some V'.
Proof.
  assert (H1 : ids_in_range (node_map line_graph)) by exact line_graph_in_range.
  split; [exact H1|].
  exact (remove_twice 2 L2 1 1 line_graph H1).
Defined.

(** *** Neighbor ids stay known, and live after consolidation *)

Lemma relink_keeps R metric dims id vec L alpha V V' :
  (search_result ← greedy_search metric dims (start_node V) vec L L [] None V;
   let V3 := set_node_map (robust_prune R metric dims id search_result alpha (node_map V)) V in
   nm ← update_neighbors R metric dims id vec alpha (delete_list V3) (node_map V3);
   Some (set_node_map nm V3)) = Some V' ->
  delete_list V' = delete_list V /\ start_node V' = start_node V.
Proof.
  intros H. apply bind_Some in H as (sr & _ & H). cbv zeta in H.
  apply bind_Some in H as (nm & _ & H). by injection H as <-.
Qed.

Lemma edges_known_insert R metric dims id vec L alpha V :
  0 < L -> markable id -> ids_in_range (node_map V) -> edges_known V ->
  exists V', insert R metric dims id vec L alpha V = Some V' /\ edges_known V'.
Proof.
  intros HL Hmid Hrange Hk.
  destruct (insert_spec R metric dims id vec L alpha V HL Hmid Hrange)
    as (V' & HV' & [[Hvec _] _] & Hdl & _).
  exists V'. split; [done|].
  destruct (insert_inv R metric dims id vec L alpha V V' HV')
    as (V2 & Hnm2 & _ & _ & _ & Hchain).
  destruct (relink_closed R metric dims
              (fun v => is_Some (try_emplace id vec (node_map V) !! v) \/ v ∈ delete_list V)
              id vec L alpha V2 V' Hchain) as [Hc _].
  destruct Hc as [He _].
  - rewrite Hnm2. split; [|by left].
    intros u node v Hu Hv. unfold try_emplace in *.
    destruct (node_map V !! id) eqn:Hid; [by apply (Hk u node v)|].
    destruct (decide (u = id)) as [->|Hne].
    + rewrite lookup_insert_eq in Hu. injection Hu as <-. simpl in Hv.
      by apply elem_of_nil in Hv.
    + rewrite lookup_insert_ne in Hu by done.
      destruct (Hk u node v Hu Hv) as [Hs|Hd]; [left|by right].
      destruct (decide (v = id)) as [->|Hne']; [rewrite lookup_insert_eq; eauto|].
      by rewrite lookup_insert_ne.
  - left. destruct (try_emplace_lookup id vec (node_map V)) as (n & Hn & _). eauto.
  - intros u node v Hu Hv. destruct (He u node v Hu Hv) as [Hs|Hd].
    + left. by apply (same_vectors_is_Some _ _ _ Hvec).
    + right. by rewrite Hdl.
Qed.

Lemma edges_known_update R metric dims id new_vec L alpha V :
  0 < L -> ids_in_range (node_map V) -> edges_known V ->
  exists V', update R metric dims id new_vec L alpha V = Some V' /\ edges_known V'.
Proof.
  intros HL Hrange Hk.
  destruct (update_spec R metric dims id new_vec L alpha V HL Hrange)
    as (V' & HV' & _ & _ & Hdom & _).
  exists V'. split; [done|].
  destruct (node_map V !! id) as [it|] eqn:Hid.
  2:{ unfold update in HV'. rewrite Hid in HV'. by injection HV' as <-. }
  destruct (decide (id ∈ delete_list V)) as [Hin|Hout].
  { unfold update in HV'. rewrite Hid, bool_decide_eq_true_2 in HV' by done.
    by injection HV' as <-. }
  pose proof (update_inv R metric dims id new_vec L alpha V V' it Hid Hout HV') as Hchain.
  cbv zeta in Hchain.
  pose proof (relink_keeps _ _ _ _ _ _ _ _ _ Hchain) as [Hdl _].
  destruct (relink_closed R metric dims
              (fun v => is_Some (node_map V !! v) \/ v ∈ delete_list V)
              id new_vec L alpha _ V' Hchain) as [Hc _].
  simpl in Hc, Hdl. destruct Hc as [He _].
  - apply closed_in_insert with it; [split; [exact Hk|by left]|done|].
    simpl. intros v Hv. by apply (Hk id it v).
  - left. eauto.
  - intros u node v Hu Hv. destruct (He u node v Hu Hv) as [Hs|Hd].
    + left. apply elem_of_dom. rewrite Hdom. by apply elem_of_dom.
    + right. by rewrite Hdl.
Qed.

Lemma edges_known_remove R metric dims id V :
  ids_in_range (node_map V) -> edges_known V ->
  exists V', remove R metric dims id V = Some V' /\ edges_known V'.
Proof.
  intros Hrange Hk.
  destruct (remove_spec R metric dims id V Hrange) as (V' & HV' & Hvec & _).
  exists V'. split; [done|].
  destruct (node_map V !! id) as [it|] eqn:Hid.
  2:{ unfold remove in HV'. rewrite Hid in HV'. by injection HV' as <-. }
  destruct (remove_inv R metric dims id V V' it Hid HV') as (nm2 & Hc & Hnm & Hdl & _).
  destruct (Hc (fun v => is_Some (node_map V !! v) \/ v ∈ delete_list V)) as [He _].
  { split; [exact Hk|by left]. }
  intros u node v Hu Hv. rewrite Hnm in Hu.
  apply lookup_delete_Some in Hu as [_ Hu].
  rewrite Hdl. destruct (decide (v = id)) as [->|Hne]; [right; set_solver|].
  destruct (He u node v Hu Hv) as [Hs|Hd]; [left|right; set_solver].
  apply (same_vectors_is_Some _ _ _ Hvec). by rewrite lookup_delete_ne.
Qed.

Lemma batch_delete_live V u node v :
  edges_known V ->
  node_map (batch_delete V) !! u = Some node -> v ∈ neighbors node ->
  is_Some (node_map (batch_delete V) !! v).
Proof.
  intros Hk. unfold batch_delete.
  destruct (bool_decide (delete_list V = ∅)) eqn:Hd.
  - apply bool_decide_eq_true in Hd. intros Hu Hv.
    destruct (Hk u node v Hu Hv) as [Hs|Hin]; [done|]. rewrite Hd in Hin. set_solver.
  - simpl. rewrite !lookup_fmap.
    destruct (node_map V !! u) as [n|] eqn:Hu; [|done]. simpl. intros [= <-]. simpl.
    intros Hv. apply list_elem_of_filter in Hv as [Hnd Hv].
    destruct (Hk u n v Hu Hv) as [[n' ->]|Hin]; [by eexists|done].
Qed.

Lemma apply_op_edges_known R metric dims o V :
  op_defined o -> ids_in_range (node_map V) -> edges_known V ->
  exists V', apply_op R metric dims o V = Some V' /\ edges_known V'.
Proof.
  intros Hdef Hrange Hk. destruct o as [id vec L alpha|id vec L alpha|id|]; simpl in *.
  - destruct Hdef. by apply edges_known_insert.
  - by apply edges_known_update.
  - by apply edges_known_remove.
  - eexists. split; [done|]. intros u node v Hu Hv. left.
    by apply (batch_delete_live V u node v).
Qed.

(** X17.  No neighbor list ever names an unknown id: from a state where
    every neighbor id is a key of the node map or a tombstone (the empty
    index is one), any sequence of insert, update, remove and batch_delete
    with beam widths [L >= 1] and ids below [2^32 - 1] runs to a state
    where this holds. *)
Theorem edges_known_after_operations R metric dims ops V :
  edges_known V ->
  ids_in_range (node_map V) ->
  Forall op_defined ops ->
  exists V', run R metric dims ops V = Some V' /\ edges_known V'.
Proof.
  intros Hk Hrange Hops.
  destruct (run_invariant R metric dims edges_known ops V)
    as (V' & HV' & _ & Hk'); [|done|done|done|by exists V'].
  intros o V1 _ Hdef Hr1 Hk1 V2 HV2.
  destruct (apply_op_edges_known R metric dims o V1 Hdef Hr1 Hk1) as (V2' & HV2' & Hk2).
  rewrite HV2 in HV2'. by injection HV2' as <-.
Qed.

Lemma edges_known_after_operations_witness :
  edges_known (Vamana_new 1) /\
  ids_in_range (node_map (Vamana_new 1)) /\
  Forall op_defined [op_insert 0 [0%Q] 10 1.2%Q; op_insert 1 [1%Q] 10 1.2%Q;
                     op_remove 0; op_insert 2 [3%Q] 10 1.2%Q] /\
  exists V',
    run 2 L2 1 [op_insert 0 [0%Q] 10 1.2%Q; op_insert 1 [1%Q] 10 1.2%Q;
                op_remove 0; op_insert 2 [3%Q] 10 1.2%Q] (Vamana_new 1) = Some V' /\
    edges_known V'.
Proof.
  assert (H0 : edges_known (Vamana_new 1)).
  { intros u node v Hu. simpl in Hu. by rewrite lookup_empty in Hu. }
  assert (Hr : ids_in_range (node_map (Vamana_new 1))) by exact empty_in_range.
  assert (Hops : Forall op_defined
                   [op_insert 0 [0%Q] 10 1.2%Q; op_insert 1 [1%Q] 10 1.2%Q;
                    op_remove 0; op_insert 2 [3%Q] 10 1.2%Q])
    by (repeat constructor; simpl; lia).
  split; [exact H0|]. split; [exact Hr|]. split; [exact Hops|].
  exact (edges_known_after_operations 2 L2 1 _ _ H0 Hr Hops).
Defined.

(** X18.  [batch_delete] consolidates: the tombstone set is empty
    afterwards, no neighbor list names a former tombstone, keys, vectors
    and [start_node] are as before, and a second call changes nothing. *)
Theorem batch_delete_clears_tombstones V :
  delete_list (batch_delete V) = ∅ /\
  (forall u node v, node_map (batch_delete V) !! u = Some node ->
     v ∈ neighbors node -> v ∉ delete_list V) /\
  same_vectors (node_map V) (node_map (batch_delete V)) /\
  start_node (batch_delete V) = start_node V /\
  batch_delete (batch_delete V) = batch_delete V.
Proof.
  assert (Hdl : delete_list (batch_delete V) = ∅).
  { unfold batch_delete. destruct (bool_decide (delete_list V = ∅)) eqn:Hd; [|done].
    by apply bool_decide_eq_true in Hd. }
  split; [done|]. split; [|split; [|split]].
  - unfold batch_delete. destruct (bool_decide (delete_list V = ∅)) eqn:Hd.
    { apply bool_decide_eq_true in Hd. rewrite Hd. set_solver. }
    simpl. intros u node v. rewrite lookup_fmap.
    destruct (node_map V !! u) as [n|]; [|done]. simpl. intros [= <-]. simpl.
    intros Hv. by apply list_elem_of_filter in Hv as [Hnd _].
  - unfold batch_delete. destruct (bool_decide (delete_list V = ∅)); [done|].
    simpl. unfold same_vectors. rewrite <- map_fmap_compose. apply map_fmap_ext.
    by intros k [] _.
  - unfold batch_delete. by destruct (bool_decide (delete_list V = ∅)).
  - unfold batch_delete at 1. by rewrite bool_decide_eq_true_2.
Qed.

(** X19.  After [batch_delete] every neighbor is live: when every neighbor
    id was a key or a tombstone before, every neighbor id is a key of the
    node map afterwards. *)
Theorem batch_delete_leaves_live_edges V :
  edges_known V ->
  forall u node v, node_map (batch_delete V) !! u = Some node ->
    v ∈ neighbors node -> is_Some (node_map (batch_delete V) !! v).
Proof. intros Hk u node v. by apply batch_delete_live. Qed.

Example tombstone_graph_by_remove :
  remove 2 L2 1 2 line_graph = Some tombstone_graph.
Proof. vm_compute. reflexivity. Qed.

Lemma edges_known_Forall V :
  map_Forall (fun _ node =>
                Forall (fun v => is_Some (node_map V !! v) \/ v ∈ delete_list V)
                       (neighbors node)) (node_map V) ->
  edges_known V.
Proof.
  intros H u node v Hu Hv. specialize (H u node Hu). simpl in H.
  rewrite Forall_forall in H. by apply H.
Qed.

Lemma batch_delete_leaves_live_edges_witness :
  edges_known tombstone_graph /\
  forall u node v, node_map (batch_delete tombstone_graph) !! u = Some node ->
    v ∈ neighbors node -> is_Some (node_map (batch_delete tombstone_graph) !! v).
Proof.
  assert (H0 : edges_known tombstone_graph).
  { apply edges_known_Forall.
    match goal with |- ?P => apply (@bool_decide_unpack P _) end. vm_compute. exact I. }
  split; [exact H0|].
  exact (batch_delete_leaves_live_edges tombstone_graph H0).
Defined.

(** *** The entry point after its recomputation *)

(** X20.  On an index whose ids are all below [2^32 - 1],
    [try_medoid_compute] returns, counts the point in the medoid tracker
    and never touches nodes or tombstones.  It moves [start_node] only
    when a recomputation is forced or due, and then only to a present id
    that is not tombstoned; a recomputation resets the countdown. *)
Theorem try_medoid_compute_outcome metric dims point force V :
  ids_in_range (node_map V) ->
  exists V',
    try_medoid_compute metric dims point force V = Some V' /\
    node_map V' = node_map V /\ delete_list V' = delete_list V /\
    _n (medoid_tracker V') = wrap64 (_n (medoid_tracker V) + 1) /\
    (start_node V' = start_node V \/
     (is_Some (node_map V !! start_node V') /\ start_node V' ∉ delete_list V)) /\
    if force || should_recompute (medoid_add point (medoid_tracker V))
    then _countdown (medoid_tracker V') = _interval (medoid_tracker V)
    else start_node V' = start_node V /\
         _countdown (medoid_tracker V') = wrap64 (_countdown (medoid_tracker V) - 1).
Proof.
  intros Hrange. unfold try_medoid_compute. cbn [medoid_tracker set_medoid_tracker].
  destruct (force || should_recompute (medoid_add point (medoid_tracker V))).
  2:{ eexists. split; [done|]. simpl. eauto 10. }
  destruct (centroid (medoid_add point (medoid_tracker V))) as [c tracker] eqn:Hc.
  assert (Htr : _n tracker = wrap64 (_n (medoid_tracker V) + 1) /\
                _countdown tracker = _interval (medoid_tracker V)).
  { unfold centroid in Hc. injection Hc as _ <-. done. }
  destruct Htr as [Hn Hcd].
  match goal with |- context [greedy_search _ _ ?s ?q ?k ?L ?o ?f ?W] =>
    destruct (greedy_search_total metric dims W q L f s k o) as [res Hres];
      [lia|done|] end.
  rewrite Hres. simpl. destruct res as [|r res].
  { eexists. split; [done|]. simpl. eauto 10. }
  eexists. split; [done|]. simpl. split; [done|]. split; [done|]. split; [done|].
  split; [|done]. right.
  apply greedy_search_sound in Hres as (_ & _ & Hall).
  apply Forall_cons in Hall as [(Hnd & (node & Hnode & _) & _) _]. eauto.
Qed.

Lemma try_medoid_compute_outcome_witness :
  ids_in_range (node_map line_graph) /\
  exists V',
    try_medoid_compute L2 1 [5%Q] true line_graph = Some V' /\
    node_map V' = node_map line_graph /\ delete_list V' = delete_list line_graph /\
    _n (medoid_tracker V') = wrap64 (_n (medoid_tracker line_graph) + 1) /\
    (start_node V' = start_node line_graph \/
     (is_Some (node_map line_graph !! start_node V') /\
      start_node V' ∉ delete_list line_graph)) /\
    if true || should_recompute (medoid_add [5%Q] (medoid_tracker line_graph))
    then _countdown (medoid_tracker V') = _interval (medoid_tracker line_graph)
    else start_node V' = start_node line_graph /\
         _countdown (medoid_tracker V') =
           wrap64 (_countdown (medoid_tracker line_graph) - 1).
Proof.
  assert (H1 : ids_in_range (node_map line_graph)) by exact line_graph_in_range.
  split; [exact H1|].
  exact (try_medoid_compute_outcome L2 1 [5%Q] true line_graph H1).
Defined.

(** *** Self-loops *)

(** X22.  Insert, update and batch_delete never create a self-loop: a
    sequence of operations without [remove], with beam widths [L >= 1] and
    ids below [2^32 - 1], runs from a state free of self-loops to a state
    free of self-loops. *)
Theorem no_self_loop_without_remove R metric dims ops V :
  no_self_loop (node_map V) ->
  ids_in_range (node_map V) ->
  Forall op_defined ops ->
  (forall id, op_remove id ∉ ops) ->
  exists V', run R metric dims ops V = Some V' /\ no_self_loop (node_map V').
Proof.
  intros Hn Hrange Hops Hrem.
  destruct (run_invariant R metric dims (fun V => no_self_loop (node_map V)) ops V)
    as (V' & HV' & _ & Hn'); [|done|done|done|by exists V'].
  intros o V1 Ho Hdef Hr1 Hn1 V2 HV2.
  destruct (apply_op_no_self_loop R metric dims o V1 Hdef Hr1 Hn1) as (V2' & HV2' & Hn2).
  { intros id ->. by apply (Hrem id). }
  rewrite HV2 in HV2'. by injection HV2' as <-.
Qed.

Lemma no_self_loop_without_remove_witness :
  no_self_loop (node_map (Vamana_new 1)) /\
  ids_in_range (node_map (Vamana_new 1)) /\
  Forall op_defined [op_insert 0 [0%Q] 10 1.2%Q; op_insert 1 [1%Q] 10 1.2%Q;
                     op_update 1 [2%Q] 10 1.2%Q; op_batch_delete] /\
  (forall id, op_remove id ∉ [op_insert 0 [0%Q] 10 1.2%Q; op_insert 1 [1%Q] 10 1.2%Q;
                              op_update 1 [2%Q] 10 1.2%Q; op_batch_delete]) /\
  exists V',
    run 2 L2 1 [op_insert 0 [0%Q] 10 1.2%Q; op_insert 1 [1%Q] 10 1.2%Q;
                op_update 1 [2%Q] 10 1.2%Q; op_batch_delete] (Vamana_new 1) = Some V' /\
    no_self_loop (node_map V').
Proof.
  assert (H0 : no_self_loop (node_map (Vamana_new 1))) by apply map_Forall_empty.
  assert (Hr : ids_in_range (node_map (Vamana_new 1))) by exact empty_in_range.
  assert (Hops : Forall op_defined
                   [op_insert 0 [0%Q] 10 1.2%Q; op_insert 1 [1%Q] 10 1.2%Q;
                    op_update 1 [2%Q] 10 1.2%Q; op_batch_delete])
    by (repeat constructor; simpl; lia).
  assert (Hrem : forall id,
            op_remove id ∉ [op_insert 0 [0%Q] 10 1.2%Q; op_insert 1 [1%Q] 10 1.2%Q;
                            op_update 1 [2%Q] 10 1.2%Q; op_batch_delete]).
  { intros id Hin. repeat (apply elem_of_cons in Hin as [Hin|Hin]; [discriminate|]).
    by apply elem_of_nil in Hin. }
  split; [exact H0|]. split; [exact Hr|]. split; [exact Hops|]. split; [exact Hrem|].
  exact (no_self_loop_without_remove 2 L2 1 _ _ H0 Hr Hops Hrem).
Defined.

Lemma apply_op_start_node_live_witness :
  op_defined (op_insert 7 [8%Q] 10 1.2%Q) /\
  ids_in_range (node_map line_graph) /\
  start_node_live line_graph /\
  (forall id vec L alpha,
     op_insert 7 [8%Q] 10 1.2%Q = op_insert id vec L alpha ->
     node_map line_graph ≠ ∅ \/ id = start_node line_graph) /\
  exists V',
    apply_op 2 L2 1 (op_insert 7 [8%Q] 10 1.2%Q) line_graph = Some V' /\
    start_node_live V'.
Proof.
  assert (H0 : op_defined (op_insert 7 [8%Q] 10 1.2%Q))
    by (simpl; unfold UINT32_MAX; lia).
  assert (Hr : ids_in_range (node_map line_graph)) by exact line_graph_in_range.
  assert (Hne : node_map line_graph ≠ ∅).
  { intros He. assert (Hl : node_map line_graph !! 0%N = None)
      by (rewrite He; apply lookup_empty).
    vm_compute in Hl. discriminate. }
  assert (H1 : start_node_live line_graph).
  { intros _. vm_compute. eauto. }
  assert (H2 : forall id vec L alpha,
            op_insert 7 [8%Q] 10 1.2%Q = op_insert id vec L alpha ->
            node_map line_graph ≠ ∅ \/ id = start_node line_graph)
    by (intros; by left).
  split; [exact H0|]. split; [exact Hr|]. split; [exact H1|]. split; [exact H2|].
  exact (apply_op_start_node_live 2 L2 1 _ _ H0 Hr H1 H2).
Defined.

(** *** The last id of a VisitedSet *)

(** X23.  [VisitedSet::mark(2^32 - 1)] on a set with at most [2^32 - 1]
    flags reads out of bounds: [ensure_capacity] computes the new size
    [id + 1] in [uint32_t], which is 0, so the flags are emptied. *)
Theorem VisitedSet_mark_last_id_out_of_bounds vs :
  length (_flags vs) <= N.to_nat 4294967295 ->
  VisitedSet_mark 4294967295 vs = None.
Proof.
  intros Hlen. unfold VisitedSet_mark, ensure_capacity.
  rewrite (proj2 (Nat.leb_le _ _) Hlen).
  change (wrap32 (4294967295 + 1)) with 0%N.
  change (N.to_nat 0) with 0%nat.
  unfold resize. rewrite take_0, Nat.sub_0_l.
  cbv zeta. cbn [_flags replicate app]. by rewrite lookup_nil.
Qed.

Lemma VisitedSet_mark_last_id_out_of_bounds_witness :
  length (_flags (VisitedSet_new 3)) <= N.to_nat 4294967295 /\
  VisitedSet_mark 4294967295 (VisitedSet_new 3) = None.
Proof.
  assert (H0 : length (_flags (VisitedSet_new 3)) <= N.to_nat 4294967295).
  { unfold VisitedSet_new. cbn [_flags]. rewrite length_replicate. lia. }
  split; [exact H0|].
  exact (VisitedSet_mark_last_id_out_of_bounds (VisitedSet_new 3) H0).
Defined.

(** *** The visited set of greedy_search *)

Lemma ensure_capacity_length id vs :
  (id < UINT32_MAX)%N ->
  length (_flags vs) <= N.to_nat UINT32_MAX ->
  length (_flags (ensure_capacity id vs)) <= N.to_nat UINT32_MAX.
Proof.
  unfold UINT32_MAX. intros Hid Hlen. unfold ensure_capacity.
  destruct (length (_flags vs) <=? N.to_nat id) eqn:E; [|done].
  apply Nat.leb_le in E.
  assert (Hw : N.to_nat (wrap32 (id + 1)) = S (N.to_nat id)).
  { unfold wrap32. change (2 ^ 32)%N with 4294967296%N. clear - Hid.
    rewrite N.mod_small by lia. lia. }
  unfold resize. rewrite Hw, take_ge by lia. cbn [_flags].
  rewrite length_app, length_replicate. lia.
Qed.

(** X24.  The visited set that [greedy_search] is modelled with is the
    [VisitedSet] of the source: on a well-formed set with at most
    [2^32 - 1] flags whose marked ids are those of [S], [VisitedSet::mark]
    of a [uint32_t] id is undefined exactly when the model's [visited_mark]
    is (the id [2^32 - 1]); otherwise both give the same answer, the
    marked ids are again those of the model's set, and the set stays
    well-formed with at most [2^32 - 1] flags. *)
Theorem visited_mark_refines_VisitedSet vs id (S : gset N) :
  vs_ok vs ->
  length (_flags vs) <= N.to_nat UINT32_MAX ->
  (id <= UINT32_MAX)%N ->
  (forall j, vs_marked vs j <-> j ∈ S) ->
  match visited_mark id S with
  | Some (newly, S') =>
      exists vs',
        VisitedSet_mark id vs = Some (newly, vs') /\
        vs_ok vs' /\
        length (_flags vs') <= N.to_nat UINT32_MAX /\
        forall j, vs_marked vs' j <-> j ∈ S'
  | None => VisitedSet_mark id vs = None
  end.
Proof.
  intros Hok Hlen Hid HS. unfold visited_mark.
  destruct (N.ltb_spec id UINT32_MAX) as [Hlt|Hge].
  - pose proof (ensure_capacity_length id vs Hlt Hlen) as Hlen1.
    destruct (ensure_capacity_spec id vs Hok) as ([Htag Hfl] & Ht & Hcap & Hm).
    { unfold UINT32_MAX in Hlt. change (2 ^ 32)%N with 4294967296%N. lia. }
    unfold VisitedSet_mark, mark. cbv zeta.
    destruct (lookup_lt_is_Some_2 _ _ Hcap) as [f Hf]. rewrite Hf. cbn [mbind option_bind].
    destruct (f =? _tag (ensure_capacity id vs))%N eqn:E.
    + apply N.eqb_eq in E. subst f.
      assert (Hin : id ∈ S) by (apply HS, Hm; exact Hf).
      rewrite bool_decide_eq_false_2 by (intros Hn; by apply Hn).
      eexists. split; [done|]. split; [done|]. split; [done|].
      intros j. rewrite Hm, HS. set_solver.
    + apply N.eqb_neq in E.
      assert (Hin : id ∉ S).
      { intros Hin. apply HS, Hm in Hin. unfold vs_marked in Hin. congruence. }
      rewrite bool_decide_eq_true_2 by done.
      eexists. split; [done|]. split; [|split].
      * split; [done|]. cbn [_flags _tag]. apply Forall_insert; [done|lia].
      * cbn [_flags]. by rewrite length_insert.
      * intros j. unfold vs_marked at 1. cbn [_flags _tag].
        destruct (decide (j = id)) as [->|Hne].
        -- rewrite list_lookup_insert_eq by done. set_solver.
        -- rewrite list_lookup_insert_ne by (intros Heq; apply Hne; lia).
           fold (vs_marked (ensure_capacity id vs) j). rewrite Hm, HS. set_solver.
  - assert (id = UINT32_MAX) as -> by lia.
    unfold VisitedSet_mark, ensure_capacity.
    rewrite (proj2 (Nat.leb_le _ _) Hlen).
    change (wrap32 (UINT32_MAX + 1)) with 0%N.
    change (N.to_nat 0) with 0%nat.
    unfold resize. rewrite take_0, Nat.sub_0_l.
    cbv zeta. cbn [_flags replicate app]. by rewrite lookup_nil.
Qed.

Lemma visited_mark_refines_VisitedSet_witness :
  vs_ok (VisitedSet_new 2) /\
  length (_flags (VisitedSet_new 2)) <= N.to_nat UINT32_MAX /\
  (5 <= UINT32_MAX)%N /\
  (forall j, vs_marked (VisitedSet_new 2) j <-> j ∈ (∅ : gset N)) /\
  match visited_mark 5 (∅ : gset N) with
  | Some (newly, S') =>
      exists vs',
        VisitedSet_mark 5 (VisitedSet_new 2) = Some (newly, vs') /\
        vs_ok vs' /\
        length (_flags vs') <= N.to_nat UINT32_MAX /\
        forall j, vs_marked vs' j <-> j ∈ S'
  | None => VisitedSet_mark 5 (VisitedSet_new 2) = None
  end.
Proof.
  destruct (VisitedSet_new_spec 2) as [H1 Hno].
  assert (H2 : length (_flags (VisitedSet_new 2)) <= N.to_nat UINT32_MAX).
  { unfold VisitedSet_new, UINT32_MAX. cbn [_flags]. rewrite length_replicate. lia. }
  assert (H3 : (5 <= UINT32_MAX)%N) by (unfold UINT32_MAX; lia).
  assert (H4 : forall j, vs_marked (VisitedSet_new 2) j <-> j ∈ (∅ : gset N)).
  { intros j. split; [by intros ?%Hno|by intros ?%not_elem_of_empty]. }
  split; [exact H1|]. split; [exact H2|]. split; [exact H3|]. split; [exact H4|].
  exact (visited_mark_refines_VisitedSet (VisitedSet_new 2) 5 ∅ H1 H2 H3 H4).
Defined.
